(** * A shallow embedding of the RAG backend (ingestion, retrieval, generation)

    The development follows the Python sources under [backend/app]:
    - [services/ingestion.py]  : text extraction, chunking, document ids,
      the ingestion pipeline and document deletion;
    - [services/retrieval.py]  : distance-to-score conversion and ranking;
    - [services/generation.py] : prompt construction and the event stream;
    - [api/documents.py], [api/chat.py] : the handlers that wrap them.

    Python values are modelled as follows.  A [str] is the list of its Unicode
    code points, a [bytes] object the list of its octets, both over [Z].
    Exceptions are a sum type, and a function that may raise returns a
    [result].  The Chroma collection and the upload directory form an explicit
    world that the pipeline threads through its steps. *)

From Stdlib Require Import List ZArith QArith Qround Lia Lqa Bool Ascii.
From Stdlib Require Import DecimalString DecimalNat Permutation Sorted.
From Stdlib Require String.
Import String.StringSyntax.
Delimit Scope string_scope with string.
Import ListNotations.
Local Open Scope Z_scope.

(* ================================================================== *)
(** * Python strings, bytes and exceptions *)
(* ================================================================== *)

Module Py.

Definition char := Z.
Definition str := list char.
Definition bytes := list Z.

(** Literals are written as Rocq strings and read as code points. *)
Definition ord (a : ascii) : char := Z.of_N (N_of_ascii a).

Fixpoint lit (s : String.string) : str :=
  match s with
  | String.EmptyString => []
  | String.String a s' => ord a :: lit s'
  end.
Arguments lit s%_string.

Definition NL : char := 10.
Definition SP : char := 32.

Definition len {A} (s : list A) : Z := Z.of_nat (length s).

(** [Py_UNICODE_ISSPACE]: the predicate behind [str.strip()], [str.isspace()]
    and the [\s] class of [re] on [str] patterns. *)
Definition isspace (c : char) : bool :=
  ((9 <=? c) && (c <=? 13)) || ((28 <=? c) && (c <=? 32))
  || (c =? 133) || (c =? 160) || (c =? 5760)
  || ((8192 <=? c) && (c <=? 8202))
  || (c =? 8232) || (c =? 8233) || (c =? 8239) || (c =? 8287) || (c =? 12288).

Fixpoint lstrip (s : str) : str :=
  match s with
  | [] => []
  | c :: s' => if isspace c then lstrip s' else s
  end.

Definition rstrip (s : str) : str := rev (lstrip (rev s)).

(** [s.strip()] *)
Definition strip (s : str) : str := rstrip (lstrip s).

(** [s[start:]] for an integer [start] of either sign. *)
Definition slice_from {A} (start : Z) (s : list A) : list A :=
  let n := len s in
  let i := if start <? 0 then Z.max 0 (n + start) else Z.min start n in
  skipn (Z.to_nat i) s.

(** [s[:stop]] for a non-negative [stop]. *)
Definition slice_to {A} (stop : nat) (s : list A) : list A := firstn stop s.

(** [sep.join(parts)] *)
Fixpoint join (sep : str) (parts : list str) : str :=
  match parts with
  | [] => []
  | [p] => p
  | p :: ps => p ++ sep ++ join sep ps
  end.

(** [str(n)] for a natural number. *)
Definition str_of_nat (n : nat) : str :=
  lit (NilEmpty.string_of_uint (Nat.to_uint n)).

(** ASCII lower-casing: what [str.lower()] does on the code points below
    128.  The result is compared with [.pdf] and [.txt] only, and the one
    code point above 127 whose lower case is ASCII is U+212A, whose lower
    case is [k]: the comparisons come out as with [str.lower()]. *)
Definition lower_char (c : char) : char :=
  if (65 <=? c) && (c <=? 90) then c + 32 else c.

Definition lower (s : str) : str := map lower_char s.

Definition str_eqb (a b : str) : bool :=
  if list_eq_dec Z.eq_dec a b then true else false.

(** [needle in haystack] *)
Fixpoint prefixb (p s : str) : bool :=
  match p, s with
  | [], _ => true
  | _ :: _, [] => false
  | a :: p', b :: s' => (a =? b) && prefixb p' s'
  end.


(** The exceptions the modelled code raises or lets through.  [ValueError]
    carries its message.  [UnicodeDecodeError] and [UnicodeEncodeError] are
    subclasses of [ValueError] in Python; [ValidationError] is pydantic's;
    [OSError] stands for its subclasses raised by file operations;
    [ProviderError] stands for whatever an external client raises. *)
Inductive exn :=
| ValueError (msg : str)
| UnicodeDecodeError (position : nat)
| UnicodeEncodeError (position : nat)
| IndexError
| ValidationError (field : str)
| OSError (path : str)
| ProviderError (msg : str).

(** [isinstance(e, ValueError)] *)
Definition is_ValueError (e : exn) : bool :=
  match e with
  | ValueError _ | UnicodeDecodeError _ | UnicodeEncodeError _ => true
  | _ => false
  end.

(** [str(e)] *)
Definition exn_str (e : exn) : str :=
  match e with
  | ValueError msg => msg
  | UnicodeDecodeError _ => lit "'utf-8' codec can't decode byte"
  | UnicodeEncodeError _ => lit "'utf-8' codec can't encode character"
  | IndexError => lit "list index out of range"
  | ValidationError field => lit "validation error for " ++ field
  | OSError path => lit "No such file or directory: " ++ path
  | ProviderError msg => msg
  end.

Inductive result (A : Type) :=
| Ok (a : A)
| Raise (e : exn).
Arguments Ok {A} a.
Arguments Raise {A} e.

Definition bind {A B} (r : result A) (k : A -> result B) : result B :=
  match r with
  | Ok a => k a
  | Raise e => Raise e
  end.

(** [l[i]] *)
Definition getitem {A} (l : list A) (i : nat) : result A :=
  match nth_error l i with
  | Some x => Ok x
  | None => Raise IndexError
  end.

End Py.
Import Py.

Notation "x <- c ;; k" := (Py.bind c (fun x => k))
  (at level 61, c at next level, right associativity).

(* ================================================================== *)
(** * Configuration ([core/config.py]) *)
(* ================================================================== *)

Record Settings := {
  chunk_size : Z;       (* target tokens per chunk *)
  chunk_overlap : Z;    (* overlap between chunks *)
  retrieval_top_k : Z
}.

Definition default_settings : Settings :=
  {| chunk_size := 500; chunk_overlap := 50; retrieval_top_k := 5 |}.

(* ================================================================== *)
(** * The chunker ([IngestionService.chunk_text]) *)
(* ================================================================== *)

Module Chunker.

(** [re.sub(r"\s+", " ", text)]: every maximal run of whitespace becomes one
    space.  [in_run] tells that the previous character was whitespace. *)
Fixpoint re_sub_ws (in_run : bool) (text : str) : str :=
  match text with
  | [] => []
  | c :: rest =>
      if isspace c
      then if in_run then re_sub_ws true rest else SP :: re_sub_ws true rest
      else c :: re_sub_ws false rest
  end.

(** The first statement of [chunk_text]. *)
Definition clean (text : str) : str := strip (re_sub_ws false text).

(** [re.split(r"\n\n+", text)]: split at every maximal run of two or more
    newlines.  [cur] is the piece being read, reversed; [in_sep] tells that
    the scan is inside a matched run. *)
Fixpoint split_paragraphs_aux (in_sep : bool) (cur : str) (text : str)
  : list str :=
  match text with
  | [] => [rev cur]
  | c :: rest =>
      if c =? NL then
        if in_sep then split_paragraphs_aux true cur rest
        else match rest with
             | c2 :: _ =>
                 if c2 =? NL
                 then rev cur :: split_paragraphs_aux true [] rest
                 else split_paragraphs_aux false (c :: cur) rest
             | [] => split_paragraphs_aux false (c :: cur) rest
             end
      else split_paragraphs_aux false (c :: cur) rest
  end.

Definition split_paragraphs (text : str) : list str :=
  split_paragraphs_aux false [] text.

(** The class [[.!?]]. *)
Definition is_sentence_end (c : char) : bool :=
  (c =? 46) || (c =? 33) || (c =? 63).

(** [re.split(r"(?<=[.!?])\s+", paragraph)]: split at every maximal run of
    whitespace that directly follows [.], [!] or [?].  [after_end] tells that
    the previous character was one of these, [in_sep] that the scan is inside
    a matched run. *)
Fixpoint split_sentences_aux (after_end in_sep : bool) (cur : str)
  (text : str) : list str :=
  match text with
  | [] => [rev cur]
  | c :: rest =>
      if isspace c then
        if in_sep then split_sentences_aux false true cur rest
        else if after_end
             then rev cur :: split_sentences_aux false true [] rest
             else split_sentences_aux false false (c :: cur) rest
      else split_sentences_aux (is_sentence_end c) false (c :: cur) rest
  end.

Definition split_sentences (paragraph : str) : list str :=
  split_sentences_aux false false [] paragraph.

(** The loop state: the chunks emitted so far and the buffer [current_chunk]. *)
Definition state := (list str * str)%type.

(** [current_chunk[-overlap_chars:] if overlap_chars else ""] *)
Definition reseed (overlap_chars : Z) (current_chunk : str) : str :=
  if overlap_chars =? 0 then [] else slice_from (- overlap_chars) current_chunk.

(** The guarded flush that precedes every append:
    [if len(current_chunk) + len(piece) > target_chars: if current_chunk: ...] *)
Definition flush_if_full (target_chars overlap_chars : Z) (st : state)
  (piece : str) : state :=
  let '(chunks, current_chunk) := st in
  if len current_chunk + len piece >? target_chars then
    match current_chunk with
    | [] => st
    | _ :: _ => (chunks ++ [strip current_chunk],
                 reseed overlap_chars current_chunk)
    end
  else st.

(** Flush if needed, then [current_chunk += sep + piece]. *)
Definition add_piece (target_chars overlap_chars : Z) (sep : str)
  (st : state) (piece : str) : state :=
  let '(chunks, current_chunk) :=
    flush_if_full target_chars overlap_chars st piece in
  (chunks, current_chunk ++ sep ++ piece).

(** The body of [for paragraph in paragraphs]. *)
Definition add_paragraph (target_chars overlap_chars : Z) (st : state)
  (paragraph : str) : state :=
  let paragraph := strip paragraph in
  match paragraph with
  | [] => st
  | _ :: _ =>
      if len paragraph >? target_chars then
        fold_left (add_piece target_chars overlap_chars [SP])
                  (split_sentences paragraph) st
      else add_piece target_chars overlap_chars [NL; NL] st paragraph
  end.

(** "Add remaining content". *)
Definition finish (st : state) : list str :=
  let '(chunks, current_chunk) := st in
  match strip current_chunk with
  | [] => chunks
  | _ :: _ => chunks ++ [strip current_chunk]
  end.

Definition chunk_text (settings : Settings) (text : str) : list str :=
  let text := clean text in
  match text with
  | [] => []
  | _ :: _ =>
      let paragraphs := split_paragraphs text in
      let target_chars := chunk_size settings * 4 in
      let overlap_chars := chunk_overlap settings * 4 in
      finish (fold_left (add_paragraph target_chars overlap_chars)
                        paragraphs ([], []))
  end.

(** ** The paragraph split as the design describes it

    Paragraphs taken from the text as given, each cleaned on its own.  Used
    only to compare with what [chunk_text] does. *)
Definition spec_paragraphs (text : str) : list str :=
  filter (fun p => negb (str_eqb p []))
         (map clean (split_paragraphs text)).

(** ** Vocabulary of the statements *)

(** The last character of [s] exists and is not whitespace. *)
Definition ends_nonws (s : str) : Prop :=
  exists s' c, s = s' ++ [c] /\ isspace c = false.

Definition all_space (s : str) : Prop :=
  Forall (fun c => isspace c = true) s.

(** Some character of [s] is not whitespace. *)
Definition has_nonws (s : str) : bool :=
  existsb (fun c => negb (isspace c)) s.

(** The trailing [n] characters of [s], all of [s] when it is shorter. *)
Definition last_chars (n : Z) (s : str) : str :=
  skipn (length s - Z.to_nat n) s.

(** A run of two or more newlines occurs in [s]. *)
Fixpoint has_paragraph_break (s : str) : bool :=
  match s with
  | a :: ((b :: _) as rest) =>
      ((a =? NL) && (b =? NL)) || has_paragraph_break rest
  | _ => false
  end.

End Chunker.
Import Chunker.

(* ================================================================== *)
(** * UTF-8 ([bytes.decode("utf-8")], [str.encode()]) *)
(* ================================================================== *)

Module Utf8.

Definition is_cont (b : Z) : bool := (128 <=? b) && (b <=? 191).

Definition between (lo b hi : Z) : bool := (lo <=? b) && (b <=? hi).

(** Strict decoding, as Python's default error handler does it: the
    well-formed byte sequences of the Unicode standard (no overlong forms, no
    surrogates, nothing above U+10FFFF); anything else raises
    [UnicodeDecodeError] at the offending position. *)
Fixpoint decode_from (pos : nat) (data : bytes) : result str :=
  match data with
  | [] => Ok []
  | b0 :: r0 =>
      if between 0 b0 127 then
        s <- decode_from (S pos) r0 ;; Ok (b0 :: s)
      else if between 194 b0 223 then
        match r0 with
        | b1 :: r1 =>
            if is_cont b1 then
              s <- decode_from (2 + pos) r1 ;;
              Ok ((b0 - 192) * 64 + (b1 - 128) :: s)
            else Raise (UnicodeDecodeError pos)
        | _ => Raise (UnicodeDecodeError pos)
        end
      else if between 224 b0 239 then
        match r0 with
        | b1 :: b2 :: r2 =>
            if (if b0 =? 224 then between 160 b1 191
                else if b0 =? 237 then between 128 b1 159
                else is_cont b1) && is_cont b2 then
              s <- decode_from (3 + pos) r2 ;;
              Ok ((b0 - 224) * 4096 + (b1 - 128) * 64 + (b2 - 128) :: s)
            else Raise (UnicodeDecodeError pos)
        | _ => Raise (UnicodeDecodeError pos)
        end
      else if between 240 b0 244 then
        match r0 with
        | b1 :: b2 :: b3 :: r3 =>
            if (if b0 =? 240 then between 144 b1 191
                else if b0 =? 244 then between 128 b1 143
                else is_cont b1) && is_cont b2 && is_cont b3 then
              s <- decode_from (4 + pos) r3 ;;
              Ok ((b0 - 240) * 262144 + (b1 - 128) * 4096
                  + (b2 - 128) * 64 + (b3 - 128) :: s)
            else Raise (UnicodeDecodeError pos)
        | _ => Raise (UnicodeDecodeError pos)
        end
      else Raise (UnicodeDecodeError pos)
  end.

Definition decode (data : bytes) : result str := decode_from 0 data.

(** Encoding raises [UnicodeEncodeError] on a lone surrogate (and on a value
    that is no code point at all). *)
Definition encode_char (c : char) : option bytes :=
  if between 0 c 127 then Some [c]
  else if between 128 c 2047 then Some [192 + c / 64; 128 + c mod 64]
  else if between 55296 c 57343 then None
  else if between 2048 c 65535 then
    Some [224 + c / 4096; 128 + (c / 64) mod 64; 128 + c mod 64]
  else if between 65536 c 1114111 then
    Some [240 + c / 262144; 128 + (c / 4096) mod 64;
          128 + (c / 64) mod 64; 128 + c mod 64]
  else None.

Fixpoint encode_from (pos : nat) (s : str) : result bytes :=
  match s with
  | [] => Ok []
  | c :: s' =>
      match encode_char c with
      | Some bs => rest <- encode_from (S pos) s' ;; Ok (bs ++ rest)
      | None => Raise (UnicodeEncodeError pos)
      end
  end.

Definition encode (s : str) : result bytes := encode_from 0 s.

End Utf8.

(* ================================================================== *)
(** * MD5 ([hashlib.md5(...).hexdigest()]) *)
(* ================================================================== *)

Module MD5.

Definition w32 (x : Z) : Z := x mod 4294967296.

Definition rotl (x c : Z) : Z :=
  w32 (Z.lor (Z.shiftl x c) (Z.shiftr x (32 - c))).

Definition lnot32 (x : Z) : Z := Z.lxor x 0xffffffff.

Definition K : list Z :=
  [0xd76aa478; 0xe8c7b756; 0x242070db; 0xc1bdceee;
   0xf57c0faf; 0x4787c62a; 0xa8304613; 0xfd469501;
   0x698098d8; 0x8b44f7af; 0xffff5bb1; 0x895cd7be;
   0x6b901122; 0xfd987193; 0xa679438e; 0x49b40821;
   0xf61e2562; 0xc040b340; 0x265e5a51; 0xe9b6c7aa;
   0xd62f105d; 0x02441453; 0xd8a1e681; 0xe7d3fbc8;
   0x21e1cde6; 0xc33707d6; 0xf4d50d87; 0x455a14ed;
   0xa9e3e905; 0xfcefa3f8; 0x676f02d9; 0x8d2a4c8a;
   0xfffa3942; 0x8771f681; 0x6d9d6122; 0xfde5380c;
   0xa4beea44; 0x4bdecfa9; 0xf6bb4b60; 0xbebfbc70;
   0x289b7ec6; 0xeaa127fa; 0xd4ef3085; 0x04881d05;
   0xd9d4d039; 0xe6db99e5; 0x1fa27cf8; 0xc4ac5665;
   0xf4292244; 0x432aff97; 0xab9423a7; 0xfc93a039;
   0x655b59c3; 0x8f0ccc92; 0xffeff47d; 0x85845dd1;
   0x6fa87e4f; 0xfe2ce6e0; 0xa3014314; 0x4e0811a1;
   0xf7537e82; 0xbd3af235; 0x2ad7d2bb; 0xeb86d391].

Definition shifts : list Z :=
  [7; 12; 17; 22; 7; 12; 17; 22; 7; 12; 17; 22; 7; 12; 17; 22;
   5;  9; 14; 20; 5;  9; 14; 20; 5;  9; 14; 20; 5;  9; 14; 20;
   4; 11; 16; 23; 4; 11; 16; 23; 4; 11; 16; 23; 4; 11; 16; 23;
   6; 10; 15; 21; 6; 10; 15; 21; 6; 10; 15; 21; 6; 10; 15; 21].

Definition digest_state := (Z * Z * Z * Z)%type.

Definition init : digest_state :=
  (0x67452301, 0xefcdab89, 0x98badcfe, 0x10325476).

(** One of the 64 operations of a block, on the sixteen words [M]. *)
Definition round (M : list Z) (st : digest_state) (i : nat) : digest_state :=
  let '(a, b, c, d) := st in
  let iz := Z.of_nat i in
  let '(f, g) :=
    if iz <? 16 then (Z.lor (Z.land b c) (Z.land (lnot32 b) d), iz)
    else if iz <? 32 then
      (Z.lor (Z.land d b) (Z.land (lnot32 d) c), (5 * iz + 1) mod 16)
    else if iz <? 48 then (Z.lxor b (Z.lxor c d), (3 * iz + 5) mod 16)
    else (Z.lxor c (Z.lor b (lnot32 d)), (7 * iz) mod 16) in
  let f := w32 (f + a + nth i K 0 + nth (Z.to_nat g) M 0) in
  (d, w32 (b + rotl f (nth i shifts 0)), b, c).

(** Little-endian words of a block. *)
Fixpoint words (block : bytes) : list Z :=
  match block with
  | b0 :: b1 :: b2 :: b3 :: rest =>
      (b0 + 256 * b1 + 65536 * b2 + 16777216 * b3) :: words rest
  | _ => []
  end.

Definition compress (st : digest_state) (block : bytes) : digest_state :=
  let '(a0, b0, c0, d0) := st in
  let '(a, b, c, d) := fold_left (round (words block)) (seq 0 64) st in
  (w32 (a0 + a), w32 (b0 + b), w32 (c0 + c), w32 (d0 + d)).

Fixpoint le_bytes (n : nat) (x : Z) : bytes :=
  match n with
  | O => []
  | S n' => x mod 256 :: le_bytes n' (x / 256)
  end.

(** The message, a [0x80] byte, zeros up to 56 modulo 64, and the bit length
    on eight bytes. *)
Definition pad (msg : bytes) : bytes :=
  let n := len msg in
  let zeros := Z.to_nat ((55 - n) mod 64) in
  msg ++ [128] ++ repeat 0 zeros ++ le_bytes 8 ((8 * n) mod 2 ^ 64).

Fixpoint blocks (n : nat) (st : digest_state) (data : bytes) : digest_state :=
  match n with
  | O => st
  | S n' => blocks n' (compress st (firstn 64 data)) (skipn 64 data)
  end.

Definition digest (msg : bytes) : bytes :=
  let padded := pad msg in
  let '(a, b, c, d) := blocks (length padded / 64) init padded in
  le_bytes 4 a ++ le_bytes 4 b ++ le_bytes 4 c ++ le_bytes 4 d.

Definition hex_digit (n : Z) : char :=
  if n <? 10 then 48 + n else 87 + n.

Fixpoint hex (data : bytes) : str :=
  match data with
  | [] => []
  | b :: rest => hex_digit (b / 16) :: hex_digit (b mod 16) :: hex rest
  end.

Definition hexdigest (msg : bytes) : str := hex (digest msg).

End MD5.

(* ================================================================== *)
(** * File names ([pathlib.Path]) *)
(* ================================================================== *)

Module Path.

(** [s.split(sep)] for a one-character separator; [cur] is the piece being
    read, reversed. *)
Fixpoint split_on_aux (sep : char) (cur : str) (s : str) : list str :=
  match s with
  | [] => [rev cur]
  | c :: rest =>
      if c =? sep then rev cur :: split_on_aux sep [] rest
      else split_on_aux sep (c :: cur) rest
  end.

Definition split_on (sep : char) (s : str) : list str :=
  split_on_aux sep [] s.

Definition DOT : char := 46.
Definition SLASH : char := 47.

(** [Path(p).name]: the last component, empty and [.] components dropped. *)
Definition name (p : str) : str :=
  last (filter (fun part => negb (str_eqb part [] || str_eqb part [DOT]))
               (split_on SLASH p)) [].

(** [s.rfind(".")], as an index from the left. *)
Fixpoint rfind_dot_aux (i : nat) (found : option nat) (s : str) : option nat :=
  match s with
  | [] => found
  | c :: rest =>
      rfind_dot_aux (S i) (if c =? DOT then Some i else found) rest
  end.

Definition rfind_dot (s : str) : option nat := rfind_dot_aux 0 None s.

(** The index at which the suffix starts: the last dot, unless it is the
    first or the last character of the name. *)
Definition suffix_index (nm : str) : option nat :=
  match rfind_dot nm with
  | Some i => if (0 <? i)%nat && (i <? length nm - 1)%nat then Some i else None
  | None => None
  end.

(** [Path(p).suffix] *)
Definition suffix (p : str) : str :=
  let nm := name p in
  match suffix_index nm with
  | Some i => skipn i nm
  | None => []
  end.

(** [Path(p).stem] *)
Definition stem (p : str) : str :=
  let nm := name p in
  match suffix_index nm with
  | Some i => firstn i nm
  | None => nm
  end.

End Path.

(* ================================================================== *)
(** * Schemas ([models/schemas.py]) *)
(* ================================================================== *)

Inductive MessageRole := USER | ASSISTANT.

Definition role_value (r : MessageRole) : str :=
  match r with
  | USER => lit "user"
  | ASSISTANT => lit "assistant"
  end.

Record ChatMessage := {
  role : MessageRole;
  content : str
}.

Record SourceChunk := {
  sc_document_id : str;
  sc_document_name : str;
  sc_chunk_index : Z;
  sc_content : str;
  score : Q
}.

Record DocumentInfo := {
  id : str;
  filename : str;
  file_type : str;
  chunk_count : Z;
  uploaded_at : Z;
  file_size : Z
}.

(* ================================================================== *)
(** * The world: the Chroma collection and the upload directory *)
(* ================================================================== *)

Definition vector := list Q.

(** The metadata dictionary stored with each chunk. *)
Record Metadata := {
  document_id : str;
  document_name : str;
  chunk_index : nat;
  total_chunks : nat
}.

Record Entry := {
  entry_id : str;
  entry_embedding : vector;
  entry_document : str;
  entry_metadata : Metadata
}.

(** The collection: its entries in insertion order. *)
Definition Collection := list Entry.

Module Chroma.

(** [collection.get(where={"document_id": doc_id})["ids"]] *)
Definition get_where (doc_id : str) (c : Collection) : list str :=
  map entry_id
      (filter (fun e => str_eqb (document_id (entry_metadata e)) doc_id) c).

(** [collection.delete(ids=ids)] *)
Definition delete (ids : list str) (c : Collection) : Collection :=
  filter (fun e => negb (existsb (str_eqb (entry_id e)) ids)) c.

(** [collection.count()] *)
Definition count (c : Collection) : Z := len c.

Definition has_id (c : Collection) (i : str) : bool :=
  existsb (fun e => str_eqb (entry_id e) i) c.

Fixpoint distinct (ids : list str) : bool :=
  match ids with
  | [] => true
  | i :: rest => negb (existsb (str_eqb i) rest) && distinct rest
  end.

Fixpoint zip_entries (ids : list str) (embeddings : list vector)
  (documents : list str) (metadatas : list Metadata) : list Entry :=
  match ids, embeddings, documents, metadatas with
  | i :: ids', v :: embeddings', d :: documents', m :: metadatas' =>
      {| entry_id := i; entry_embedding := v;
         entry_document := d; entry_metadata := m |}
      :: zip_entries ids' embeddings' documents' metadatas'
  | _, _, _, _ => []
  end.

(** [collection.add(ids, embeddings, documents, metadatas)]: the four lists
    must be non-empty and equally long and the ids distinct; an id the
    collection already holds is left as it is (the record is skipped).
    These are the failures of the library that depend on the arguments
    [ingest_document] builds.  The library has others, which depend on its
    own state and limits (a batch larger than the storage allows, an
    embedding of another dimension than the collection's); they are not
    modelled, so a result [Ok] of this function says what the collection
    holds when the call returns, not that the call returns. *)
Definition add (ids : list str) (embeddings : list vector)
  (documents : list str) (metadatas : list Metadata) (c : Collection)
  : result Collection :=
  let n := length ids in
  if (n =? 0)%nat
     || negb ((length embeddings =? n)%nat && (length documents =? n)%nat
              && (length metadatas =? n)%nat)
  then Raise (ValueError (lit "Unequal lengths"))
  else if negb (distinct ids)
  then Raise (ProviderError (lit "Expected IDs to be unique"))
  else Ok (c ++ filter (fun e => negb (has_id c (entry_id e)))
                       (zip_entries ids embeddings documents metadatas)).

End Chroma.

(** A file of the upload directory: the bytes of an uploaded document, or the
    serialised [DocumentInfo] of a [.json] record. *)
Inductive FileData :=
| RawFile (data : bytes)
| MetadataFile (info : DocumentInfo).

(** The upload directory: file names with their data, names unique. *)
Definition Directory := list (str * FileData).

Module Dir.

Definition exists_ (nm : str) (d : Directory) : bool :=
  existsb (fun f => str_eqb (fst f) nm) d.

Definition unlink (nm : str) (d : Directory) : Directory :=
  filter (fun f => negb (str_eqb (fst f) nm)) d.

(** [write_bytes] / [write_text] on [upload_dir / nm]: creates or replaces
    the file.  The directory has no subdirectories, so a name with a slash
    resolves through a component that is no directory and the write raises.
    The other failures of the file system (a name too long, a full disk, a
    directory without permission) are not modelled, so a result [Ok] says
    what the directory holds when the write returns, not that it returns. *)
Definition write (nm : str) (data : FileData) (d : Directory)
  : result Directory :=
  if existsb (Z.eqb Path.SLASH) nm then Raise (OSError nm)
  else Ok (unlink nm d ++ [(nm, data)]).

(** [upload_dir.glob(pattern)], for a matcher of one component. *)
Definition glob (fnmatch : str -> str -> bool) (pattern : str)
  (d : Directory) : list str :=
  map fst (filter (fun f => fnmatch pattern (fst f)) d).

End Dir.

Record World := {
  collection : Collection;
  uploads : Directory
}.

Definition empty_world : World := {| collection := []; uploads := [] |}.

(** What the services are constructed with and call out to: the settings, the
    embedding endpoint, the PDF reader (the text of each page) and the
    pattern matcher of [glob]. *)
Record Env := {
  settings : Settings;
  embeddings_create : list str -> result (list vector);
  pdf_page_texts : bytes -> result (list str);
  fnmatch : str -> str -> bool
}.

(* ================================================================== *)
(** * The ingestion service ([services/ingestion.py]) *)
(* ================================================================== *)

Module Ingestion.

(** The messages of the three [ValueError]s the service raises itself. *)
Definition unsupported_file_type (file_ext : str) : exn :=
  ValueError (lit "Unsupported file type: " ++ file_ext).
Definition empty_content : exn :=
  ValueError (lit "Document contains no extractable text").
Definition chunking_failed : exn :=
  ValueError (lit "Document could not be chunked").

Definition _extract_pdf (env : Env) (file : bytes) : result str :=
  pages <- pdf_page_texts env file ;;
  Ok (join [NL; NL]
           (filter (fun text => negb (str_eqb text [])) pages)).

Definition _extract_txt (file : bytes) : result str :=
  Utf8.decode file.

Definition extract_text (env : Env) (file : bytes) (filename : str)
  : result str :=
  let file_ext := lower (Path.suffix filename) in
  if str_eqb file_ext (lit ".pdf") then _extract_pdf env file
  else if str_eqb file_ext (lit ".txt") then _extract_txt file
  else Raise (unsupported_file_type file_ext).

Definition generate_embeddings (env : Env) (texts : list str)
  : result (list vector) :=
  match texts with
  | [] => Ok []
  | _ :: _ => embeddings_create env texts
  end.

(** [re.sub(r"[^a-zA-Z0-9]", "_", s)] *)
Definition is_alnum (c : char) : bool :=
  ((97 <=? c) && (c <=? 122)) || ((65 <=? c) && (c <=? 90))
  || ((48 <=? c) && (c <=? 57)).

Definition sanitize (s : str) : str :=
  map (fun c => if is_alnum c then c else 95) s.

Definition content_hash (content : str) : result str :=
  data <- Utf8.encode content ;;
  Ok (slice_to 8 (MD5.hexdigest data)).

Definition safe_filename (filename : str) : str :=
  slice_to 20 (sanitize (Path.stem filename)).

Definition generate_document_id (filename content : str) : result str :=
  h <- content_hash content ;;
  Ok (safe_filename filename ++ lit "_" ++ h).

Definition chunk_id (doc_id : str) (i : nat) : str :=
  doc_id ++ lit "_chunk_" ++ str_of_nat i.

(** The world after "Check if document already exists and delete old
    version". *)
Definition delete_existing (doc_id : str) (c : Collection) : Collection :=
  match Chroma.get_where doc_id c with
  | [] => c
  | (_ :: _) as existing => Chroma.delete existing c
  end.

Definition chunk_metadata (doc_id filename : str) (n i : nat) : Metadata :=
  {| document_id := doc_id; document_name := filename;
     chunk_index := i; total_chunks := n |}.

(** [str.lstrip(".")] *)
Fixpoint lstrip_dots (s : str) : str :=
  match s with
  | c :: s' => if c =? Path.DOT then lstrip_dots s' else s
  | [] => []
  end.

(** [ingest_document]: the world it leaves and what it returns or raises.
    [now] is the reading of the clock. *)
Definition ingest_document (env : Env) (w : World) (file : bytes)
  (filename : str) (file_size : Z) (now : Z) : World * result DocumentInfo :=
  match extract_text env file filename with
  | Raise e => (w, Raise e)
  | Ok text =>
  match strip text with
  | [] => (w, Raise empty_content)
  | _ :: _ =>
  match generate_document_id filename text with
  | Raise e => (w, Raise e)
  | Ok doc_id =>
  let w1 := {| collection := delete_existing doc_id (collection w);
               uploads := uploads w |} in
  match chunk_text (settings env) text with
  | [] => (w1, Raise chunking_failed)
  | (_ :: _) as chunks =>
  match generate_embeddings env chunks with
  | Raise e => (w1, Raise e)
  | Ok embeddings =>
  let n := length chunks in
  let ids := map (chunk_id doc_id) (seq 0 n) in
  let metadatas := map (chunk_metadata doc_id filename n) (seq 0 n) in
  match Chroma.add ids embeddings chunks metadatas (collection w1) with
  | Raise e => (w1, Raise e)
  | Ok stored =>
  let w2 := {| collection := stored; uploads := uploads w |} in
  match Dir.write (doc_id ++ lit "_" ++ filename) (RawFile file)
                  (uploads w) with
  | Raise e => (w2, Raise e)
  | Ok saved =>
  let file_ext := lstrip_dots (lower (Path.suffix filename)) in
  let doc_info :=
    {| id := doc_id; filename := filename; file_type := file_ext;
       chunk_count := len chunks; uploaded_at := now;
       file_size := file_size |} in
  match Dir.write (doc_id ++ lit ".json") (MetadataFile doc_info) saved with
  | Raise e => ({| collection := stored; uploads := saved |}, Raise e)
  | Ok listed => ({| collection := stored; uploads := listed |}, Ok doc_info)
  end end end end end end end end.

(** The number of chunk records of a document in the store. *)
Definition count_chunks (doc_id : str) (c : Collection) : nat :=
  length (Chroma.get_where doc_id c).

(** The two parts of a document id: what precedes the last nine characters,
    and the last eight. *)
Definition id_prefix (doc_id : str) : str :=
  firstn (length doc_id - 9) doc_id.

Definition id_suffix (doc_id : str) : str :=
  skipn (length doc_id - 8) doc_id.

(** Every entry carries the id that [ingest_document] gives it. *)
Definition disciplined (c : Collection) : Prop :=
  Forall (fun e => entry_id e =
                   chunk_id (document_id (entry_metadata e))
                            (chunk_index (entry_metadata e))) c.

(** The errors the design classifies for ingestion: unsupported file type,
    empty content, chunking failed. *)
Definition in_taxonomy (e : exn) : Prop :=
  (exists file_ext, e = unsupported_file_type file_ext) \/
  e = empty_content \/ e = chunking_failed.

(** A name of one path component. *)
Definition no_slash (s : str) : Prop := Forall (fun c => c <> Path.SLASH) s.

(** A string that [str.encode()] accepts: code points, none a surrogate. *)
Definition encodable (s : str) : Prop :=
  Forall (fun c => Utf8.encode_char c <> None) s.

(** [delete_document]: the loop over [glob] unlinks every match whose suffix
    is not [.json].  [doc_id] is one path component, as the route
    [/{doc_id}] delivers it. *)
Definition delete_document (env : Env) (w : World) (doc_id : str)
  : World * bool :=
  let c1 := delete_existing doc_id (collection w) in
  let metadata_file := doc_id ++ lit ".json" in
  let has_metadata := Dir.exists_ metadata_file (uploads w) in
  let d1 := if has_metadata then Dir.unlink metadata_file (uploads w)
            else uploads w in
  let doc_files :=
    filter (fun doc_file =>
              negb (str_eqb (Path.suffix doc_file) (lit ".json")))
           (Dir.glob (fnmatch env) (doc_id ++ lit "_*") d1) in
  let d2 := fold_left (fun d doc_file => Dir.unlink doc_file d) doc_files d1 in
  ({| collection := c1; uploads := d2 |},
   has_metadata || negb (length doc_files =? 0)%nat).

End Ingestion.

(** ** The upload handler ([api/documents.py]) *)

Module DocumentsApi.

Inductive response :=
| Http200 (document : DocumentInfo)
| Http400 (detail : str)
| Http500 (detail : str).

Definition MAX_FILE_SIZE : Z := 10 * 1024 * 1024.

(** ["." + filename.split(".")[-1].lower() if "." in filename else ""] *)
Definition upload_ext (filename : str) : str :=
  if existsb (Z.eqb Path.DOT) filename
  then Path.DOT :: lower (last (Path.split_on Path.DOT filename) [])
  else [].

Definition allowed (ext : str) : bool :=
  str_eqb ext (lit ".pdf") || str_eqb ext (lit ".txt").

Definition upload_document (env : Env) (w : World) (filename : str)
  (content : bytes) (now : Z) : World * response :=
  match filename with
  | [] => (w, Http400 (lit "Filename is required"))
  | _ :: _ =>
  if negb (allowed (upload_ext filename))
  then (w, Http400 (lit "File type not supported"))
  else
  let file_size := len content in
  if file_size >? MAX_FILE_SIZE then (w, Http400 (lit "File too large"))
  else if file_size =? 0 then (w, Http400 (lit "File is empty"))
  else
  match Ingestion.ingest_document env w content filename file_size now with
  | (w', Ok doc_info) => (w', Http200 doc_info)
  | (w', Raise e) =>
      if is_ValueError e then (w', Http400 (exn_str e))
      else (w', Http500 (lit "Failed to process document: " ++ exn_str e))
  end
  end.

End DocumentsApi.

(** ** A sample environment

    Used for the concrete runs below: an embedding endpoint that answers
    every text with the same vector, a PDF reader that finds no page, and a
    matcher for patterns made of literal characters, [*] and [?]. *)

Fixpoint fnmatch_simple (pattern nm : str) : bool :=
  match pattern with
  | [] => match nm with [] => true | _ :: _ => false end
  | c :: pattern' =>
      if c =? 42 then
        (fix star (rest : str) : bool :=
           fnmatch_simple pattern' rest ||
           match rest with
           | [] => false
           | _ :: rest' => star rest'
           end) nm
      else
        match nm with
        | [] => false
        | c' :: nm' =>
            ((c =? 63) || (c =? c')) && fnmatch_simple pattern' nm'
        end
  end.

Definition sample_env (s : Settings) : Env :=
  {| settings := s;
     embeddings_create := fun texts => Ok (map (fun _ => [1 # 2]) texts);
     pdf_page_texts := fun _ => Ok [];
     fnmatch := fnmatch_simple |}.

(** ** The worlds the pipeline can produce *)

Inductive reachable : World -> Prop :=
| reach_empty : reachable empty_world
| reach_ingest env w file filename file_size now :
    reachable w ->
    reachable (fst (Ingestion.ingest_document env w file filename
                                              file_size now))
| reach_delete env w doc_id :
    reachable w ->
    reachable (fst (Ingestion.delete_document env w doc_id)).

(* ================================================================== *)
(** * The retrieval service ([services/retrieval.py]) *)
(* ================================================================== *)

Module Retrieval.

Local Open Scope Q_scope.

(** A Python float is read as the rational it denotes; [fl] is the rounding
    of an exact result to the nearest float. *)
Definition rounding := Q -> Q.

(** [max(0, x)]: the second argument wins only when strictly greater. *)
Definition max0 (x : Q) : Q := if Qlt_le_dec 0 x then x else 0.

(** The integer nearest to [q], ties to the even one. *)
Definition round_half_even (q : Q) : Z :=
  let f := Qfloor q in
  let r := q - inject_Z f in
  match Qcompare r (1 # 2) with
  | Lt => f
  | Gt => (f + 1)%Z
  | Eq => if Z.even f then f else (f + 1)%Z
  end.

(** [round(x, 4)]: the decimal with four places nearest to [x], as a float. *)
Definition round4 (fl : rounding) (x : Q) : Q :=
  fl (round_half_even (x * 10000) # 10000).

(** [round(max(0, 1 - distance), 4)] *)
Definition score_of (fl : rounding) (distance : Q) : Q :=
  let similarity := max0 (fl (1 - distance)) in
  round4 fl similarity.

(** The constructor of [SourceChunk], which validates
    [score: float = Field(ge=0, le=1)]. *)
Definition new_SourceChunk (document_id document_name : str)
  (chunk_index : Z) (content : str) (score : Q) : result SourceChunk :=
  if Qle_bool 0 score && Qle_bool score 1 then
    Ok {| sc_document_id := document_id; sc_document_name := document_name;
          sc_chunk_index := chunk_index; sc_content := content;
          score := score |}
  else Raise (ValidationError (lit "score")).

(** What [collection.query] returns for the one query embedding: parallel
    lists, each wrapped in a list with one element per query. *)
Record QueryResult := {
  ids : list (list str);
  metadatas : list (list Metadata);
  documents : list (list str);
  distances : list (list Q)
}.

(** The loop [for i, chunk_id in enumerate(results["ids"][0])]. *)
Fixpoint convert_from (fl : rounding) (results : QueryResult) (i : nat)
  (chunk_ids : list str) : result (list SourceChunk) :=
  match chunk_ids with
  | [] => Ok []
  | _ :: rest =>
      ms <- getitem (metadatas results) 0 ;;
      metadata <- getitem ms i ;;
      ds <- getitem (documents results) 0 ;;
      document <- getitem ds i ;;
      xs <- getitem (distances results) 0 ;;
      distance <- getitem xs i ;;
      chunk <- new_SourceChunk (document_id metadata) (document_name metadata)
                               (Z.of_nat (chunk_index metadata)) document
                               (score_of fl distance) ;;
      chunks <- convert_from fl results (S i) rest ;;
      Ok (chunk :: chunks)
  end.

Definition convert (fl : rounding) (results : QueryResult)
  : result (list SourceChunk) :=
  match ids results with
  | [] => Ok []
  | chunk_ids :: _ => convert_from fl results 0 chunk_ids
  end.

(** [chunks.sort(key=lambda x: x.score, reverse=True)]: stable, so chunks
    with equal scores keep their order. *)
Fixpoint insert_desc (x : SourceChunk) (l : list SourceChunk)
  : list SourceChunk :=
  match l with
  | [] => [x]
  | y :: l' =>
      if Qle_bool (score y) (score x) then x :: l
      else y :: insert_desc x l'
  end.

Definition sort_desc (l : list SourceChunk) : list SourceChunk :=
  fold_right insert_desc [] l.

Definition embed_query (env : Env) (query : str) : result vector :=
  data <- embeddings_create env [query] ;;
  getitem data 0.

Definition search (fl : rounding) (env : Env)
  (collection_query : Collection -> vector -> Z -> QueryResult)
  (c : Collection) (query : str) (top_k : option Z)
  : result (list SourceChunk) :=
  let top_k := match top_k with
               | None => retrieval_top_k (settings env)
               | Some k => k
               end in
  if (Chroma.count c =? 0)%Z then Ok []
  else
    query_embedding <- embed_query env query ;;
    let results := collection_query c query_embedding top_k in
    chunks <- convert fl results ;;
    Ok (sort_desc chunks).

End Retrieval.

(* ================================================================== *)
(** * The generation service ([services/generation.py], [api/chat.py]) *)
(* ================================================================== *)

Module Generation.

(** A message dictionary [{"role": ..., "content": ...}]. *)
Record Message := {
  msg_role : str;
  msg_content : str
}.

Definition system_prompt : str :=
  lit "You are a helpful assistant that answers questions based on the provided document excerpts."
  ++ [NL; NL] ++ lit "Guidelines:"
  ++ [NL] ++ lit "- Answer questions using ONLY the information from the provided context"
  ++ [NL] ++ lit "- If the context doesn't contain enough information, say so clearly"
  ++ [NL] ++ lit "- Be concise but thorough"
  ++ [NL] ++ lit "- When relevant, mention which document(s) the information comes from"
  ++ [NL] ++ lit "- If asked about something not in the documents, politely explain you can only answer based on the uploaded documents".

Definition no_documents_note : str :=
  lit "Note: No documents have been uploaded yet. Please ask the user to upload documents first.".

(** [f"[Excerpt {i} from '{source.document_name}']:\n{source.content}"] *)
Definition excerpt (i : nat) (source : SourceChunk) : str :=
  lit "[Excerpt " ++ str_of_nat i ++ lit " from '"
  ++ sc_document_name source ++ lit "']:" ++ [NL] ++ sc_content source.

(** The list built over [enumerate(sources, i)]. *)
Fixpoint context_parts (i : nat) (sources : list SourceChunk) : list str :=
  match sources with
  | [] => []
  | source :: rest => excerpt i source :: context_parts (S i) rest
  end.

Definition rule : str := [NL; NL] ++ lit "---" ++ [NL; NL].

Definition system_content (sources : list SourceChunk) : str :=
  match sources with
  | [] => system_prompt ++ [NL; NL] ++ no_documents_note
  | _ :: _ =>
      system_prompt ++ [NL; NL] ++ lit "## Document Context:" ++ [NL; NL]
      ++ join rule (context_parts 1 sources)
  end.

Definition history_message (msg : ChatMessage) : Message :=
  {| msg_role := role_value (role msg); msg_content := content msg |}.

(** [history[-6:]] when [history] is neither [None] nor empty. *)
Definition kept_history (history : option (list ChatMessage))
  : list ChatMessage :=
  match history with
  | Some ((_ :: _) as h) => slice_from (-6) h
  | _ => []
  end.

Definition build_rag_prompt (question : str) (sources : list SourceChunk)
  (history : option (list ChatMessage)) : list Message :=
  [{| msg_role := lit "system"; msg_content := system_content sources |}]
  ++ map history_message (kept_history history)
  ++ [{| msg_role := lit "user"; msg_content := question |}].

(** ** Streaming *)

(** One item of the model's stream: [chunk.data.choices], each choice with
    its [delta.content] ([None] or a string). *)
Record CompletionChunk := {
  choices : list (option str)
}.

(** What iterating [mistral.chat.stream(...)] does: the items it yields and,
    when the call or the iteration fails, the exception that ends it. *)
Record ModelStream := {
  stream_chunks : list CompletionChunk;
  stream_failure : option exn
}.

Inductive Event :=
| sources_event (data : list SourceChunk)
| content_event (data : str)
| done_event
| error_event (data : str).

(** A finished run of a generator: what it yielded, and the exception it
    ended with, if any. *)
Record Run := {
  yielded : list Event;
  raised : option exn
}.

(** [chunk.data.choices and chunk.data.choices[0].delta.content] *)
Definition delta_of (chunk : CompletionChunk) : option str :=
  match choices chunk with
  | Some ((_ :: _) as text) :: _ => Some text
  | _ => None
  end.

Fixpoint content_events (chunks : list CompletionChunk) : list Event :=
  match chunks with
  | [] => []
  | chunk :: rest =>
      match delta_of chunk with
      | Some text => content_event text :: content_events rest
      | None => content_events rest
      end
  end.

Definition generate_stream (chat_stream : list Message -> ModelStream)
  (question : str) (sources : list SourceChunk)
  (history : option (list ChatMessage)) : Run :=
  let messages := build_rag_prompt question sources history in
  let stream := chat_stream messages in
  match stream_failure stream with
  | None =>
      {| yielded := sources_event sources
                    :: content_events (stream_chunks stream) ++ [done_event];
         raised := None |}
  | Some e =>
      {| yielded := sources_event sources
                    :: content_events (stream_chunks stream);
         raised := Some e |}
  end.

(** [event_generator] of [chat_stream]: every event of the service is
    forwarded as one frame; an exception becomes an [error] frame. *)
Definition event_generator (chat_stream : list Message -> ModelStream)
  (question : str) (sources : list SourceChunk)
  (history : option (list ChatMessage)) : list Event :=
  let run := generate_stream chat_stream question sources history in
  match raised run with
  | None => yielded run
  | Some e => yielded run ++ [error_event (exn_str e)]
  end.

(** ** The protocol of the stream, as an automaton over the events *)

Inductive Phase := Opening | Streaming | Closed | Broken.

Definition protocol_step (p : Phase) (e : Event) : Phase :=
  match p, e with
  | Opening, sources_event _ => Streaming
  | Streaming, content_event [] => Broken
  | Streaming, content_event (_ :: _) => Streaming
  | Streaming, done_event => Closed
  | Streaming, error_event _ => Closed
  | _, _ => Broken
  end.

Definition protocol_run (events : list Event) : Phase :=
  fold_left protocol_step events Opening.

Definition is_content (e : Event) : bool :=
  match e with
  | content_event (_ :: _) => true
  | _ => false
  end.

Definition is_sources (e : Event) : bool :=
  match e with
  | sources_event _ => true
  | _ => false
  end.

Definition is_terminal (e : Event) : bool :=
  match e with
  | done_event | error_event _ => true
  | _ => false
  end.

End Generation.

(* ================================================================== *)
(** * The document registry ([list_documents] and the handlers that use it) *)
(* ================================================================== *)

Module Registry.

(** [s.endswith(suffix)] *)
Definition ends_with (suffix s : str) : bool := prefixb (rev suffix) (rev s).

(** [json.loads(metadata_file.read_text())] followed by the construction
    of a [DocumentInfo] from the parsed fields: a record written by [ingest_document] reads back
    as it was written; on any other content the outcome is that of [parse]
    ([None] when either step raises). *)
Definition read_document_info (parse : bytes -> option DocumentInfo)
  (data : FileData) : option DocumentInfo :=
  match data with
  | MetadataFile info => Some info
  | RawFile content => parse content
  end.

(** The loop over the files of [upload_dir] whose name ends in [.json] (the
    glob of the source), in directory order: a file
    that does not read as a record is skipped. *)
Fixpoint read_all (parse : bytes -> option DocumentInfo) (d : Directory)
  : list DocumentInfo :=
  match d with
  | [] => []
  | (nm, data) :: rest =>
      if ends_with (lit ".json") nm then
        match read_document_info parse data with
        | Some info => info :: read_all parse rest
        | None => read_all parse rest
        end
      else read_all parse rest
  end.

(** [documents.sort(key=lambda d: d.uploaded_at, reverse=True)]: stable. *)
Fixpoint insert_newest (x : DocumentInfo) (l : list DocumentInfo)
  : list DocumentInfo :=
  match l with
  | [] => [x]
  | y :: l' =>
      if uploaded_at y <=? uploaded_at x then x :: l
      else y :: insert_newest x l'
  end.

Definition sort_newest (l : list DocumentInfo) : list DocumentInfo :=
  fold_right insert_newest [] l.

Definition list_documents (parse : bytes -> option DocumentInfo) (w : World)
  : list DocumentInfo :=
  sort_newest (read_all parse (uploads w)).

(** The records the directory holds, in directory order. *)
Definition records (d : Directory) : list DocumentInfo :=
  flat_map (fun f => match snd f with
                     | MetadataFile info => [info]
                     | RawFile _ => []
                     end) d.

(** What the upload directory of a world the pipeline has produced looks
    like: names are unique; a record is stored under its id followed by
    [.json], a name whose suffix is [.json]; no other file has a name ending
    in [.json]. *)
Definition well_named (f : str * FileData) : Prop :=
  match snd f with
  | MetadataFile info =>
      fst f = id info ++ lit ".json" /\ Path.suffix (fst f) = lit ".json"
  | RawFile _ => ends_with (lit ".json") (fst f) = false
  end.

Definition kept_in_order (d : Directory) : Prop :=
  NoDup (map fst d) /\ Forall well_named d.

(** Newest first: the upload times do not increase along the list. *)
Definition newest_first (l : list DocumentInfo) : Prop :=
  StronglySorted (fun a b => uploaded_at b <= uploaded_at a) l.

End Registry.

(** ** The other handlers of [api/documents.py] *)

Module DocumentsHandlers.

Inductive reply (A : Type) :=
| Found (body : A)
| NotFound (detail : str).
Arguments Found {A} body.
Arguments NotFound {A} detail.

(** The listing route: the documents and their number. *)
Definition list_documents (parse : bytes -> option DocumentInfo) (w : World)
  : list DocumentInfo * Z :=
  let documents := Registry.list_documents parse w in
  (documents, len documents).

(** The route of one document: the first listed document with this id, or 404. *)
Definition get_document (parse : bytes -> option DocumentInfo) (w : World)
  (doc_id : str) : reply DocumentInfo :=
  match find (fun doc => str_eqb (id doc) doc_id)
             (Registry.list_documents parse w) with
  | Some doc => Found doc
  | None => NotFound (lit "Document '" ++ doc_id ++ lit "' not found")
  end.

(** The deletion route. *)
Definition delete_document (env : Env) (w : World) (doc_id : str)
  : World * reply str :=
  let (w', deleted) := Ingestion.delete_document env w doc_id in
  if deleted
  then (w', Found (lit "Document '" ++ doc_id ++ lit "' deleted successfully"))
  else (w', NotFound (lit "Document '" ++ doc_id ++ lit "' not found")).

End DocumentsHandlers.

(* ================================================================== *)
(** * Filtered search ([RetrievalService.search_with_filter]) *)
(* ================================================================== *)

Module FilteredRetrieval.

Import Retrieval.

(** [collection_query_where c v k ids] stands for [collection.query] with
    a [where] filter asking for a [document_id] among [ids]. *)
Definition search_with_filter (fl : rounding) (env : Env)
  (collection_query : Collection -> vector -> Z -> QueryResult)
  (collection_query_where :
     Collection -> vector -> Z -> list str -> QueryResult)
  (c : Collection) (query : str) (document_ids : list str)
  (top_k : option Z) : result (list SourceChunk) :=
  let top_k := match top_k with
               | None => retrieval_top_k (settings env)
               | Some k => k
               end in
  match document_ids with
  | [] => search fl env collection_query c query (Some top_k)
  | _ :: _ =>
      if (Chroma.count c =? 0)%Z then Ok []
      else
        query_embedding <- embed_query env query ;;
        let results :=
          collection_query_where c query_embedding top_k document_ids in
        chunks <- convert fl results ;;
        Ok (sort_desc chunks)
  end.

(** The chunk built from what the store returned at position [k]. *)
Definition built_from (fl : rounding) (results : QueryResult) (k : nat)
  (ch : SourceChunk) : Prop :=
  exists ms md docs doc ds dist,
    nth_error (metadatas results) 0 = Some ms /\ nth_error ms k = Some md /\
    nth_error (documents results) 0 = Some docs /\
    nth_error docs k = Some doc /\
    nth_error (distances results) 0 = Some ds /\ nth_error ds k = Some dist /\
    sc_document_id ch = document_id md /\
    sc_document_name ch = document_name md /\
    sc_chunk_index ch = Z.of_nat (chunk_index md) /\
    sc_content ch = doc /\
    score ch = score_of fl dist.

(** The store answers a filtered query with records of the documents asked
    for only. *)
Definition respects_filter
  (collection_query_where :
     Collection -> vector -> Z -> list str -> QueryResult) : Prop :=
  forall c v k document_ids ms,
    nth_error (metadatas (collection_query_where c v k document_ids)) 0
      = Some ms ->
    Forall (fun md => In (document_id md) document_ids) ms.

(** The scores do not increase along the list. *)
Definition by_score_desc (l : list SourceChunk) : Prop :=
  StronglySorted (fun a b => (score b <= score a)%Q) l.

End FilteredRetrieval.

(* ================================================================== *)
(** * The chat handlers ([api/chat.py]) and [GenerationService.generate] *)
(* ================================================================== *)

Module ChatApi.

Import Retrieval Generation.

(** [ChatRequest]: [message] has between 1 and 10000 characters.  The other
    field, [history], is a list of [ChatMessage]; in the handlers below it
    is given already parsed, so a body whose history does not parse (a role
    other than [user] and [assistant], say), which the framework also
    answers with 422, is no input of theirs. *)
Definition valid_message (message : str) : bool :=
  (1 <=? len message) && (len message <=? 10000).

Record ChatResponse := {
  answer : str;
  sources : list SourceChunk
}.

(** [generate]: [chat_complete] stands for [mistral.chat.complete] and gives
    the [message.content] of each choice. *)
Definition generate (chat_complete : list Message -> result (list (option str)))
  (question : str) (sources : list SourceChunk)
  (history : option (list ChatMessage)) : result ChatResponse :=
  let messages := build_rag_prompt question sources history in
  choices <- chat_complete messages ;;
  first <- getitem choices 0 ;;
  match first with
  | Some text => Ok {| answer := text; sources := sources |}
  | None => Raise (ValidationError (lit "answer"))
  end.

Inductive reply (A : Type) :=
| Http200 (body : A)
| Http422
| Http500 (detail : str).
Arguments Http200 {A} body.
Arguments Http422 {A}.
Arguments Http500 {A} detail.

(** The chat route, for a request whose history has parsed: 422 stands for
    the framework's answer to a message out of bounds; an exception of
    either service leaves the handler, and the framework answers it with its
    own 500. *)
Definition internal_server_error : str := lit "Internal Server Error".

Definition chat (fl : rounding) (env : Env)
  (collection_query : Collection -> vector -> Z -> QueryResult)
  (chat_complete : list Message -> result (list (option str)))
  (c : Collection) (message : str) (history : list ChatMessage)
  : reply ChatResponse :=
  if negb (valid_message message) then Http422
  else
    match search fl env collection_query c message None with
    | Raise _ => Http500 internal_server_error
    | Ok sources =>
        match generate chat_complete message sources (Some history) with
        | Raise _ => Http500 internal_server_error
        | Ok response => Http200 response
        end
    end.

(** The streaming route: the body of a 200 answer is the list of events
    [event_generator] sends. *)
Definition chat_stream (fl : rounding) (env : Env)
  (collection_query : Collection -> vector -> Z -> QueryResult)
  (model_stream : list Message -> ModelStream)
  (c : Collection) (message : str) (history : list ChatMessage)
  : reply (list Event) :=
  if negb (valid_message message) then Http422
  else
    match search fl env collection_query c message None with
    | Raise e =>
        Http500 (lit "Failed to retrieve context: " ++ exn_str e)
    | Ok sources =>
        Http200 (event_generator model_stream message sources (Some history))
    end.

End ChatApi.


(* ================================================================== *)
(** * The records of a document in the store *)
(* ================================================================== *)

Module Store.

(** The records of one document, in the order of the store. *)
Definition entries_of (doc_id : str) (c : Collection) : Collection :=
  filter (fun e => str_eqb (document_id (entry_metadata e)) doc_id) c.

(** The records of a document are those of one ingestion, all of them: with
    [n] records, their indices are 0 to [n - 1] in this order, their ids are
    the [chunk_id]s of the document at these indices, each says the document
    has [n] chunks, and all carry one file name. *)
Definition stored_whole (doc_id : str) (c : Collection) : Prop :=
  let stored := entries_of doc_id c in
  let n := length stored in
  map (fun e => chunk_index (entry_metadata e)) stored = seq 0 n /\
  map entry_id stored = map (Ingestion.chunk_id doc_id) (seq 0 n) /\
  Forall (fun e => total_chunks (entry_metadata e) = n) stored /\
  exists filename,
    Forall (fun e => document_name (entry_metadata e) = filename) stored.

End Store.

(* ================================================================== *)
(** * The shape of the chunks *)
(* ================================================================== *)

Module ChunkShape.

(** Outside its separators a cleaned text has only single spaces: a
    whitespace character is a space and is followed by a character that is
    not whitespace. *)
Fixpoint single_spaced (s : str) : Prop :=
  match s with
  | [] => True
  | c :: rest =>
      (isspace c = true ->
       c = SP /\ match rest with
                 | [] => True
                 | d :: _ => isspace d = false
                 end) /\
      single_spaced rest
  end.

Definition starts_nonws (s : str) : Prop :=
  match s with
  | [] => True
  | c :: _ => isspace c = false
  end.

(** A piece is tight when it is not empty and neither starts nor ends with
    whitespace. *)
Definition tight (p : str) : Prop := starts_nonws p /\ ends_nonws p.

(** What the loop keeps true of its state: the chunks emitted are tight and
    single spaced, and the buffer is empty or ends with a character that is
    not whitespace. *)
Definition well_formed_chunk (c : str) : Prop := tight c /\ single_spaced c.

Definition loop_invariant (st : state) : Prop :=
  Forall well_formed_chunk (fst st) /\
  single_spaced (snd st) /\
  (snd st = [] \/ ends_nonws (snd st)).

(** [p] occurs in [s] as a whole. *)
Definition occurs_in (p s : str) : Prop := exists a b, s = a ++ p ++ b.

(** The sentences seen so far are each in an emitted chunk or in the
    buffer. *)
Definition covered (seen : list str) (st : state) : Prop :=
  forall q, In q seen ->
    (exists c, In c (fst st) /\ occurs_in q c) \/ occurs_in q (snd st).



End ChunkShape.
Import Ingestion Retrieval Generation.

(* ================================================================== *)
(** * Whitespace and trimming *)
(* ================================================================== *)

Section Trimming.

Lemma isspace_SP : isspace SP = true.
Proof. reflexivity. Qed.

Lemma isspace_NL : isspace NL = true.
Proof. reflexivity. Qed.

Lemma sentence_end_not_space c : is_sentence_end c = true -> isspace c = false.
Proof.
  unfold is_sentence_end. rewrite !orb_true_iff, !Z.eqb_eq.
  intros [[-> | ->] | ->]; reflexivity.
Qed.

Lemma lstrip_split s : exists lead, s = lead ++ lstrip s /\ all_space lead.
Proof.
  induction s as [|c s IH]; simpl.
  - exists []. split; [reflexivity | constructor].
  - destruct (isspace c) eqn:E.
    + destruct IH as (lead & Hs & Hl). exists (c :: lead). split.
      * simpl. now rewrite <- Hs.
      * now constructor.
    + exists []. split; [reflexivity | constructor].
Qed.

Lemma lstrip_head s :
  lstrip s = [] \/ exists c r, lstrip s = c :: r /\ isspace c = false.
Proof.
  induction s as [|c s IH]; simpl; [now left|].
  destruct (isspace c) eqn:E; [exact IH | right; eauto].
Qed.

Lemma lstrip_fix c r : isspace c = false -> lstrip (c :: r) = c :: r.
Proof. intros E. simpl. now rewrite E. Qed.

Lemma lstrip_app_nonws a c :
  isspace c = false -> lstrip (a ++ [c]) = lstrip a ++ [c].
Proof.
  intros E. induction a as [|x a IH]; simpl.
  - now rewrite E.
  - destruct (isspace x); [exact IH | reflexivity].
Qed.

Lemma lstrip_length s : (length (lstrip s) <= length s)%nat.
Proof.
  induction s as [|c s IH]; simpl; [lia|].
  destruct (isspace c); simpl; lia.
Qed.

Lemma rstrip_length s : (length (rstrip s) <= length s)%nat.
Proof.
  unfold rstrip. rewrite length_rev.
  rewrite <- (length_rev s). apply lstrip_length.
Qed.

Lemma strip_length s : (length (strip s) <= length s)%nat.
Proof.
  unfold strip. etransitivity; [apply rstrip_length | apply lstrip_length].
Qed.

Lemma ends_nonws_app a b : ends_nonws b -> ends_nonws (a ++ b).
Proof.
  intros (s' & c & -> & E). exists (a ++ s'), c.
  now rewrite app_assoc.
Qed.

Lemma ends_nonws_nonempty s : ends_nonws s -> s <> [].
Proof. intros (s' & c & -> & _). now destruct s'. Qed.

Lemma ends_nonws_after_space a c rest :
  ends_nonws (a ++ c :: rest) -> isspace c = true -> ends_nonws rest.
Proof.
  intros (s' & d & Hs & Ed) Ec.
  destruct rest as [|x r].
  - apply app_inj_tail in Hs as [_ ->]. congruence.
  - destruct (@exists_last _ (x :: r)) as (r' & e & Hr); [discriminate|].
    rewrite Hr in *. exists r', e. split; [reflexivity|].
    replace (a ++ c :: r' ++ [e]) with ((a ++ c :: r') ++ [e]) in Hs
      by (rewrite <- app_assoc; reflexivity).
    apply app_inj_tail in Hs as [_ ->]. exact Ed.
Qed.

Lemma rstrip_fix s : ends_nonws s -> rstrip s = s.
Proof.
  intros (s' & c & -> & E). unfold rstrip.
  rewrite rev_app_distr. simpl. rewrite E. simpl.
  now rewrite rev_involutive.
Qed.

Lemma rstrip_cons c r : isspace c = false -> rstrip (c :: r) = c :: rstrip r.
Proof.
  intros E. unfold rstrip. simpl.
  rewrite lstrip_app_nonws by exact E.
  now rewrite rev_app_distr.
Qed.

Lemma rstrip_tail s : rstrip s = [] \/ ends_nonws (rstrip s).
Proof.
  unfold rstrip. destruct (lstrip_head (rev s)) as [-> | (c & r & -> & E)].
  - now left.
  - right. exists (rev r), c. split; [reflexivity | exact E].
Qed.

Lemma lstrip_ends s : ends_nonws s -> ends_nonws (lstrip s).
Proof.
  induction s as [|a s IH]; intros H; simpl; [exact H|].
  destruct (isspace a) eqn:E; [|exact H].
  apply IH. apply (ends_nonws_after_space [] a s); assumption.
Qed.

(** The shape of a trimmed string: empty, or it starts and ends with a
    character that is not whitespace. *)
Lemma strip_shape s :
  strip s = [] \/
  (exists c r, strip s = c :: r /\ isspace c = false) /\ ends_nonws (strip s).
Proof.
  unfold strip. destruct (lstrip_head s) as [-> | (c & r & -> & E)].
  - now left.
  - right. split.
    + rewrite rstrip_cons by exact E. eauto.
    + destruct (rstrip_tail (c :: r)) as [H | H]; [|exact H].
      rewrite rstrip_cons in H by exact E. discriminate.
Qed.

Lemma strip_idempotent s : strip (strip s) = strip s.
Proof.
  destruct (strip_shape s) as [-> | [(c & r & Hs & E) Hend]]; [reflexivity|].
  unfold strip at 1. rewrite Hs, lstrip_fix by exact E.
  rewrite <- Hs. now apply rstrip_fix.
Qed.

Lemma strip_of_ends s : ends_nonws s -> strip s = lstrip s.
Proof. intros H. unfold strip. apply rstrip_fix, lstrip_ends, H. Qed.

(** What trimming removes from a buffer that does not end in whitespace is a
    run of leading whitespace. *)
Lemma strip_split s :
  ends_nonws s -> exists lead, s = lead ++ strip s /\ all_space lead.
Proof.
  intros H. rewrite (strip_of_ends s H). apply lstrip_split.
Qed.

Lemma lstrip_blank s : has_nonws s = false -> lstrip s = [].
Proof.
  unfold has_nonws. induction s as [|c s IH]; simpl; [reflexivity|].
  rewrite orb_false_iff, negb_false_iff. intros [-> H]. auto.
Qed.

Lemma strip_nonblank s : has_nonws s = true -> strip s <> [].
Proof.
  unfold has_nonws, strip. induction s as [|c s IH]; simpl; [discriminate|].
  destruct (isspace c) eqn:E; simpl.
  - exact IH.
  - intros _. rewrite rstrip_cons by exact E. discriminate.
Qed.

Lemma strip_nonblank_iff s : strip s <> [] <-> has_nonws s = true.
Proof.
  split; [|apply strip_nonblank].
  destruct (has_nonws s) eqn:E; [reflexivity|].
  intros H. exfalso. apply H. unfold strip.
  now rewrite lstrip_blank.
Qed.

Lemma ends_nonws_has_nonws s : ends_nonws s -> has_nonws s = true.
Proof.
  intros (s' & c & -> & E). unfold has_nonws.
  rewrite existsb_app. simpl. rewrite E. apply orb_true_r.
Qed.

Lemma lstrip_Forall (P : char -> Prop) s : Forall P s -> Forall P (lstrip s).
Proof.
  induction 1 as [|c s Hc Hs IH]; simpl; [constructor|].
  destruct (isspace c); [exact IH | now constructor].
Qed.

Lemma strip_Forall (P : char -> Prop) s : Forall P s -> Forall P (strip s).
Proof.
  intros H. unfold strip, rstrip.
  apply Forall_rev, lstrip_Forall, Forall_rev, lstrip_Forall, H.
Qed.

End Trimming.

(* ================================================================== *)
(** * The cleaning step and the two splits *)
(* ================================================================== *)

Section Cleaning.

Lemma re_sub_ws_length b s : (length (re_sub_ws b s) <= length s)%nat.
Proof.
  revert b. induction s as [|c s IH]; intros b; simpl; [lia|].
  pose proof (IH true). pose proof (IH false).
  destruct (isspace c); [destruct b|]; simpl; lia.
Qed.

Lemma clean_length text : (length (clean text) <= length text)%nat.
Proof.
  unfold clean. etransitivity; [apply strip_length | apply re_sub_ws_length].
Qed.

Lemma re_sub_ws_has_nonws b s : has_nonws (re_sub_ws b s) = has_nonws s.
Proof.
  unfold has_nonws. revert b.
  induction s as [|c s IH]; intros b; simpl; [reflexivity|].
  destruct (isspace c) eqn:E; [destruct b|]; simpl;
    rewrite ?E, ?isspace_SP, ?IH; reflexivity.
Qed.

Lemma clean_nonblank text : strip text <> [] -> clean text <> [].
Proof.
  rewrite strip_nonblank_iff. intros H. apply strip_nonblank.
  now rewrite re_sub_ws_has_nonws.
Qed.

Lemma clean_blank text : strip text = [] -> clean text = [].
Proof.
  intros H. destruct (has_nonws text) eqn:E.
  - now apply strip_nonblank in E.
  - unfold clean, strip. rewrite lstrip_blank; [reflexivity|].
    now rewrite re_sub_ws_has_nonws.
Qed.

(** After cleaning no newline is left. *)
Lemma re_sub_ws_no_newline b s : Forall (fun c => c <> NL) (re_sub_ws b s).
Proof.
  revert b. induction s as [|c s IH]; intros b; simpl; [constructor|].
  destruct (isspace c) eqn:E; [destruct b|]; try apply IH.
  - constructor; [discriminate | apply IH].
  - constructor; [|apply IH]. intros ->. discriminate.
Qed.

Lemma clean_no_newline text : Forall (fun c => c <> NL) (clean text).
Proof. apply strip_Forall, re_sub_ws_no_newline. Qed.

(** A string that is left unchanged by the substitution has no paragraph
    break. *)
Lemma split_paragraphs_aux_no_newline s : forall b cur,
  Forall (fun c => c <> NL) s ->
  split_paragraphs_aux b cur s = [rev cur ++ s].
Proof.
  induction s as [|c s IH]; intros b cur H; simpl.
  - now rewrite app_nil_r.
  - inversion_clear H as [|? ? Hc Hs].
    apply Z.eqb_neq in Hc. rewrite Hc, IH by exact Hs.
    simpl. now rewrite <- app_assoc.
Qed.

Lemma split_paragraphs_clean text :
  split_paragraphs (clean text) = [clean text].
Proof.
  unfold split_paragraphs.
  now rewrite split_paragraphs_aux_no_newline by apply clean_no_newline.
Qed.

Lemma strip_clean text : strip (clean text) = clean text.
Proof. apply strip_idempotent. Qed.

Lemma clean_ends text : clean text <> [] -> ends_nonws (clean text).
Proof.
  intros H. unfold clean in *.
  destruct (strip_shape (re_sub_ws false text)) as [E | [_ E]];
    [contradiction | exact E].
Qed.

(** Every sentence of a paragraph that does not end in whitespace is
    non-empty and does not end in whitespace either. *)
Lemma split_sentences_aux_ends text : forall after_end in_sep cur,
  ends_nonws (rev cur ++ text) ->
  (after_end = true -> ends_nonws (rev cur)) ->
  Forall ends_nonws (split_sentences_aux after_end in_sep cur text).
Proof.
  induction text as [|c rest IH]; intros after_end in_sep cur H Hend; simpl.
  - rewrite app_nil_r in H. now constructor.
  - destruct (isspace c) eqn:E.
    + destruct in_sep.
      * apply IH; [|discriminate].
        apply ends_nonws_app. eapply ends_nonws_after_space; eauto.
      * destruct after_end.
        -- constructor; [now apply Hend|].
           apply IH; [|discriminate]. simpl.
           eapply ends_nonws_after_space; eauto.
        -- apply IH; [|discriminate].
           simpl. now rewrite <- app_assoc.
    + apply IH.
      * simpl. now rewrite <- app_assoc.
      * intros _. simpl. exists (rev cur), c. now split.
Qed.

Lemma split_sentences_ends paragraph :
  ends_nonws paragraph -> Forall ends_nonws (split_sentences paragraph).
Proof.
  intros H. apply split_sentences_aux_ends; [exact H | discriminate].
Qed.

Lemma split_sentences_aux_nonempty text : forall a b cur,
  split_sentences_aux a b cur text <> [].
Proof.
  induction text as [|c rest IH]; intros a b cur; simpl; [discriminate|].
  destruct (isspace c); [destruct b; [|destruct a]|];
    try apply IH; discriminate.
Qed.

End Cleaning.

(* ================================================================== *)
(** * The chunker *)
(* ================================================================== *)

Section ChunkerLoop.

Variables target_chars overlap_chars : Z.

Let add := add_piece target_chars overlap_chars.

Lemma add_piece_snd sep st p :
  ends_nonws p -> ends_nonws (snd (add sep st p)).
Proof.
  intros H. unfold add, add_piece.
  destruct (flush_if_full target_chars overlap_chars st p) as [chunks cur].
  simpl. now apply ends_nonws_app, ends_nonws_app.
Qed.

Lemma add_piece_empty_buffer sep chunks p :
  add sep (chunks, []) p = (chunks, sep ++ p).
Proof.
  unfold add, add_piece, flush_if_full.
  destruct (len (@nil char) + len p >? target_chars); reflexivity.
Qed.

Lemma fold_add_snd sep pieces : forall st,
  Forall ends_nonws pieces -> ends_nonws (snd st) ->
  ends_nonws (snd (fold_left (add sep) pieces st)).
Proof.
  induction pieces as [|p ps IH]; intros st Hp Hst; simpl; [exact Hst|].
  inversion_clear Hp. apply IH; [assumption|]. now apply add_piece_snd.
Qed.

Lemma finish_fst st :
  exists rest, finish st = fst st ++ rest.
Proof.
  destruct st as [chunks cur]. unfold finish. simpl.
  destruct (strip cur); [exists []; now rewrite app_nil_r | eauto].
Qed.

Lemma finish_nonempty st : ends_nonws (snd st) -> finish st <> [].
Proof.
  destruct st as [chunks cur]. simpl. intros H. unfold finish.
  pose proof (strip_nonblank cur (ends_nonws_has_nonws cur H)) as Hs.
  destruct (strip cur); [contradiction|]. now destruct chunks.
Qed.

(** The one paragraph the loop sees, once cleaned. *)
Lemma add_paragraph_clean st text :
  clean text <> [] ->
  add_paragraph target_chars overlap_chars st (clean text) =
  if len (clean text) >? target_chars
  then fold_left (add [SP]) (split_sentences (clean text)) st
  else add [NL; NL] st (clean text).
Proof.
  intros H. unfold add_paragraph. cbv zeta. rewrite strip_clean.
  destruct (clean text); [contradiction | reflexivity].
Qed.

End ChunkerLoop.

Section ChunkerProperties.

Variable settings : Settings.

Let target_chars := chunk_size settings * 4.
Let overlap_chars := chunk_overlap settings * 4.

(** [chunk_text] iterates over exactly one paragraph: the cleaned text. *)
Lemma chunk_text_one_paragraph text :
  chunk_text settings text =
  match clean text with
  | [] => []
  | _ :: _ =>
      finish (add_paragraph target_chars overlap_chars ([], []) (clean text))
  end.
Proof.
  unfold chunk_text. cbv zeta. rewrite split_paragraphs_clean.
  destruct (clean text); reflexivity.
Qed.

Lemma strip_after_blank_line s : strip (NL :: NL :: s) = strip s.
Proof. reflexivity. Qed.

(** A text shorter than the budget comes back as one chunk, cleaned. *)
Lemma chunk_text_short_clean text :
  strip text <> [] -> len text < target_chars ->
  chunk_text settings text = [clean text].
Proof.
  intros Hne Hlen. pose proof (clean_nonblank text Hne) as Hc.
  rewrite chunk_text_one_paragraph.
  rewrite add_paragraph_clean by exact Hc.
  pose proof (clean_length text) as Hl.
  assert ((len (clean text) >? target_chars) = false) as ->
    by (unfold len in *; lia).
  rewrite add_piece_empty_buffer.
  unfold finish. simpl app. rewrite strip_after_blank_line, strip_clean.
  destruct (clean text); [contradiction | reflexivity].
Qed.

Lemma chunk_text_nonempty text :
  strip text <> [] -> chunk_text settings text <> [].
Proof.
  intros Hne. pose proof (clean_nonblank text Hne) as Hc.
  rewrite chunk_text_one_paragraph.
  destruct (clean text) as [|c t] eqn:E; [contradiction|].
  clear Hc. pose proof (clean_nonblank text Hne) as Hc.
  rewrite <- E. rewrite add_paragraph_clean by exact Hc.
  apply finish_nonempty.
  pose proof (split_sentences_ends _ (clean_ends _ Hc)) as Hs.
  destruct (len (clean text) >? target_chars).
  - unfold split_sentences in *.
    pose proof (split_sentences_aux_nonempty (clean text) false false [])
      as Hn.
    destruct (split_sentences_aux false false [] (clean text)) as [|p ps];
      [contradiction|].
    simpl. inversion_clear Hs.
    apply fold_add_snd; [assumption|]. now apply add_piece_snd.
  - apply add_piece_snd, clean_ends, Hc.
Qed.

End ChunkerProperties.

(** ** Reseeding *)

Section Reseeding.

Lemma reseed_zero buffer : reseed 0 buffer = [].
Proof. reflexivity. Qed.

Lemma reseed_positive ov buffer :
  0 < ov -> reseed ov buffer = last_chars ov buffer.
Proof.
  intros H. unfold reseed, slice_from, last_chars, len.
  destruct (ov =? 0) eqn:E; [lia|].
  assert ((- ov <? 0) = true) as -> by lia.
  f_equal. lia.
Qed.

Lemma reseed_length ov buffer : (length (reseed ov buffer) <= length buffer)%nat.
Proof.
  unfold reseed, slice_from. destruct (ov =? 0); simpl; [lia|].
  rewrite length_skipn. lia.
Qed.

Lemma last_chars_app ov lead s :
  ov <= len s -> last_chars ov (lead ++ s) = last_chars ov s.
Proof.
  unfold last_chars, len. intros H. rewrite length_app, skipn_app.
  rewrite skipn_all2 by lia. simpl. f_equal. lia.
Qed.

End Reseeding.

(** ** The claims about the chunker *)

(** C2.  The claim has the paragraph split applied to the original text.  In
    [chunk_text] the split is applied to the text after the whitespace
    substitution, which has turned every newline into a space: for every
    input, the list of paragraphs the loop runs over is the cleaned text
    alone.  On the text "First." / blank line / "Second." the paragraphs of
    the design are the two sentences, while [chunk_text] joins them with a
    space into one paragraph and one chunk. *)
Theorem paragraph_split_sees_cleaned_text :
  (forall text, split_paragraphs (clean text) = [clean text]) /\
  (let text := lit "First." ++ [NL; NL] ++ lit "Second." in
   spec_paragraphs text = [lit "First."; lit "Second."] /\
   split_paragraphs (clean text) = [lit "First. Second."] /\
   chunk_text default_settings text = [lit "First. Second."]).
Proof.
  split; [exact split_paragraphs_clean|].
  cbv zeta. repeat split; vm_compute; reflexivity.
Qed.

(* ================================================================== *)
(** * Document ids *)
(* ================================================================== *)

Section DocumentIds.

Example md5_empty :
  MD5.hexdigest [] = lit "d41d8cd98f00b204e9800998ecf8427e".
Proof. vm_compute. reflexivity. Qed.

Example md5_abc :
  MD5.hexdigest (lit "abc") = lit "900150983cd24fb0d6963f7d28e17f72".
Proof. vm_compute. reflexivity. Qed.

Example md5_two_blocks :
  MD5.hexdigest (lit "12345678901234567890123456789012345678901234567890123456789012345678901234567890")
  = lit "57edf4a22be3c955ac49da2e2107b67a".
Proof. vm_compute. reflexivity. Qed.

Lemma le_bytes_length n x : length (MD5.le_bytes n x) = n.
Proof. revert x. induction n; intros x; simpl; auto. Qed.

Lemma hex_length data : length (MD5.hex data) = (2 * length data)%nat.
Proof. induction data as [|b r IH]; simpl; [reflexivity | rewrite IH; lia]. Qed.

Lemma hexdigest_length msg : length (MD5.hexdigest msg) = 32%nat.
Proof.
  unfold MD5.hexdigest, MD5.digest. cbv zeta.
  destruct (MD5.blocks _ _ _) as [[[a b] c] d].
  rewrite hex_length, !length_app, !le_bytes_length. reflexivity.
Qed.

Lemma content_hash_length content h :
  content_hash content = Ok h -> length h = 8%nat.
Proof.
  unfold content_hash, bind.
  destruct (Utf8.encode content) as [data|]; [|discriminate].
  intros H.
  assert (h = slice_to 8 (MD5.hexdigest data)) as -> by congruence.
  unfold slice_to. rewrite length_firstn, hexdigest_length.
  reflexivity.
Qed.

Lemma encode_from_total s : forall pos,
  encodable s -> exists data, Utf8.encode_from pos s = Ok data.
Proof.
  induction s as [|c s IH]; intros pos H; simpl; [eauto|].
  inversion_clear H as [|? ? Hc Hs].
  destruct (Utf8.encode_char c); [|contradiction].
  destruct (IH (S pos) Hs) as (rest & ->). simpl. eauto.
Qed.

Lemma content_hash_total content :
  encodable content -> exists h, content_hash content = Ok h.
Proof.
  intros H. unfold content_hash, Utf8.encode.
  destruct (encode_from_total content 0%nat H) as (data & ->). simpl. eauto.
Qed.

Lemma generate_document_id_inv filename content doc_id :
  generate_document_id filename content = Ok doc_id ->
  exists h, content_hash content = Ok h /\
            doc_id = safe_filename filename ++ lit "_" ++ h.
Proof.
  unfold generate_document_id, bind.
  destruct (content_hash content) as [h|]; [|discriminate].
  intros [= <-]. eauto.
Qed.

Lemma id_prefix_app p h :
  length h = 8%nat -> id_prefix (p ++ lit "_" ++ h) = p.
Proof.
  intros Hh. unfold id_prefix. rewrite !length_app, Hh. simpl.
  replace (length p + 9 - 9)%nat with (length p + 0)%nat by lia.
  rewrite firstn_app_2. simpl. apply app_nil_r.
Qed.

Lemma id_suffix_app p h :
  length h = 8%nat -> id_suffix (p ++ lit "_" ++ h) = h.
Proof.
  intros Hh. unfold id_suffix. rewrite !length_app, Hh. simpl.
  replace (length p + 9 - 8)%nat with (length p + 1)%nat by lia.
  rewrite skipn_app, skipn_all2 by lia.
  replace (length p + 1 - length p)%nat with 1%nat by lia. reflexivity.
Qed.

Lemma sanitize_chars s :
  Forall (fun c => is_alnum c = true \/ c = 95) (sanitize s).
Proof.
  unfold sanitize. induction s as [|c s IH]; simpl; constructor; auto.
  destruct (is_alnum c) eqn:E; auto.
Qed.

Lemma Forall_slice_to {A} (P : A -> Prop) n l :
  Forall P l -> Forall P (slice_to n l).
Proof.
  unfold slice_to. revert l.
  induction n as [|n IH]; intros l H; simpl; [constructor|].
  destruct H; constructor; auto.
Qed.

Lemma safe_filename_chars filename :
  Forall (fun c => is_alnum c = true \/ c = 95) (safe_filename filename) /\
  (length (safe_filename filename) <= 20)%nat.
Proof.
  unfold safe_filename. split.
  - apply (Forall_slice_to _ 20), sanitize_chars.
  - unfold slice_to. rewrite length_firstn. lia.
Qed.

End DocumentIds.

(** C5, as stated, fails twice.  The contents "kot" and "bwma" differ and
    have the same first eight hex digits of MD5, so the suffix does not
    change with the content; the file names "my-notes.txt" and
    "my_notes.pdf" differ and have the same sanitised stem, so the prefix
    does not change with the file name. *)
Lemma document_id_collisions :
  lit "kot" <> lit "bwma" /\
  generate_document_id (lit "notes.txt") (lit "kot")
    = Ok (lit "notes_a986d9ee") /\
  generate_document_id (lit "notes.txt") (lit "bwma")
    = Ok (lit "notes_a986d9ee") /\
  lit "my-notes.txt" <> lit "my_notes.pdf" /\
  generate_document_id (lit "my-notes.txt") (lit "kot")
    = Ok (lit "my_notes_a986d9ee") /\
  generate_document_id (lit "my_notes.pdf") (lit "kot")
    = Ok (lit "my_notes_a986d9ee").
Proof.
  repeat split; try (vm_compute; reflexivity); vm_compute; discriminate.
Qed.

(** C5 (amended).  For every file name and every content that can be
    encoded, [generate_document_id] returns the sanitised stem cut to 20
    characters, an underscore, and the first eight hex digits of the MD5 of
    the encoded content; the prefix has only letters, digits and
    underscores.  The suffix depends on the content alone and the prefix on
    the file name alone: with another content the prefix is the same, and the
    suffix is the same exactly when the truncated hashes agree; with another
    file name the suffix is the same, and the prefix is the same exactly when
    the sanitised, truncated stems agree. *)
Theorem document_id_structure filename content :
  encodable content ->
  exists h,
    content_hash content = Ok h /\ length h = 8%nat /\
    generate_document_id filename content
      = Ok (slice_to 20 (sanitize (Path.stem filename)) ++ lit "_" ++ h) /\
    Forall (fun c => is_alnum c = true \/ c = 95)
           (slice_to 20 (sanitize (Path.stem filename))) /\
    (forall doc_id, generate_document_id filename content = Ok doc_id ->
       id_prefix doc_id = safe_filename filename /\ id_suffix doc_id = h /\
       (forall content' doc_id',
          generate_document_id filename content' = Ok doc_id' ->
          id_prefix doc_id' = id_prefix doc_id /\
          (id_suffix doc_id' = id_suffix doc_id <->
           content_hash content' = content_hash content)) /\
       (forall filename' doc_id',
          generate_document_id filename' content = Ok doc_id' ->
          id_suffix doc_id' = id_suffix doc_id /\
          (id_prefix doc_id' = id_prefix doc_id <->
           safe_filename filename' = safe_filename filename))).
Proof.
  intros Henc. destruct (content_hash_total content Henc) as (h & Hh).
  pose proof (content_hash_length _ _ Hh) as Hlen.
  exists h. split; [exact Hh|]. split; [exact Hlen|]. split; [|split].
  - unfold generate_document_id. rewrite Hh. reflexivity.
  - apply safe_filename_chars.
  - intros doc_id Hid.
    apply generate_document_id_inv in Hid as (h0 & Hh0 & ->).
    rewrite Hh in Hh0. injection Hh0 as <-.
    rewrite id_prefix_app, id_suffix_app by exact Hlen.
    split; [reflexivity|]. split; [reflexivity|]. split.
    + intros content' doc_id' Hid'.
      apply generate_document_id_inv in Hid' as (h' & Hh' & ->).
      pose proof (content_hash_length _ _ Hh') as Hlen'.
      rewrite id_prefix_app, id_suffix_app by exact Hlen'.
      split; [reflexivity|]. rewrite Hh, Hh'. split; congruence.
    + intros filename' doc_id' Hid'.
      apply generate_document_id_inv in Hid' as (h' & Hh' & ->).
      rewrite Hh in Hh'. injection Hh' as <-.
      rewrite id_prefix_app, id_suffix_app by exact Hlen.
      split; [reflexivity|]. split; auto.
Qed.

Lemma document_id_structure_witness :
  exists h,
    content_hash (lit "content") = Ok h /\ length h = 8%nat /\
    generate_document_id (lit "my_document.pdf") (lit "content")
      = Ok (slice_to 20 (sanitize (Path.stem (lit "my_document.pdf")))
            ++ lit "_" ++ h) /\
    Forall (fun c => is_alnum c = true \/ c = 95)
           (slice_to 20 (sanitize (Path.stem (lit "my_document.pdf")))) /\
    (forall doc_id,
       generate_document_id (lit "my_document.pdf") (lit "content")
         = Ok doc_id ->
       id_prefix doc_id = safe_filename (lit "my_document.pdf") /\
       id_suffix doc_id = h /\
       (forall content' doc_id',
          generate_document_id (lit "my_document.pdf") content' = Ok doc_id' ->
          id_prefix doc_id' = id_prefix doc_id /\
          (id_suffix doc_id' = id_suffix doc_id <->
           content_hash content' = content_hash (lit "content"))) /\
       (forall filename' doc_id',
          generate_document_id filename' (lit "content") = Ok doc_id' ->
          id_suffix doc_id' = id_suffix doc_id /\
          (id_prefix doc_id' = id_prefix doc_id <->
           safe_filename filename' = safe_filename (lit "my_document.pdf")))).
Proof.
  apply (document_id_structure (lit "my_document.pdf") (lit "content")).
  unfold encodable. repeat constructor; vm_compute; discriminate.
Defined.

(* ================================================================== *)
(** * UTF-8: the decoder accepts exactly the encodings *)
(* ================================================================== *)

Lemma between_iff lo b hi : Utf8.between lo b hi = true <-> lo <= b <= hi.
Proof. unfold Utf8.between. rewrite andb_true_iff, !Z.leb_le. tauto. Qed.

Lemma between_false_iff lo b hi :
  Utf8.between lo b hi = false <-> b < lo \/ hi < b.
Proof.
  unfold Utf8.between. rewrite andb_false_iff, !Z.leb_gt. tauto.
Qed.

Ltac between_cases :=
  repeat match goal with
  | |- context [Utf8.between ?lo ?b ?hi] =>
      let E := fresh "E" in
      destruct (Utf8.between lo b hi) eqn:E;
      [apply between_iff in E | apply between_false_iff in E];
      try (exfalso; lia)
  | |- context [?a =? ?b] =>
      destruct (Z.eqb_spec a b); try (exfalso; lia)
  end.


Ltac div_facts c :=
  pose proof (Z.mod_pos_bound c 64 ltac:(lia));
  pose proof (Z.mod_pos_bound (c / 64) 64 ltac:(lia));
  pose proof (Z.mod_pos_bound (c / 4096) 64 ltac:(lia));
  pose proof (Z.div_mod c 64 ltac:(lia));
  pose proof (Z.div_mod (c / 64) 64 ltac:(lia));
  pose proof (Z.div_mod (c / 4096) 64 ltac:(lia));
  assert (c / 4096 = c / 64 / 64)
    by (rewrite Z.div_div by lia; reflexivity);
  assert (c / 262144 = c / 4096 / 64)
    by (rewrite Z.div_div by lia; reflexivity).

Lemma decode_one c rest pos :
  0 <= c <= 127 ->
  Utf8.decode_from pos (c :: rest)
  = (s <- Utf8.decode_from (1 + pos) rest ;; Ok (c :: s)).
Proof.
  intros Hc. cbn [Utf8.decode_from]. between_cases. reflexivity.
Qed.

Lemma decode_two c rest pos :
  128 <= c <= 2047 ->
  Utf8.decode_from pos ((192 + c / 64) :: (128 + c mod 64) :: rest)
  = (s <- Utf8.decode_from (2 + pos) rest ;; Ok (c :: s)).
Proof.
  intros Hc. div_facts c. cbn [Utf8.decode_from].
  change Utf8.is_cont with (fun b => Utf8.between 128 b 191). cbv beta.
  between_cases.
  replace ((192 + c / 64 - 192) * 64 + (128 + c mod 64 - 128)) with c by lia.
  reflexivity.
Qed.

Lemma decode_three c rest pos :
  2048 <= c <= 65535 -> ~ 55296 <= c <= 57343 ->
  Utf8.decode_from pos ((224 + c / 4096) :: (128 + (c / 64) mod 64)
                        :: (128 + c mod 64) :: rest)
  = (s <- Utf8.decode_from (3 + pos) rest ;; Ok (c :: s)).
Proof.
  intros Hc Hs. div_facts c. cbn [Utf8.decode_from].
  change Utf8.is_cont with (fun b => Utf8.between 128 b 191). cbv beta.
  between_cases;
    replace ((224 + c / 4096 - 224) * 4096
             + (128 + (c / 64) mod 64 - 128) * 64
             + (128 + c mod 64 - 128)) with c by lia;
    reflexivity.
Qed.

Lemma decode_four c rest pos :
  65536 <= c <= 1114111 ->
  Utf8.decode_from pos ((240 + c / 262144) :: (128 + (c / 4096) mod 64)
                        :: (128 + (c / 64) mod 64) :: (128 + c mod 64)
                        :: rest)
  = (s <- Utf8.decode_from (4 + pos) rest ;; Ok (c :: s)).
Proof.
  intros Hc. div_facts c. cbn [Utf8.decode_from].
  change Utf8.is_cont with (fun b => Utf8.between 128 b 191). cbv beta.
  between_cases;
    replace ((240 + c / 262144 - 240) * 262144
             + (128 + (c / 4096) mod 64 - 128) * 4096
             + (128 + (c / 64) mod 64 - 128) * 64
             + (128 + c mod 64 - 128)) with c by lia;
    reflexivity.
Qed.

Lemma decode_encode_char c bs rest pos :
  Utf8.encode_char c = Some bs ->
  Utf8.decode_from pos (bs ++ rest)
  = (s <- Utf8.decode_from (length bs + pos) rest ;; Ok (c :: s)).
Proof.
  unfold Utf8.encode_char.
  destruct (Utf8.between 0 c 127) eqn:E1.
  { intros H. assert (bs = [c]) as -> by congruence.
    apply decode_one, between_iff, E1. }
  destruct (Utf8.between 128 c 2047) eqn:E2.
  { intros H. assert (bs = [192 + c / 64; 128 + c mod 64]) as ->
      by congruence.
    apply decode_two, between_iff, E2. }
  destruct (Utf8.between 55296 c 57343) eqn:E3; [discriminate|].
  destruct (Utf8.between 2048 c 65535) eqn:E4.
  { intros H.
    assert (bs = [224 + c / 4096; 128 + (c / 64) mod 64; 128 + c mod 64])
      as -> by congruence.
    apply decode_three; [now apply between_iff|].
    apply between_false_iff in E3. lia. }
  destruct (Utf8.between 65536 c 1114111) eqn:E5; [|discriminate].
  intros H.
  assert (bs = [240 + c / 262144; 128 + (c / 4096) mod 64;
                128 + (c / 64) mod 64; 128 + c mod 64]) as ->
    by congruence.
  apply decode_four, between_iff, E5.
Qed.

Lemma decode_encode_from s : forall pos pos' data,
  Utf8.encode_from pos s = Ok data -> Utf8.decode_from pos' data = Ok s.
Proof.
  induction s as [|c s IH]; intros pos pos' data; simpl.
  - intros H. assert (data = []) as -> by congruence. reflexivity.
  - destruct (Utf8.encode_char c) as [bs|] eqn:Ec; [|discriminate].
    destruct (Utf8.encode_from (S pos) s) as [rest|] eqn:Es;
      [|discriminate].
    simpl. intros H. assert (data = bs ++ rest) as -> by congruence.
    rewrite (decode_encode_char c bs rest pos' Ec).
    now rewrite (IH _ _ _ Es).
Qed.

(** Conversely, what the decoder accepts is the encoding of its result. *)
Lemma encode_decode_bounded n : forall data pos pos' s,
  (length data <= n)%nat ->
  Utf8.decode_from pos data = Ok s -> Utf8.encode_from pos' s = Ok data.
Proof.
  induction n as [|n IH]; intros data pos pos' s Hn;
    destruct data as [|b0 r0]; simpl in Hn; try lia;
    try (simpl; intros H; assert (s = []) as -> by congruence; reflexivity).
  assert (forall r p c bs s,
            (length r <= n)%nat ->
            Utf8.encode_char c = Some bs ->
            (t <- Utf8.decode_from p r ;; Ok (c :: t)) = Ok s ->
            Utf8.encode_from pos' s = Ok (bs ++ r)) as Hrec.
  { intros r p c bs s0 Hr Hc H.
    destruct (Utf8.decode_from p r) as [t|] eqn:E; simpl in H;
      [|discriminate].
    assert (s0 = c :: t) as -> by congruence.
    simpl. rewrite Hc. now rewrite (IH r p (S pos') t Hr E). }
  cbn [Utf8.decode_from].
  change Utf8.is_cont with (fun b => Utf8.between 128 b 191). cbv beta.
  destruct (Utf8.between 0 b0 127) eqn:E0.
  { apply between_iff in E0. apply (Hrec r0 _ b0 [b0]); [lia|].
    unfold Utf8.encode_char.
    now rewrite (proj2 (between_iff 0 b0 127) E0). }
  destruct (Utf8.between 194 b0 223) eqn:E1.
  { apply between_iff in E1.
    destruct r0 as [|b1 r1]; [discriminate|].
    destruct (Utf8.between 128 b1 191) eqn:F1; [|discriminate].
    apply between_iff in F1. simpl in Hn.
    set (c := (b0 - 192) * 64 + (b1 - 128)).
    assert (c / 64 = b0 - 192) as Hd
      by (symmetry; apply Z.div_unique with (b1 - 128); unfold c; lia).
    assert (c mod 64 = b1 - 128) as Hm
      by (symmetry; apply Z.mod_unique with (b0 - 192); unfold c; lia).
    apply (Hrec r1 _ c [b0; b1]); [lia|].
    unfold Utf8.encode_char.
    rewrite (proj2 (between_false_iff 0 c 127)) by (unfold c; lia).
    rewrite (proj2 (between_iff 128 c 2047)) by (unfold c; lia).
    rewrite Hd, Hm. do 3 f_equal; lia. }
  destruct (Utf8.between 224 b0 239) eqn:E2.
  { apply between_iff in E2.
    destruct r0 as [|b1 [|b2 r2]]; try discriminate.
    destruct (_ && _) eqn:F; [|discriminate].
    apply andb_true_iff in F as [F1 F2]. apply between_iff in F2.
    simpl in Hn.
    assert (128 <= b1 <= 191 /\ (b0 = 224 -> 160 <= b1) /\
            (b0 = 237 -> b1 <= 159)) as (G1 & G2 & G3).
    { destruct (Z.eqb_spec b0 224); [|destruct (Z.eqb_spec b0 237)];
        apply between_iff in F1; lia. }
    set (c := (b0 - 224) * 4096 + (b1 - 128) * 64 + (b2 - 128)).
    assert (c / 64 = (b0 - 224) * 64 + (b1 - 128)) as Hd
      by (symmetry; apply Z.div_unique with (b2 - 128); unfold c; lia).
    assert (c mod 64 = b2 - 128) as Hm
      by (symmetry; apply Z.mod_unique with ((b0 - 224) * 64 + (b1 - 128));
          unfold c; lia).
    assert (c / 4096 = b0 - 224) as Hd2.
    { replace 4096 with (64 * 64) by reflexivity.
      rewrite <- Z.div_div, Hd by lia.
      symmetry; apply Z.div_unique with (b1 - 128); lia. }
    assert ((c / 64) mod 64 = b1 - 128) as Hm2
      by (rewrite Hd; symmetry; apply Z.mod_unique with (b0 - 224); lia).
    apply (Hrec r2 _ c [b0; b1; b2]); [lia|].
    unfold Utf8.encode_char.
    rewrite (proj2 (between_false_iff 0 c 127)) by (unfold c; lia).
    rewrite (proj2 (between_false_iff 128 c 2047)) by (unfold c; lia).
    rewrite (proj2 (between_false_iff 55296 c 57343)) by (unfold c; lia).
    rewrite (proj2 (between_iff 2048 c 65535)) by (unfold c; lia).
    rewrite Hd2, Hm, Hm2. do 4 f_equal; lia. }
  destruct (Utf8.between 240 b0 244) eqn:E3; [|discriminate].
  apply between_iff in E3.
  destruct r0 as [|b1 [|b2 [|b3 r3]]]; try discriminate.
  destruct (_ && _) eqn:F; [|discriminate].
  apply andb_true_iff in F as [F F3]. apply andb_true_iff in F as [F1 F2].
  apply between_iff in F2, F3. simpl in Hn.
  assert (128 <= b1 <= 191 /\ (b0 = 240 -> 144 <= b1) /\
          (b0 = 244 -> b1 <= 143)) as (G1 & G2 & G3).
  { destruct (Z.eqb_spec b0 240); [|destruct (Z.eqb_spec b0 244)];
      apply between_iff in F1; lia. }
  set (c := (b0 - 240) * 262144 + (b1 - 128) * 4096
            + (b2 - 128) * 64 + (b3 - 128)).
  assert (c / 64 = (b0 - 240) * 4096 + (b1 - 128) * 64 + (b2 - 128)) as Hd
    by (symmetry; apply Z.div_unique with (b3 - 128); unfold c; lia).
  assert (c mod 64 = b3 - 128) as Hm
    by (symmetry;
        apply Z.mod_unique
          with ((b0 - 240) * 4096 + (b1 - 128) * 64 + (b2 - 128));
        unfold c; lia).
  assert (c / 4096 = (b0 - 240) * 64 + (b1 - 128)) as Hd2.
  { replace 4096 with (64 * 64) by reflexivity.
    rewrite <- Z.div_div, Hd by lia.
    symmetry; apply Z.div_unique with (b2 - 128); lia. }
  assert ((c / 64) mod 64 = b2 - 128) as Hm2
    by (rewrite Hd; symmetry;
        apply Z.mod_unique with ((b0 - 240) * 64 + (b1 - 128)); lia).
  assert (c / 262144 = b0 - 240) as Hd3.
  { replace 262144 with (4096 * 64) by reflexivity.
    rewrite <- Z.div_div, Hd2 by lia.
    symmetry; apply Z.div_unique with (b1 - 128); lia. }
  assert ((c / 4096) mod 64 = b1 - 128) as Hm3
    by (rewrite Hd2; symmetry; apply Z.mod_unique with (b0 - 240); lia).
  apply (Hrec r3 _ c [b0; b1; b2; b3]); [lia|].
  unfold Utf8.encode_char.
  rewrite (proj2 (between_false_iff 0 c 127)) by (unfold c; lia).
  rewrite (proj2 (between_false_iff 128 c 2047)) by (unfold c; lia).
  rewrite (proj2 (between_false_iff 55296 c 57343)) by (unfold c; lia).
  rewrite (proj2 (between_false_iff 2048 c 65535)) by (unfold c; lia).
  rewrite (proj2 (between_iff 65536 c 1114111)) by (unfold c; lia).
  rewrite Hd3, Hm, Hm2, Hm3. do 5 f_equal; lia.
Qed.

(** The decoder accepts exactly the encodings. *)
Lemma decode_iff_encode data s :
  Utf8.decode data = Ok s <-> Utf8.encode s = Ok data.
Proof.
  split.
  - apply (encode_decode_bounded (length data)). lia.
  - apply decode_encode_from.
Qed.

(* ================================================================== *)
(** * Chunk ids *)
(* ================================================================== *)

Section ChunkIds.

Lemma str_eqb_eq a b : str_eqb a b = true <-> a = b.
Proof.
  unfold str_eqb. destruct (list_eq_dec Z.eq_dec a b); split; congruence.
Qed.

Lemma str_eqb_refl a : str_eqb a a = true.
Proof. now apply str_eqb_eq. Qed.

Lemma str_eqb_neq a b : str_eqb a b = false <-> a <> b.
Proof.
  unfold str_eqb. destruct (list_eq_dec Z.eq_dec a b); split; congruence.
Qed.

Lemma existsb_str_eqb a l : existsb (str_eqb a) l = true <-> In a l.
Proof.
  rewrite existsb_exists. split.
  - intros (x & Hin & Heq). apply str_eqb_eq in Heq. now subst.
  - intros H. exists a. split; [exact H | apply str_eqb_refl].
Qed.

Lemma ord_inj a b : ord a = ord b -> a = b.
Proof.
  unfold ord. intros H. apply N2Z.inj in H.
  rewrite <- (ascii_N_embedding a), <- (ascii_N_embedding b).
  now rewrite H.
Qed.

Lemma lit_inj s : forall t, lit s = lit t -> s = t.
Proof.
  induction s as [|a s IH]; intros [|b t] H; simpl in H;
    try discriminate; [reflexivity|].
  injection H as Ha Hs. f_equal; [now apply ord_inj | now apply IH].
Qed.

Lemma str_of_nat_inj i j : str_of_nat i = str_of_nat j -> i = j.
Proof.
  unfold str_of_nat. intros H. apply lit_inj in H.
  apply (f_equal NilEmpty.uint_of_string) in H.
  rewrite !NilEmpty.usu in H. injection H as H.
  rewrite <- (Unsigned.of_to i), <- (Unsigned.of_to j). now rewrite H.
Qed.

(** The decimal digits contain no underscore. *)
Lemma str_of_nat_no_underscore i : ~ In 95 (str_of_nat i).
Proof.
  unfold str_of_nat. generalize (Nat.to_uint i). intros u.
  induction u; simpl; [tauto|..]; intros [H | H]; auto;
    vm_compute in H; discriminate H.
Qed.

Lemma last_underscore a : forall b x y,
  ~ In 95 x -> ~ In 95 y -> a ++ 95 :: x = b ++ 95 :: y -> a = b /\ x = y.
Proof.
  induction a as [|c a IH]; intros [|c' b] x y Hx Hy H; simpl in H.
  - injection H as H. auto.
  - injection H as <- H. exfalso. apply Hx. rewrite H.
    apply in_or_app. right. now left.
  - injection H as -> H. exfalso. apply Hy. rewrite <- H.
    apply in_or_app. right. now left.
  - injection H as -> H. destruct (IH b x y Hx Hy H) as [-> ->]. auto.
Qed.

Lemma chunk_id_split d i :
  chunk_id d i = (d ++ lit "_chunk") ++ 95 :: str_of_nat i.
Proof. unfold chunk_id. rewrite <- app_assoc. reflexivity. Qed.

Lemma chunk_id_inj d i d' i' :
  chunk_id d i = chunk_id d' i' -> d = d' /\ i = i'.
Proof.
  rewrite !chunk_id_split. intros H.
  apply (last_underscore (d ++ lit "_chunk") (d' ++ lit "_chunk")) in H
    as [Hd Hi]; try apply str_of_nat_no_underscore.
  split; [now apply app_inv_tail in Hd | now apply str_of_nat_inj].
Qed.

End ChunkIds.

(* ================================================================== *)
(** * The collection *)
(* ================================================================== *)

Section CollectionFacts.

Lemma filter_all {A} (p : A -> bool) l :
  (forall x, In x l -> p x = true) -> filter p l = l.
Proof.
  induction l as [|x l IH]; intros H; simpl; [reflexivity|].
  rewrite (H x) by now left. f_equal. apply IH. intros y Hy. apply H.
  now right.
Qed.

Lemma filter_none {A} (p : A -> bool) l :
  (forall x, In x l -> p x = false) -> filter p l = [].
Proof.
  induction l as [|x l IH]; intros H; simpl; [reflexivity|].
  rewrite (H x) by now left. apply IH. intros y Hy. apply H. now right.
Qed.

Lemma get_where_In d c i :
  In i (Chroma.get_where d c) <->
  exists e, In e c /\ document_id (entry_metadata e) = d /\ entry_id e = i.
Proof.
  unfold Chroma.get_where. rewrite in_map_iff. split.
  - intros (e & He & Hin). apply filter_In in Hin as [Hin Hd].
    apply str_eqb_eq in Hd. eauto.
  - intros (e & Hin & Hd & He). exists e. split; [exact He|].
    apply filter_In. split; [exact Hin | now apply str_eqb_eq].
Qed.

(** After the deletion no chunk of the document is left. *)
Lemma get_where_delete d c :
  Chroma.get_where d (Chroma.delete (Chroma.get_where d c) c) = [].
Proof.
  unfold Chroma.get_where at 1. unfold Chroma.delete.
  rewrite filter_none; [reflexivity|].
  intros e He. apply filter_In in He as [Hin Hkeep].
  apply str_eqb_neq. intros Hd. apply negb_true_iff in Hkeep.
  assert (existsb (str_eqb (entry_id e)) (Chroma.get_where d c) = true);
    [|congruence].
  apply existsb_str_eqb, get_where_In. eauto.
Qed.

Lemma count_after_delete_existing d c :
  count_chunks d (delete_existing d c) = 0%nat.
Proof.
  unfold count_chunks, delete_existing.
  destruct (Chroma.get_where d c) as [|i ids] eqn:E.
  - now rewrite E.
  - rewrite <- E. now rewrite get_where_delete.
Qed.

Lemma count_chunks_app d c1 c2 :
  count_chunks d (c1 ++ c2) = (count_chunks d c1 + count_chunks d c2)%nat.
Proof.
  unfold count_chunks, Chroma.get_where.
  now rewrite filter_app, map_app, length_app.
Qed.

Lemma count_chunks_all d c :
  (forall e, In e c -> document_id (entry_metadata e) = d) ->
  count_chunks d c = length c.
Proof.
  intros H. unfold count_chunks, Chroma.get_where.
  rewrite length_map, filter_all; [reflexivity|].
  intros e He. apply str_eqb_eq. now apply H.
Qed.

Lemma zip_entries_indexed (f : nat -> str) (g : nat -> Metadata) l :
  forall embeddings documents,
  Forall (fun e => exists k, In k l /\ entry_id e = f k /\
                             entry_metadata e = g k)
         (Chroma.zip_entries (map f l) embeddings documents (map g l)).
Proof.
  induction l as [|k l IH]; intros [|v vs] [|x xs]; simpl; try constructor.
  - exists k. simpl. auto.
  - eapply Forall_impl; [|apply IH].
    intros e (k' & Hin & H). exists k'. split; [now right | exact H].
Qed.

Lemma zip_entries_length (f : nat -> str) (g : nat -> Metadata) l :
  forall embeddings documents,
  length embeddings = length l -> length documents = length l ->
  length (Chroma.zip_entries (map f l) embeddings documents (map g l))
  = length l.
Proof.
  induction l as [|k l IH]; intros [|v vs] [|x xs] Hv Hx; simpl in *;
    try discriminate; [reflexivity|].
  f_equal. apply IH; lia.
Qed.

Lemma add_inv ids embeddings documents metadatas c c' :
  Chroma.add ids embeddings documents metadatas c = Ok c' ->
  length embeddings = length ids /\ length documents = length ids /\
  length metadatas = length ids /\
  c' = c ++ filter (fun e => negb (Chroma.has_id c (entry_id e)))
                   (Chroma.zip_entries ids embeddings documents metadatas).
Proof.
  unfold Chroma.add. cbv zeta.
  destruct (_ || _) eqn:E; [discriminate|].
  destruct (negb (Chroma.distinct ids)); [discriminate|].
  intros [= <-].
  apply orb_false_iff in E as [_ E]. apply negb_false_iff in E.
  rewrite !andb_true_iff, !Nat.eqb_eq in E. intuition.
Qed.

Lemma delete_existing_incl d c e :
  In e (delete_existing d c) -> In e c.
Proof.
  unfold delete_existing, Chroma.delete.
  destruct (Chroma.get_where d c); [auto|].
  intros H. now apply filter_In in H.
Qed.

Lemma disciplined_delete_existing d c :
  disciplined c -> disciplined (delete_existing d c).
Proof.
  unfold disciplined. rewrite !Forall_forall. intros H e He.
  apply H. eapply delete_existing_incl, He.
Qed.

Lemma disciplined_add d filename n l embeddings documents c c' :
  disciplined c ->
  Chroma.add (map (chunk_id d) l) embeddings documents
             (map (chunk_metadata d filename n) l) c = Ok c' ->
  disciplined c'.
Proof.
  intros Hc Hadd. apply add_inv in Hadd as (_ & _ & _ & ->).
  unfold disciplined. apply Forall_app. split; [exact Hc|].
  apply Forall_forall. intros e He. apply filter_In in He as [He _].
  pose proof (zip_entries_indexed (chunk_id d) (chunk_metadata d filename n)
                l embeddings documents) as Hz.
  rewrite Forall_forall in Hz. destruct (Hz e He) as (k & _ & -> & ->).
  reflexivity.
Qed.

(** In a disciplined collection that holds no chunk of [d], the ids of the
    chunks of [d] are free. *)
Lemma chunk_id_free d c k :
  disciplined c -> count_chunks d c = 0%nat ->
  Chroma.has_id c (chunk_id d k) = false.
Proof.
  intros Hc H0. unfold Chroma.has_id.
  destruct (existsb _ c) eqn:E; [|reflexivity]. exfalso.
  apply existsb_exists in E as (e & Hin & Hid). apply str_eqb_eq in Hid.
  unfold disciplined in Hc. rewrite Forall_forall in Hc.
  rewrite (Hc e Hin) in Hid. apply chunk_id_inj in Hid as [Hd _].
  unfold count_chunks in H0. apply length_zero_iff_nil in H0.
  assert (In (entry_id e) (Chroma.get_where d c)) as Hg
    by (apply get_where_In; eauto).
  rewrite H0 in Hg. contradiction.
Qed.

(** Adding the chunks of [d] to a disciplined collection that holds none of
    them stores every one of them. *)
Lemma add_chunks_count d filename n l embeddings documents c c' :
  disciplined c -> count_chunks d c = 0%nat ->
  Chroma.add (map (chunk_id d) l) embeddings documents
             (map (chunk_metadata d filename n) l) c = Ok c' ->
  count_chunks d c' = length l /\
  exists added, c' = c ++ added /\ length added = length l.
Proof.
  intros Hc H0 Hadd. pose proof Hadd as Hadd'.
  apply add_inv in Hadd' as (Hv & Hx & _ & ->).
  rewrite length_map in Hv, Hx.
  pose proof (zip_entries_indexed (chunk_id d) (chunk_metadata d filename n)
                l embeddings documents) as Hz.
  rewrite Forall_forall in Hz.
  rewrite filter_all.
  - split.
    + rewrite count_chunks_app, H0, count_chunks_all.
      * now rewrite zip_entries_length.
      * intros e He. destruct (Hz e He) as (k & _ & _ & ->). reflexivity.
    + eexists. split; [reflexivity|]. now apply zip_entries_length.
  - intros e He. destruct (Hz e He) as (k & _ & -> & _).
    apply negb_true_iff. now apply chunk_id_free.
Qed.

End CollectionFacts.

(* ================================================================== *)
(** * The ingestion pipeline *)
(* ================================================================== *)

Section IngestionFacts.

Variable env : Env.

(** What a successful run went through. *)
Lemma ingest_document_ok w file filename file_size now w' doc_info :
  ingest_document env w file filename file_size now = (w', Ok doc_info) ->
  exists text chunks embeddings,
    extract_text env file filename = Ok text /\
    strip text <> [] /\
    generate_document_id filename text = Ok (id doc_info) /\
    chunks = chunk_text (settings env) text /\ chunks <> [] /\
    generate_embeddings env chunks = Ok embeddings /\
    Chroma.add (map (chunk_id (id doc_info)) (seq 0 (length chunks)))
               embeddings chunks
               (map (chunk_metadata (id doc_info) filename (length chunks))
                    (seq 0 (length chunks)))
               (delete_existing (id doc_info) (collection w))
      = Ok (collection w') /\
    chunk_count doc_info = len chunks.
Proof.
  unfold ingest_document.
  destruct (extract_text env file filename) as [text|] eqn:Etext;
    [|discriminate].
  destruct (strip text) as [|s0 s] eqn:Es; [discriminate|].
  destruct (generate_document_id filename text) as [doc_id|] eqn:Eid;
    [|discriminate].
  cbv zeta.
  destruct (chunk_text (settings env) text) as [|c cs] eqn:Ec;
    [discriminate|].
  destruct (generate_embeddings env (c :: cs)) as [embeddings|] eqn:Eemb;
    [|discriminate].
  cbn [collection uploads].
  destruct (Chroma.add _ _ _ _ _) as [stored|] eqn:Eadd; [|discriminate].
  destruct (Dir.write _ _ _) as [saved|]; [|discriminate].
  destruct (Dir.write _ _ _) as [listed|]; [|discriminate].
  intros [= <- <-]. cbn [id collection chunk_count].
  exists text, (c :: cs), embeddings.
  repeat split; try assumption; try reflexivity; try discriminate.
  - rewrite Es. discriminate.
  - now rewrite Ec.
Qed.

Lemma ingest_document_disciplined w file filename file_size now :
  disciplined (collection w) ->
  disciplined
    (collection (fst (ingest_document env w file filename file_size now))).
Proof.
  intros Hw. unfold ingest_document.
  destruct (extract_text env file filename) as [text|]; [|exact Hw].
  destruct (strip text) as [|s0 s]; [exact Hw|].
  destruct (generate_document_id filename text) as [doc_id|]; [|exact Hw].
  cbv zeta. cbn [collection uploads].
  pose proof (disciplined_delete_existing doc_id _ Hw) as Hd.
  destruct (chunk_text (settings env) text) as [|c cs]; [exact Hd|].
  destruct (generate_embeddings env (c :: cs)); [|exact Hd].
  destruct (Chroma.add _ _ _ _ _) as [stored|] eqn:Eadd; [|exact Hd].
  apply disciplined_add in Eadd; [|exact Hd].
  destruct (Dir.write _ _ _); [|exact Eadd].
  destruct (Dir.write _ _ _); exact Eadd.
Qed.

Lemma delete_document_disciplined w doc_id :
  disciplined (collection w) ->
  disciplined (collection (fst (delete_document env w doc_id))).
Proof. intros Hw. simpl. now apply disciplined_delete_existing. Qed.

End IngestionFacts.

(** Every collection the pipeline produces keeps the id discipline. *)
Lemma reachable_disciplined w : reachable w -> disciplined (collection w).
Proof.
  induction 1.
  - constructor.
  - now apply ingest_document_disciplined.
  - now apply delete_document_disciplined.
Qed.

(** C1.  When [ingest_document] completes on a world the pipeline has
    produced, the chunks of the document's id were all deleted before
    anything was added (the collection after the deletion holds none), the
    collection is that one followed by the new entries, and the number of
    chunk records with this [document_id] is the new chunk count, whatever
    was stored under the id before. *)
Theorem reingest_replaces_chunks env w file filename file_size now w' doc_info :
  reachable w ->
  ingest_document env w file filename file_size now = (w', Ok doc_info) ->
  count_chunks (id doc_info)
               (delete_existing (id doc_info) (collection w)) = 0%nat /\
  (exists added,
     collection w' = delete_existing (id doc_info) (collection w) ++ added /\
     len added = chunk_count doc_info) /\
  Z.of_nat (count_chunks (id doc_info) (collection w')) = chunk_count doc_info /\
  (exists text,
     extract_text env file filename = Ok text /\
     generate_document_id filename text = Ok (id doc_info) /\
     chunk_count doc_info = len (chunk_text (settings env) text)).
Proof.
  intros Hreach Hrun.
  apply ingest_document_ok in Hrun
    as (text & chunks & embeddings & Htext & _ & Hid & Hchunks & _ & _
        & Hadd & Hcount).
  pose proof (count_after_delete_existing (id doc_info) (collection w)) as H0.
  apply add_chunks_count in Hadd as (Hn & added & Hc & Hlen);
    [|apply disciplined_delete_existing, reachable_disciplined, Hreach
     |exact H0].
  rewrite length_seq in Hn, Hlen.
  split; [exact H0|]. split; [|split].
  - exists added. split; [exact Hc|]. unfold len in *. now rewrite Hlen.
  - rewrite Hn. now rewrite Hcount.
  - exists text. rewrite <- Hchunks. auto.
Qed.

(** A document stored as two chunks under small settings and ingested again
    under the default settings ends with one chunk record, not three. *)
Lemma reingest_replaces_chunks_witness :
  let small :=
    sample_env {| chunk_size := 3; chunk_overlap := 1;
                  retrieval_top_k := 5 |} in
  let w := fst (ingest_document small empty_world (lit "Aaaa. Bbbb. Cccc.")
                                (lit "a.txt") 17 0) in
  let w' := fst (ingest_document (sample_env default_settings) w
                                 (lit "Aaaa. Bbbb. Cccc.") (lit "a.txt")
                                 17 1) in
  count_chunks (lit "a_b60b883d") (collection w) = 2%nat /\
  count_chunks (lit "a_b60b883d") (collection w') = 1%nat.
Proof.
  intros small w w'. split; [vm_compute; reflexivity|].
  pose (doc_info :=
          {| id := lit "a_b60b883d"; filename := lit "a.txt";
             file_type := lit "txt"; chunk_count := 1; uploaded_at := 1;
             file_size := 17 |}).
  assert (reachable w) as Hreach by (apply reach_ingest, reach_empty).
  assert (ingest_document (sample_env default_settings) w
            (lit "Aaaa. Bbbb. Cccc.") (lit "a.txt") 17 1
          = (w', Ok doc_info)) as Hrun by (vm_compute; reflexivity).
  destruct (reingest_replaces_chunks _ _ _ _ _ _ _ _ Hreach Hrun)
    as (_ & _ & H & _).
  change (id doc_info) with (lit "a_b60b883d") in H.
  change (chunk_count doc_info) with 1 in H. lia.
Defined.

(* ================================================================== *)
(** * File names and chunk ids of a document *)
(* ================================================================== *)

Section DocumentNames.

Lemma no_slash_existsb s :
  no_slash s -> existsb (Z.eqb Path.SLASH) s = false.
Proof.
  induction 1 as [|c s Hc Hs IH]; cbn [existsb]; [reflexivity|].
  rewrite IH, orb_false_r. apply Z.eqb_neq. congruence.
Qed.

Lemma le_bytes_range n : forall x,
  Forall (fun b => 0 <= b < 256) (MD5.le_bytes n x).
Proof.
  induction n as [|n IH]; intros x; simpl; constructor; [|apply IH].
  apply Z.mod_pos_bound. lia.
Qed.

Lemma hex_no_slash data :
  Forall (fun b => 0 <= b < 256) data -> no_slash (MD5.hex data).
Proof.
  induction 1 as [|b data Hb Hd IH]; simpl; [constructor|].
  assert (0 <= b / 16 < 16)
    by (split; [apply Z.div_pos | apply Z.div_lt_upper_bound]; lia).
  pose proof (Z.mod_pos_bound b 16 ltac:(lia)).
  constructor; [|constructor; [|exact IH]];
    unfold MD5.hex_digit, Path.SLASH.
  - destruct (b / 16 <? 10); lia.
  - destruct (b mod 16 <? 10); lia.
Qed.

Lemma hexdigest_no_slash msg : no_slash (MD5.hexdigest msg).
Proof.
  unfold MD5.hexdigest, MD5.digest. cbv zeta.
  destruct (MD5.blocks _ _ _) as [[[a b] c] d].
  apply hex_no_slash. repeat (apply Forall_app; split); apply le_bytes_range.
Qed.

Lemma document_id_no_slash filename content doc_id :
  generate_document_id filename content = Ok doc_id -> no_slash doc_id.
Proof.
  intros H. apply generate_document_id_inv in H as (h & Hh & ->).
  unfold no_slash. apply Forall_app. split; [|constructor; [discriminate|]].
  - destruct (safe_filename_chars filename) as [Hs _].
    eapply Forall_impl; [|exact Hs]. intros c [Hc | ->]; [|discriminate].
    intros ->. discriminate Hc.
  - unfold content_hash, bind in Hh.
    destruct (Utf8.encode content) as [data|]; [|discriminate].
    assert (h = slice_to 8 (MD5.hexdigest data)) as -> by congruence.
    apply (Forall_slice_to _ 8), hexdigest_no_slash.
Qed.

Lemma chunk_ids_distinct d n : forall a,
  Chroma.distinct (map (chunk_id d) (seq a n)) = true.
Proof.
  induction n as [|n IH]; intros a; simpl; [reflexivity|].
  rewrite IH, andb_true_r. apply negb_true_iff.
  destruct (existsb _ _) eqn:E; [|reflexivity]. exfalso.
  apply existsb_str_eqb, in_map_iff in E as (k & Hk & Hin).
  apply chunk_id_inj in Hk as [_ ->]. apply in_seq in Hin. lia.
Qed.

End DocumentNames.

(* ================================================================== *)
(** * The upload directory and deletion *)
(* ================================================================== *)

Section DirectoryFacts.






Lemma glob_In fm pattern d nm :
  In nm (Dir.glob fm pattern d) <->
  fm pattern nm = true /\ Dir.exists_ nm d = true.
Proof.
  unfold Dir.glob, Dir.exists_. rewrite in_map_iff, existsb_exists. split.
  - intros (f & <- & Hf). apply filter_In in Hf as [Hin Hm].
    split; [exact Hm|]. exists f. split; [exact Hin | apply str_eqb_refl].
  - intros (Hm & f & Hin & Hf). apply str_eqb_eq in Hf. subst nm.
    exists f. split; [reflexivity|]. apply filter_In. now split.
Qed.

End DirectoryFacts.




(* ================================================================== *)
(** * Text extraction *)
(* ================================================================== *)

Lemma decode_from_raises_bounded n : forall data pos e,
  (length data <= n)%nat ->
  Utf8.decode_from pos data = Raise e -> exists p, e = UnicodeDecodeError p.
Proof.
  induction n as [|n IH]; intros data pos e Hn;
    destruct data as [|b0 r0]; simpl in *; try discriminate; [lia|].
  assert (forall r p k,
            (length r <= n)%nat ->
            (s <- Utf8.decode_from p r ;; Ok (k :: s)) = Raise e ->
            exists q, e = UnicodeDecodeError q) as Hrec.
  { intros r p k Hr H. destruct (Utf8.decode_from p r) eqn:E; simpl in H;
      [discriminate|]. injection H as <-. eapply IH; eauto. }
  destruct (Utf8.between 0 b0 127); [apply Hrec; simpl in *; lia|].
  destruct (Utf8.between 194 b0 223).
  { destruct r0 as [|b1 r1]; [intros [= <-]; eauto|].
    destruct (Utf8.is_cont b1); [apply Hrec; simpl in *; lia|].
    intros [= <-]; eauto. }
  destruct (Utf8.between 224 b0 239).
  { destruct r0 as [|b1 [|b2 r2]]; try (intros [= <-]; eauto).
    destruct (_ && _); [apply Hrec; simpl in *; lia|]. intros [= <-]; eauto. }
  destruct (Utf8.between 240 b0 244).
  { destruct r0 as [|b1 [|b2 [|b3 r3]]]; try (intros [= <-]; eauto).
    destruct (_ && _); [apply Hrec; simpl in *; lia|]. intros [= <-]; eauto. }
  intros [= <-]; eauto.
Qed.

Lemma decode_raises data e :
  Utf8.decode data = Raise e -> exists p, e = UnicodeDecodeError p.
Proof. apply (decode_from_raises_bounded (length data)). lia. Qed.

Lemma not_in_taxonomy_decode_error pos : ~ in_taxonomy (UnicodeDecodeError pos).
Proof.
  intros [(file_ext & H) | [H | H]]; discriminate H.
Qed.

Lemma undecodable_txt_raises env w file filename file_size now :
  lower (Path.suffix filename) = lit ".txt" ->
  (forall text, Utf8.encode text <> Ok file) ->
  exists pos,
    extract_text env file filename = Raise (UnicodeDecodeError pos) /\
    ingest_document env w file filename file_size now
      = (w, Raise (UnicodeDecodeError pos)).
Proof.
  intros Hext Hbad.
  destruct (Utf8.decode file) as [text|e] eqn:E;
    [apply decode_iff_encode in E; now contradiction (Hbad text)|].
  destruct (decode_raises _ _ E) as (pos & ->). exists pos.
  assert (extract_text env file filename = Raise (UnicodeDecodeError pos))
    as Hx.
  { unfold extract_text. cbv zeta. rewrite Hext.
    change (str_eqb (lit ".txt") (lit ".pdf")) with false.
    change (str_eqb (lit ".txt") (lit ".txt")) with true.
    cbv iota. exact E. }
  split; [exact Hx|]. unfold ingest_document. now rewrite Hx.
Qed.

(** The upload handler catches [ValueError], of which [UnicodeDecodeError]
    is a subclass: at the HTTP layer such a file is answered with 400. *)
Lemma undecodable_txt_upload_rejected env w filename content now :
  filename <> [] ->
  DocumentsApi.allowed (DocumentsApi.upload_ext filename) = true ->
  0 < len content <= DocumentsApi.MAX_FILE_SIZE ->
  lower (Path.suffix filename) = lit ".txt" ->
  (forall text, Utf8.encode text <> Ok content) ->
  exists detail,
    DocumentsApi.upload_document env w filename content now
    = (w, DocumentsApi.Http400 detail).
Proof.
  intros Hname Hallowed Hsize Hext Hbad.
  destruct (undecodable_txt_raises env w content filename
              (len content) now Hext Hbad) as (pos & _ & Hrun).
  unfold DocumentsApi.upload_document.
  destruct filename as [|c0 rest]; [contradiction|].
  rewrite Hallowed. cbv zeta. cbn [negb].
  assert ((len content >? DocumentsApi.MAX_FILE_SIZE) = false) as -> by lia.
  assert ((len content =? 0) = false) as -> by lia.
  rewrite Hrun. cbn [is_ValueError]. eauto.
Qed.

(** C10, as stated, fails.  The three bytes "h", "i", 0xFF are not valid
    UTF-8.  Under a [.txt] name the service raises [UnicodeDecodeError],
    which is none of the three errors of the taxonomy but is a [ValueError]
    all the same, and the upload is answered with 400 as a rejected request,
    not with 500. *)
Lemma undecodable_txt_answered_400 :
  let env := sample_env default_settings in
  (forall text, Utf8.encode text <> Ok [104; 105; 255]) /\
  ingest_document env empty_world [104; 105; 255] (lit "x.TXT") 3 0
    = (empty_world, Raise (UnicodeDecodeError 2)) /\
  ~ in_taxonomy (UnicodeDecodeError 2) /\
  is_ValueError (UnicodeDecodeError 2) = true /\
  (exists detail,
     DocumentsApi.upload_document env empty_world (lit "x.TXT")
                                  [104; 105; 255] 0
     = (empty_world, DocumentsApi.Http400 detail)) /\
  (forall detail,
     DocumentsApi.upload_document env empty_world (lit "x.TXT")
                                  [104; 105; 255] 0
     <> (empty_world, DocumentsApi.Http500 detail)).
Proof.
  cbv zeta. split; [|split; [|split; [|split; [|split]]]].
  - intros text H. apply decode_iff_encode in H. vm_compute in H.
    discriminate H.
  - vm_compute. reflexivity.
  - apply not_in_taxonomy_decode_error.
  - reflexivity.
  - eexists. vm_compute. reflexivity.
  - intros detail H. vm_compute in H. discriminate H.
Qed.

(** C10 (amended).  A file whose lower-cased suffix is [.txt] and whose
    bytes are not valid UTF-8 (they are the encoding of no string) makes
    [extract_text] raise [UnicodeDecodeError]; [ingest_document] lets it
    through with the world untouched.  The error is none of the three errors
    of the taxonomy, but it is a [ValueError] like them, so the upload
    handler answers it with 400, as a rejected request. *)
Theorem undecodable_txt_is_value_error env w file filename file_size now :
  lower (Path.suffix filename) = lit ".txt" ->
  (forall text, Utf8.encode text <> Ok file) ->
  exists pos,
    extract_text env file filename = Raise (UnicodeDecodeError pos) /\
    ingest_document env w file filename file_size now
      = (w, Raise (UnicodeDecodeError pos)) /\
    ~ in_taxonomy (UnicodeDecodeError pos) /\
    is_ValueError (UnicodeDecodeError pos) = true /\
    (filename <> [] ->
     DocumentsApi.allowed (DocumentsApi.upload_ext filename) = true ->
     0 < len file <= DocumentsApi.MAX_FILE_SIZE ->
     forall now', exists detail,
       DocumentsApi.upload_document env w filename file now'
       = (w, DocumentsApi.Http400 detail)).
Proof.
  intros Hext Hbad.
  destruct (undecodable_txt_raises env w file filename file_size now
              Hext Hbad) as (pos & Hx & Hrun).
  exists pos. split; [exact Hx|]. split; [exact Hrun|].
  split; [apply not_in_taxonomy_decode_error|]. split; [reflexivity|].
  intros Hname Hallowed Hsize now'.
  now apply undecodable_txt_upload_rejected.
Qed.

Lemma undecodable_txt_is_value_error_witness :
  exists pos,
    extract_text (sample_env default_settings) [104; 105; 255] (lit "x.TXT")
      = Raise (UnicodeDecodeError pos) /\
    ingest_document (sample_env default_settings) empty_world
                    [104; 105; 255] (lit "x.TXT") 3 0
      = (empty_world, Raise (UnicodeDecodeError pos)) /\
    ~ in_taxonomy (UnicodeDecodeError pos) /\
    is_ValueError (UnicodeDecodeError pos) = true /\
    (lit "x.TXT" <> [] ->
     DocumentsApi.allowed (DocumentsApi.upload_ext (lit "x.TXT")) = true ->
     0 < len [104; 105; 255] <= DocumentsApi.MAX_FILE_SIZE ->
     forall now', exists detail,
       DocumentsApi.upload_document (sample_env default_settings)
                                    empty_world (lit "x.TXT")
                                    [104; 105; 255] now'
       = (empty_world, DocumentsApi.Http400 detail)).
Proof.
  apply (undecodable_txt_is_value_error (sample_env default_settings)
           empty_world [104; 105; 255] (lit "x.TXT") 3 0).
  - vm_compute. reflexivity.
  - intros text H. apply decode_iff_encode in H. vm_compute in H.
    discriminate H.
Defined.

(* ================================================================== *)
(** * Scores *)
(* ================================================================== *)

Section Rounding.

Local Open Scope Q_scope.

Lemma round_half_even_cases q :
  round_half_even q = Qfloor q \/
  (round_half_even q = (Qfloor q + 1)%Z /\ inject_Z (Qfloor q) < q).
Proof.
  unfold round_half_even. cbv zeta.
  destruct (Qcompare (q - inject_Z (Qfloor q)) (1 # 2)) eqn:E.
  - destruct (Z.even (Qfloor q)); [now left|]. right. split; [reflexivity|].
    apply Qeq_alt in E.
    apply Qplus_lt_l with (z := - inject_Z (Qfloor q)).
    rewrite Qplus_opp_r. unfold Qminus in E. rewrite E. reflexivity.
  - now left.
  - right. split; [reflexivity|]. apply Qgt_alt in E.
    apply Qplus_lt_l with (z := - inject_Z (Qfloor q)).
    rewrite Qplus_opp_r. unfold Qminus in E.
    eapply Qlt_trans; [|exact E]. reflexivity.
Qed.

Lemma round_half_even_lower n q :
  inject_Z n <= q -> (n <= round_half_even q)%Z.
Proof.
  intros H. apply Qfloor_resp_le in H. rewrite Qfloor_Z in H.
  destruct (round_half_even_cases q) as [-> | [-> _]]; lia.
Qed.

Lemma round_half_even_upper n q :
  q <= inject_Z n -> (round_half_even q <= n)%Z.
Proof.
  intros H. pose proof (Qfloor_resp_le _ _ H) as Hf. rewrite Qfloor_Z in Hf.
  destruct (round_half_even_cases q) as [-> | [-> Hlt]]; [exact Hf|].
  assert (inject_Z (Qfloor q) < inject_Z n) as Hn
    by (eapply Qlt_le_trans; eauto).
  rewrite <- Zlt_Qlt in Hn. lia.
Qed.

Lemma max0_nonneg x : 0 <= max0 x.
Proof.
  unfold max0. destruct (Qlt_le_dec 0 x); [now apply Qlt_le_weak|].
  apply Qle_refl.
Qed.

Lemma max0_le_1 x : x <= 1 -> max0 x <= 1.
Proof. unfold max0. destruct (Qlt_le_dec 0 x); [auto | discriminate]. Qed.

Lemma max0_nonpos x : x <= 0 -> max0 x = 0.
Proof.
  unfold max0. destruct (Qlt_le_dec 0 x) as [H | H]; [|reflexivity].
  intros H'. exfalso. eapply Qlt_not_le; eauto.
Qed.

Lemma max0_pos x : 0 < x -> max0 x = x.
Proof.
  unfold max0. destruct (Qlt_le_dec 0 x) as [H | H]; [reflexivity|].
  intros H'. exfalso. eapply Qlt_not_le; eauto.
Qed.

Lemma scaled_lower x : 0 <= x -> inject_Z 0 <= x * 10000.
Proof. intros H. apply Qmult_le_0_compat; [exact H | discriminate]. Qed.

Lemma scaled_upper x : x <= 1 -> x * 10000 <= inject_Z 10000.
Proof.
  intros H. apply Qmult_le_compat_r with (z := 10000) in H; [|discriminate].
  now rewrite Qmult_1_l in H.
Qed.

Lemma decimal_nonneg k : (0 <= k)%Z -> 0 <= k # 10000.
Proof. intros H. unfold Qle. simpl. lia. Qed.

Lemma decimal_le_1 k : (k <= 10000)%Z -> k # 10000 <= 1.
Proof. intros H. unfold Qle. simpl. lia. Qed.

Lemma inject_Z_succ n : inject_Z (n + 1) == inject_Z n + 1.
Proof. rewrite inject_Z_plus. reflexivity. Qed.

Lemma Qfloor_half m q : q == inject_Z m + (1 # 2) -> Qfloor q = m.
Proof.
  intros H. pose proof (Qfloor_le q) as Hl. pose proof (Qlt_floor q) as Hu.
  rewrite inject_Z_succ in Hu.
  assert (inject_Z (Qfloor q) < inject_Z (m + 1)) as H1
    by (rewrite inject_Z_succ; lra).
  assert (inject_Z m < inject_Z (Qfloor q + 1)) as H2
    by (rewrite inject_Z_succ; lra).
  rewrite <- Zlt_Qlt in H1, H2. lia.
Qed.

(** [round_half_even] gives an integer nearest to its argument, the even
    one when two are equally near. *)
Lemma round_half_even_nearest q :
  inject_Z (round_half_even q) - (1 # 2) <= q /\
  q <= inject_Z (round_half_even q) + (1 # 2) /\
  (forall m, q == inject_Z m + (1 # 2) ->
             Z.even (round_half_even q) = true).
Proof.
  pose proof (Qfloor_le q) as Hl. pose proof (Qlt_floor q) as Hu.
  rewrite inject_Z_succ in Hu.
  unfold round_half_even. cbv zeta.
  destruct (Qcompare (q - inject_Z (Qfloor q)) (1 # 2)) eqn:E.
  - apply Qeq_alt in E.
    assert (forall m, q == inject_Z m + (1 # 2) ->
              Z.even (if Z.even (Qfloor q) then Qfloor q
                      else (Qfloor q + 1)%Z) = true) as Hev.
    { intros m Hm. destruct (Z.even (Qfloor q)) eqn:Ev; [exact Ev|].
      rewrite Z.even_add, Ev. reflexivity. }
    destruct (Z.even (Qfloor q)).
    + repeat split; try lra. exact Hev.
    + rewrite inject_Z_succ. repeat split; try lra. exact Hev.
  - apply Qlt_alt in E. repeat split; try lra.
    intros m Hm. exfalso. rewrite (Qfloor_half m q Hm) in E. lra.
  - apply Qgt_alt in E. rewrite inject_Z_succ. repeat split; try lra.
    intros m Hm. exfalso. rewrite (Qfloor_half m q Hm) in E. lra.
Qed.

Lemma decimal_scaled n : (n # 10000) * 10000 == inject_Z n.
Proof. unfold Qeq. simpl. lia. Qed.

(** [round4] gives the float of a decimal with four places that is within
    half a unit of the last place of its argument. *)
Lemma round4_nearest fl x :
  exists n : Z,
    round4 fl x = fl (n # 10000) /\
    (n # 10000) - (1 # 20000) <= x /\ x <= (n # 10000) + (1 # 20000) /\
    (forall m, x * 10000 == inject_Z m + (1 # 2) -> Z.even n = true) /\
    (0 <= x -> (0 <= n)%Z) /\ (x <= 1 -> (n <= 10000)%Z).
Proof.
  exists (round_half_even (x * 10000)). split; [reflexivity|].
  destruct (round_half_even_nearest (x * 10000)) as (Hl & Hu & Hev).
  pose proof (decimal_scaled (round_half_even (x * 10000))) as Hd.
  repeat split; try lra; try exact Hev.
  - intros H. apply round_half_even_lower. change (inject_Z 0) with 0. lra.
  - intros H. apply round_half_even_upper.
    change (inject_Z 10000) with 10000. lra.
Qed.

Variable fl : rounding.
Hypothesis fl_monotone : forall x y, x <= y -> fl x <= fl y.
Hypothesis fl_0 : fl 0 == 0.
Hypothesis fl_1 : fl 1 == 1.

Lemma Qeq_le x y : x == y -> x <= y.
Proof. intros H. apply Qle_lteq. now right. Qed.

Lemma Qeq_ge x y : x == y -> y <= x.
Proof. intros H. apply Qle_lteq. right. now symmetry. Qed.

Lemma fl_proper x y : x == y -> fl x == fl y.
Proof.
  intros H. apply Qle_antisym; apply fl_monotone;
    [now apply Qeq_le | now apply Qeq_ge].
Qed.

Lemma fl_nonneg x : 0 <= x -> 0 <= fl x.
Proof.
  intros H. apply Qle_trans with (fl 0);
    [apply Qeq_ge, fl_0 | now apply fl_monotone].
Qed.

Lemma fl_nonpos x : x <= 0 -> fl x <= 0.
Proof.
  intros H. apply Qle_trans with (fl 0);
    [now apply fl_monotone | apply Qeq_le, fl_0].
Qed.

Lemma fl_le_1 x : x <= 1 -> fl x <= 1.
Proof.
  intros H. apply Qle_trans with (fl 1);
    [now apply fl_monotone | apply Qeq_le, fl_1].
Qed.

Lemma fl_ge_1 x : 1 <= x -> 1 <= fl x.
Proof.
  intros H. apply Qle_trans with (fl 1);
    [apply Qeq_ge, fl_1 | now apply fl_monotone].
Qed.

Lemma round4_nonneg x : 0 <= x -> 0 <= round4 fl x.
Proof.
  intros H. unfold round4. apply fl_nonneg.
  apply decimal_nonneg, round_half_even_lower, scaled_lower, H.
Qed.

Lemma round4_le_1 x : x <= 1 -> round4 fl x <= 1.
Proof.
  intros H. unfold round4. apply fl_le_1.
  apply decimal_le_1, round_half_even_upper, scaled_upper, H.
Qed.

Lemma round4_zero : round4 fl 0 == 0.
Proof.
  apply Qle_antisym; [|apply round4_nonneg, Qle_refl].
  unfold round4. apply fl_nonpos. vm_compute. discriminate.
Qed.

Lemma round4_one x : x == 1 -> round4 fl x == 1.
Proof.
  intros H. apply Qle_antisym.
  - apply round4_le_1. now apply Qeq_le.
  - unfold round4. apply fl_ge_1.
    assert (inject_Z 10000 <= x * 10000) as Hl.
    { apply Qle_trans with (1 * 10000); [vm_compute; discriminate|].
      apply Qmult_le_compat_r; [now apply Qeq_ge | discriminate]. }
    apply round_half_even_lower in Hl. unfold Qle. simpl. lia.
Qed.

Lemma one_minus_le_1 d : 0 <= d -> 1 - d <= 1.
Proof.
  intros H. apply Qopp_le_compat in H.
  apply Qle_trans with (1 + - 0); [|vm_compute; discriminate].
  apply Qplus_le_compat; [apply Qle_refl | exact H].
Qed.

Lemma one_minus_nonpos d : 1 <= d -> 1 - d <= 0.
Proof.
  intros H. apply Qopp_le_compat in H.
  apply Qle_trans with (1 + - (1)); [|vm_compute; discriminate].
  apply Qplus_le_compat; [apply Qle_refl | exact H].
Qed.

Lemma one_minus_zero d : d == 0 -> 1 - d == 1.
Proof.
  intros H. apply Qeq_trans with (1 + - 0); [|reflexivity].
  apply Qplus_comp; [reflexivity | apply Qopp_comp, H].
Qed.

Lemma score_of_nonneg d : 0 <= score_of fl d.
Proof. apply round4_nonneg, max0_nonneg. Qed.

Lemma score_of_le_1 d : 0 <= d -> score_of fl d <= 1.
Proof.
  intros H. apply round4_le_1, max0_le_1, fl_le_1, one_minus_le_1, H.
Qed.

Lemma score_of_zero_distance d : d == 0 -> score_of fl d == 1.
Proof.
  intros H. apply round4_one.
  assert (fl (1 - d) == 1) as E.
  { apply Qeq_trans with (fl 1); [|exact fl_1].
    apply fl_proper, one_minus_zero, H. }
  rewrite max0_pos; [exact E|].
  apply Qlt_le_trans with 1; [reflexivity | now apply Qeq_ge].
Qed.

Lemma score_of_far_distance d : 1 <= d -> score_of fl d == 0.
Proof.
  intros H. unfold score_of. cbv zeta. rewrite max0_nonpos.
  - apply round4_zero.
  - apply fl_nonpos, one_minus_nonpos, H.
Qed.

End Rounding.

(* ================================================================== *)
(** * The search results *)
(* ================================================================== *)

Section SearchResults.

Local Open Scope Q_scope.

Variable fl : rounding.

Lemma getitem_ok {A} (l : list A) i x :
  getitem l i = Ok x <-> nth_error l i = Some x.
Proof.
  unfold getitem. destruct (nth_error l i); split; congruence.
Qed.

Lemma new_SourceChunk_ok doc name i text s ch :
  new_SourceChunk doc name i text s = Ok ch ->
  score ch = s /\ 0 <= s <= 1 /\ sc_content ch = text /\
  sc_document_id ch = doc /\ sc_document_name ch = name /\
  sc_chunk_index ch = i.
Proof.
  unfold new_SourceChunk.
  destruct (Qle_bool 0 s && Qle_bool s 1) eqn:E; [|discriminate].
  intros [= <-]. apply andb_true_iff in E as [E0 E1].
  apply Qle_bool_iff in E0, E1. simpl. repeat split; assumption.
Qed.

Lemma new_SourceChunk_total doc name i text s :
  0 <= s <= 1 -> exists ch, new_SourceChunk doc name i text s = Ok ch.
Proof.
  intros [H0 H1]. unfold new_SourceChunk.
  apply Qle_bool_iff in H0, H1. rewrite H0, H1. simpl. eauto.
Qed.

(** The chunk built at position [k] of the loop carries the score of the
    distance at position [k]. *)
Lemma convert_from_spec results chunk_ids : forall i chunks,
  convert_from fl results i chunk_ids = Ok chunks ->
  length chunks = length chunk_ids /\
  forall k ch, nth_error chunks k = Some ch ->
    exists ds d,
      nth_error (distances results) 0 = Some ds /\
      nth_error ds (i + k) = Some d /\
      score ch = score_of fl d /\ 0 <= score ch <= 1.
Proof.
  induction chunk_ids as [|chunk_id rest IH]; intros i chunks; simpl.
  - intros [= <-]. split; [reflexivity|]. intros [|k] ch H; discriminate H.
  - unfold bind.
    destruct (getitem (metadatas results) 0) as [ms|]; [|discriminate].
    destruct (getitem ms i) as [metadata|]; [|discriminate].
    destruct (getitem (documents results) 0) as [docs|]; [|discriminate].
    destruct (getitem docs i) as [document|]; [|discriminate].
    destruct (getitem (distances results) 0) as [ds|] eqn:Eds;
      [|discriminate].
    destruct (getitem ds i) as [d|] eqn:Ed; [|discriminate].
    destruct (new_SourceChunk _ _ _ _ _) as [chunk|] eqn:Enew;
      [|discriminate].
    destruct (convert_from fl results (S i) rest) as [chunks'|] eqn:Erest;
      [|discriminate].
    intros [= <-]. destruct (IH _ _ Erest) as [Hlen Hk].
    split; [simpl; now rewrite Hlen|].
    apply getitem_ok in Eds, Ed.
    apply new_SourceChunk_ok in Enew as (Hs & Hb & _).
    intros [|k] ch H; simpl in H.
    + injection H as <-. exists ds, d. rewrite Nat.add_0_r, Hs. auto.
    + destruct (Hk k ch H) as (ds' & d' & Hds' & Hd' & Hsc).
      exists ds', d'. rewrite Nat.add_succ_r. auto.
Qed.

Lemma insert_desc_perm x l : Permutation (x :: l) (insert_desc x l).
Proof.
  induction l as [|y l IH]; simpl; [reflexivity|].
  destruct (Qle_bool (score y) (score x)); [reflexivity|].
  rewrite perm_swap. now constructor.
Qed.

Lemma sort_desc_perm l : Permutation l (sort_desc l).
Proof.
  induction l as [|x l IH]; simpl; [constructor|].
  rewrite <- insert_desc_perm. now constructor.
Qed.

Lemma search_ok env collection_query c query top_k chunks :
  search fl env collection_query c query top_k = Ok chunks ->
  (c = [] /\ chunks = []) \/
  exists query_embedding converted,
    embed_query env query = Ok query_embedding /\
    convert fl (collection_query c query_embedding
                  match top_k with
                  | None => retrieval_top_k (settings env)
                  | Some k => k
                  end) = Ok converted /\
    chunks = sort_desc converted.
Proof.
  unfold search. cbv zeta.
  destruct (Chroma.count c =? 0)%Z eqn:E.
  - intros [= <-]. left. split; [|reflexivity].
    apply Z.eqb_eq in E. unfold Chroma.count, len in E.
    destruct c; [reflexivity | discriminate].
  - unfold bind.
    destruct (embed_query env query) as [query_embedding|]; [|discriminate].
    destruct (convert fl _) as [converted|] eqn:Ec; [|discriminate].
    intros [= <-]. right. eauto.
Qed.

Hypothesis fl_monotone : forall x y, x <= y -> fl x <= fl y.
Hypothesis fl_0 : fl 0 == 0.
Hypothesis fl_1 : fl 1 == 1.

(** With non-negative distances and parallel lists the conversion raises
    nothing. *)
Lemma convert_from_total results ms docs ds chunk_ids : forall i,
  nth_error (metadatas results) 0 = Some ms ->
  nth_error (documents results) 0 = Some docs ->
  nth_error (distances results) 0 = Some ds ->
  (i + length chunk_ids <= length ms)%nat ->
  (i + length chunk_ids <= length docs)%nat ->
  (i + length chunk_ids <= length ds)%nat ->
  Forall (fun d => 0 <= d) ds ->
  exists chunks, convert_from fl results i chunk_ids = Ok chunks.
Proof.
  induction chunk_ids as [|chunk_id rest IH];
    intros i Hms Hdocs Hds Lm Ld Lx Hpos; simpl; [eauto|].
  simpl in Lm, Ld, Lx.
  apply getitem_ok in Hms as Gms. apply getitem_ok in Hdocs as Gdocs.
  apply getitem_ok in Hds as Gds. rewrite Gms, Gdocs, Gds. simpl.
  destruct (nth_error ms i) as [metadata|] eqn:Em;
    [|apply nth_error_None in Em; lia].
  destruct (nth_error docs i) as [document|] eqn:Ed;
    [|apply nth_error_None in Ed; lia].
  destruct (nth_error ds i) as [d|] eqn:Ex;
    [|apply nth_error_None in Ex; lia].
  apply getitem_ok in Em as ->. apply getitem_ok in Ed as ->.
  pose proof (nth_error_In _ _ Ex) as Hin.
  apply getitem_ok in Ex as ->. simpl.
  rewrite Forall_forall in Hpos. pose proof (Hpos d Hin) as Hd.
  destruct (new_SourceChunk_total (document_id metadata)
              (document_name metadata) (Z.of_nat (chunk_index metadata))
              document (score_of fl d)) as (chunk & ->).
  { split; [now apply score_of_nonneg | now apply score_of_le_1]. }
  simpl.
  destruct (IH (S i) Hms Hdocs Hds) as (chunks & ->); try lia.
  - now apply Forall_forall.
  - simpl. eauto.
Qed.

(** C6.  The score attached to a chunk is [max(0, 1 - distance)] rounded to
    four decimals: it is the float of a decimal with four places that lies
    within half a unit of the last place of [max(0, 1 - distance)], the one
    with an even last digit when two are equally near.  It is 1 for a
    distance of 0, 0 for every distance of 1 or more, never negative, and at
    most 1 for every non-negative distance.  In the list [search] returns,
    which is a reordering of the chunks built from the store's answer, the
    chunk built at position [k] carries the score of the distance at
    position [k], and every score lies in [[0, 1]]; with non-negative
    distances and parallel lists the conversion goes through. *)
Theorem score_is_clamped_similarity :
  (forall d, exists n : Z,
     score_of fl d = fl (n # 10000) /\
     (n # 10000) - (1 # 20000) <= max0 (fl (1 - d)) /\
     max0 (fl (1 - d)) <= (n # 10000) + (1 # 20000) /\
     (forall m, max0 (fl (1 - d)) * 10000 == inject_Z m + (1 # 2) ->
                Z.even n = true) /\
     (0 <= n)%Z /\ (0 <= d -> (n <= 10000)%Z)) /\
  (forall d, d == 0 -> score_of fl d == 1) /\
  (forall d, 1 <= d -> score_of fl d == 0) /\
  (forall d, 0 <= score_of fl d) /\
  (forall d, 0 <= d -> score_of fl d <= 1) /\
  (forall results converted,
     convert fl results = Ok converted ->
     forall k ch, nth_error converted k = Some ch ->
       exists ds d,
         nth_error (distances results) 0 = Some ds /\
         nth_error ds k = Some d /\
         score ch = score_of fl d /\ 0 <= score ch <= 1) /\
  (forall env collection_query c query top_k chunks,
     search fl env collection_query c query top_k = Ok chunks ->
     (c = [] /\ chunks = []) \/
     exists query_embedding converted,
       embed_query env query = Ok query_embedding /\
       convert fl (collection_query c query_embedding
                     match top_k with
                     | None => retrieval_top_k (settings env)
                     | Some k => k
                     end) = Ok converted /\
       Permutation converted chunks /\
       Forall (fun ch => 0 <= score ch <= 1) chunks) /\
  (forall results chunk_ids ms docs ds,
     ids results = [chunk_ids] -> metadatas results = [ms] ->
     documents results = [docs] -> distances results = [ds] ->
     length ms = length chunk_ids -> length docs = length chunk_ids ->
     length ds = length chunk_ids -> Forall (fun d => 0 <= d) ds ->
     exists converted,
       convert fl results = Ok converted /\
       length converted = length chunk_ids).
Proof.
  split.
  { intros d.
    destruct (round4_nearest fl (max0 (fl (1 - d))))
      as (n & E & Hl & Hu & Hev & Hlo & Hhi).
    exists n. split; [exact E|]. split; [exact Hl|]. split; [exact Hu|].
    split; [exact Hev|]. split; [apply Hlo, max0_nonneg|].
    intros Hd. apply Hhi, max0_le_1. apply fl_le_1; auto.
    now apply one_minus_le_1. }
  split; [now apply score_of_zero_distance|].
  split; [now apply score_of_far_distance|].
  split; [now apply score_of_nonneg|].
  split; [now apply score_of_le_1|].
  assert (forall results converted,
     convert fl results = Ok converted ->
     forall k ch, nth_error converted k = Some ch ->
       exists ds d,
         nth_error (distances results) 0 = Some ds /\
         nth_error ds k = Some d /\
         score ch = score_of fl d /\ 0 <= score ch <= 1) as Hconv.
  { intros results converted Hc k ch Hk. unfold convert in Hc.
    destruct (ids results) as [|chunk_ids rest].
    - injection Hc as <-. destruct k; discriminate Hk.
    - apply convert_from_spec in Hc as [_ Hc]. exact (Hc k ch Hk). }
  split; [exact Hconv|]. split.
  - intros env collection_query c query top_k chunks Hs.
    apply search_ok in Hs
      as [Hs | (query_embedding & converted & He & Hc & ->)];
      [now left|].
    right. exists query_embedding, converted.
    split; [exact He|]. split; [exact Hc|].
    split; [apply sort_desc_perm|].
    eapply Permutation_Forall; [apply sort_desc_perm|].
    apply Forall_forall. intros ch Hin.
    apply In_nth_error in Hin as (k & Hk).
    destruct (Hconv _ _ Hc k ch Hk) as (_ & _ & _ & _ & _ & Hb). exact Hb.
  - intros results chunk_ids ms docs ds Hi Hm Hd Hx Lm Ld Lx Hpos.
    unfold convert. rewrite Hi.
    destruct (convert_from_total results ms docs ds chunk_ids 0)
      as (converted & Hc); try lia;
      try (rewrite ?Hm, ?Hd, ?Hx; reflexivity); [exact Hpos|].
    exists converted. split; [exact Hc|].
    now apply convert_from_spec in Hc as [Hlen _].
Qed.

End SearchResults.

(** With exact arithmetic as the rounding, on a distance for which every
    value on the way is a binary fraction, so that floating point computes
    the same: a distance of 12287/32768 gives the similarity
    20481/32768 = 0.625030517578125, which scores 0.6250 = 5/8. *)
Lemma score_is_clamped_similarity_witness :
  exists n : Z,
    score_of (fun q => q) (12287 # 32768) = (fun q => q) (n # 10000) /\
    n = 6250%Z /\
    ((n # 10000) - (1 # 20000)
     <= max0 ((fun q => q) (1 - (12287 # 32768))))%Q /\
    (max0 ((fun q => q) (1 - (12287 # 32768)))
     <= (n # 10000) + (1 # 20000))%Q /\
    (0 <= score_of (fun q => q) (12287 # 32768) <= 1)%Q.
Proof.
  destruct (score_is_clamped_similarity (fun q => q))
    as (Hr & _ & _ & Hlo & Hhi & _).
  - auto.
  - reflexivity.
  - reflexivity.
  - destruct (Hr (12287 # 32768)) as (n & E & Hl & Hu & _).
    exists n. split; [exact E|]. split.
    + vm_compute in E. injection E as E. symmetry. exact E.
    + split; [exact Hl|]. split; [exact Hu|].
      split; [apply Hlo | apply Hhi]. vm_compute. discriminate.
Defined.

(* ================================================================== *)
(** * The prompt *)
(* ================================================================== *)

Section Substrings.

Lemma prefixb_app n r : prefixb n (n ++ r) = true.
Proof.
  induction n as [|c n IH]; simpl; [reflexivity|].
  now rewrite Z.eqb_refl, IH.
Qed.



Lemma join_In sep parts p :
  In p parts -> exists a b, join sep parts = a ++ p ++ b.
Proof.
  induction parts as [|q parts IH]; intros H; [contradiction|].
  destruct H as [-> | H].
  - destruct parts as [|q' parts']; simpl.
    + exists [], []. now rewrite app_nil_r.
    + exists [], (sep ++ join sep (q' :: parts')). reflexivity.
  - destruct (IH H) as (a & b & E).
    destruct parts as [|q' parts']; [contradiction|].
    exists (q ++ sep ++ a), b.
    change (join sep (q :: q' :: parts'))
      with (q ++ sep ++ join sep (q' :: parts')).
    rewrite E. now rewrite <- !app_assoc.
Qed.


End Substrings.

Section Prompt.



End Prompt.


(* ================================================================== *)
(** * The event stream *)
(* ================================================================== *)

Section Stream.

Lemma content_events_spec chunks :
  Forall (fun e => exists text, e = content_event text /\ text <> [])
         (content_events chunks).
Proof.
  induction chunks as [|chunk rest IH]; simpl; [constructor|].
  destruct (delta_of chunk) as [text|] eqn:E; [|exact IH].
  constructor; [|exact IH]. exists text. split; [reflexivity|].
  unfold delta_of in E.
  destruct (choices chunk) as [|[[|c t]|] ?]; try discriminate.
  injection E as <-. discriminate.
Qed.

Lemma protocol_streaming contents :
  Forall (fun e => exists text, e = content_event text /\ text <> [])
         contents ->
  fold_left protocol_step contents Streaming = Streaming.
Proof.
  induction 1 as [|e contents (text & -> & Hne) _ IH]; simpl;
    [reflexivity|].
  destruct text; [contradiction | exact IH].
Qed.

Lemma filter_contents (p : Event -> bool) contents :
  (forall text, p (content_event text) = false) ->
  Forall (fun e => exists text, e = content_event text /\ text <> [])
         contents ->
  filter p contents = [].
Proof.
  intros Hp H. apply filter_none. rewrite Forall_forall in H.
  intros e He. destruct (H e He) as (text & -> & _). apply Hp.
Qed.

End Stream.

(** C7.  Whatever the model's stream does, the events sent are: the sources
    event, then the content events of the non-empty deltas in order, then
    one terminal event, [done] when the stream ended normally and [error]
    with the exception's message when it failed.  The sequence has exactly
    one sources event and exactly one terminal event, which is its last
    element, no content event is empty, and the protocol automaton ends in
    its closed state. *)
Theorem stream_protocol chat_stream question sources history :
  let stream := chat_stream (build_rag_prompt question sources history) in
  let events := event_generator chat_stream question sources history in
  let contents := content_events (stream_chunks stream) in
  let terminal := match stream_failure stream with
                  | None => done_event
                  | Some e => error_event (exn_str e)
                  end in
  events = sources_event sources :: contents ++ [terminal] /\
  Forall (fun e => exists text, e = content_event text /\ text <> [])
         contents /\
  is_terminal terminal = true /\
  length (filter is_sources events) = 1%nat /\
  length (filter is_terminal events) = 1%nat /\
  last events (sources_event []) = terminal /\
  protocol_run events = Closed.
Proof.
  intros stream events contents terminal.
  pose proof (content_events_spec (stream_chunks stream)) as Hc.
  fold contents in Hc.
  assert (events = sources_event sources :: contents ++ [terminal]) as E.
  { unfold events, event_generator, generate_stream. cbv zeta.
    fold stream. unfold terminal.
    destruct (stream_failure stream); simpl; reflexivity. }
  assert (is_terminal terminal = true) as Ht
    by (unfold terminal; destruct (stream_failure stream); reflexivity).
  split; [exact E|]. split; [exact Hc|]. split; [exact Ht|].
  rewrite E. repeat split.
  - simpl. rewrite filter_app, filter_contents by (auto; exact Hc).
    unfold terminal. destruct (stream_failure stream); reflexivity.
  - simpl. rewrite filter_app, filter_contents by (auto; exact Hc).
    simpl. now rewrite Ht.
  - change (?x :: ?l ++ [?y]) with ((x :: l) ++ [y]). apply last_last.
  - unfold protocol_run. simpl. rewrite fold_left_app.
    rewrite protocol_streaming by exact Hc.
    unfold terminal. destruct (stream_failure stream); reflexivity.
Qed.
Import ChunkShape.

(* ================================================================== *)
(** * More about the chunker *)
(* ================================================================== *)

Section ChunkShapes.

Lemma re_sub_ws_single_spaced text : forall in_run,
  single_spaced (re_sub_ws in_run text) /\
  (in_run = true -> starts_nonws (re_sub_ws in_run text)).
Proof.
  induction text as [|c rest IH]; intros in_run; simpl; [auto|].
  destruct (isspace c) eqn:E.
  - destruct (IH true) as [Hs Hn]. destruct in_run.
    + split; [exact Hs | auto].
    + split; [|discriminate]. simpl. split; [|exact Hs].
      intros _. split; [reflexivity|].
      specialize (Hn eq_refl). destruct (re_sub_ws true rest); auto.
  - destruct (IH false) as [Hs _]. split; [|intros _; exact E].
    simpl. split; [|exact Hs]. intros H. congruence.
Qed.

Lemma single_spaced_app a b :
  single_spaced (a ++ b) -> single_spaced a /\ single_spaced b.
Proof.
  induction a as [|c a IH]; simpl; [auto|].
  intros [Hc Hs]. destruct (IH Hs) as [Ha Hb]. split; [|exact Hb].
  split; [|exact Ha]. intros E. destruct (Hc E) as [-> Hd].
  split; [reflexivity|]. destruct a; [exact I | exact Hd].
Qed.

Lemma rstrip_split s : exists trail, s = rstrip s ++ trail.
Proof.
  unfold rstrip. destruct (lstrip_split (rev s)) as (lead & H & _).
  exists (rev lead). rewrite <- rev_app_distr, <- H.
  now rewrite rev_involutive.
Qed.

Lemma clean_single_spaced text : single_spaced (clean text).
Proof.
  unfold clean, strip.
  destruct (re_sub_ws_single_spaced text false) as [H _].
  destruct (lstrip_split (re_sub_ws false text)) as (lead & E & _).
  rewrite E in H. apply single_spaced_app in H as [_ H].
  destruct (rstrip_split (lstrip (re_sub_ws false text))) as (trail & E').
  rewrite E' in H. now apply single_spaced_app in H as [H _].
Qed.

Lemma clean_starts text : starts_nonws (clean text).
Proof.
  unfold clean.
  destruct (strip_shape (re_sub_ws false text)) as [-> | [(c & r & -> & E) _]];
    [exact I | exact E].
Qed.

Lemma lstrip_starts s : starts_nonws s -> lstrip s = s.
Proof. destruct s as [|c s]; simpl; [auto | now intros ->]. Qed.

Lemma tight_strip p : tight p -> strip p = p.
Proof.
  intros [Hs He]. rewrite strip_of_ends by exact He. now apply lstrip_starts.
Qed.

Lemma starts_nonws_app a b :
  a <> [] -> starts_nonws (a ++ b) -> starts_nonws a.
Proof. destruct a; [contradiction | auto]. Qed.

Lemma split_sentences_aux_starts text : forall after_end in_sep cur,
  single_spaced text ->
  starts_nonws (rev cur ++ text) ->
  (after_end = true -> rev cur <> []) ->
  (in_sep = true -> starts_nonws text) ->
  Forall starts_nonws (split_sentences_aux after_end in_sep cur text).
Proof.
  induction text as [|c rest IH];
    intros after_end in_sep cur Hss Hst Hae Hin; simpl.
  - rewrite app_nil_r in Hst. now constructor.
  - destruct Hss as [Hc Hss]. destruct (isspace c) eqn:E.
    + destruct in_sep; [specialize (Hin eq_refl); simpl in Hin; congruence|].
      destruct (Hc eq_refl) as [-> Hnext].
      assert (starts_nonws rest) as Hrest by (destruct rest; auto).
      destruct after_end.
      * constructor.
        -- eapply starts_nonws_app; [now apply Hae | exact Hst].
        -- apply IH; auto; discriminate.
      * apply IH; auto; try discriminate.
        simpl. now rewrite <- app_assoc.
    + apply IH; auto; try discriminate.
      * simpl. now rewrite <- app_assoc.
      * intros _. simpl. now destruct (rev cur).
Qed.

Lemma join_cons sep p q rest :
  join sep (p :: q :: rest) = p ++ sep ++ join sep (q :: rest).
Proof. reflexivity. Qed.

Lemma split_sentences_aux_join text : forall after_end in_sep cur,
  single_spaced text ->
  (in_sep = true -> starts_nonws text) ->
  join [SP] (split_sentences_aux after_end in_sep cur text) = rev cur ++ text.
Proof.
  induction text as [|c rest IH]; intros after_end in_sep cur Hss Hin; simpl.
  - now rewrite app_nil_r.
  - destruct Hss as [Hc Hss]. destruct (isspace c) eqn:E.
    + destruct in_sep; [specialize (Hin eq_refl); simpl in Hin; congruence|].
      destruct (Hc eq_refl) as [-> Hnext].
      assert (starts_nonws rest) as Hrest by (destruct rest; auto).
      destruct after_end.
      * pose proof (split_sentences_aux_nonempty rest false true []) as Hne.
        pose proof (IH false true [] Hss (fun _ => Hrest)) as Hj.
        destruct (split_sentences_aux false true [] rest) as [|q qs];
          [contradiction|].
        rewrite join_cons, Hj. reflexivity.
      * rewrite IH by (auto; discriminate). simpl.
        now rewrite <- app_assoc.
    + rewrite IH by (auto; discriminate). simpl. now rewrite <- app_assoc.
Qed.

(** The sentences of a cleaned text are tight, and joining them with single
    spaces gives the text back. *)
Lemma split_sentences_clean text :
  clean text <> [] ->
  Forall tight (split_sentences (clean text)) /\
  join [SP] (split_sentences (clean text)) = clean text.
Proof.
  intros Hne. split.
  - pose proof (split_sentences_ends _ (clean_ends _ Hne)) as He.
    assert (Forall starts_nonws (split_sentences (clean text))) as Hs.
    { apply split_sentences_aux_starts; try discriminate.
      - apply clean_single_spaced.
      - apply clean_starts. }
    rewrite Forall_forall in *. intros p Hp. split; auto.
  - apply (split_sentences_aux_join (clean text) false false []);
      [apply clean_single_spaced | discriminate].
Qed.

End ChunkShapes.


Section ChunkTheorems.

Lemma single_spaced_suffix n s : single_spaced s -> single_spaced (skipn n s).
Proof.
  intros H. rewrite <- (firstn_skipn n s) in H.
  now apply single_spaced_app in H as [_ H].
Qed.

Lemma strip_single_spaced s : single_spaced s -> single_spaced (strip s).
Proof.
  intros H. unfold strip.
  destruct (lstrip_split s) as (lead & E & _). rewrite E in H.
  apply single_spaced_app in H as [_ H].
  destruct (rstrip_split (lstrip s)) as (trail & E'). rewrite E' in H.
  now apply single_spaced_app in H as [H _].
Qed.

Lemma single_spaced_sep a p :
  single_spaced a -> a = [] \/ ends_nonws a ->
  single_spaced p -> starts_nonws p -> p <> [] ->
  single_spaced (a ++ SP :: p).
Proof.
  intros Ha Hend Hp Hs Hne. induction a as [|c a IH]; simpl.
  - split; [|exact Hp]. intros _. split; [reflexivity|].
    destruct p; [contradiction | exact Hs].
  - destruct Ha as [Hc Ha]. split.
    + intros E. destruct (Hc E) as [-> Hd]. split; [reflexivity|].
      destruct a as [|d a']; [|exact Hd]. simpl.
      destruct Hend as [H | (s' & x & H & Hx)]; [discriminate|].
      destruct s' as [|y s']; simpl in H.
      * injection H as <-. discriminate.
      * injection H as _ H. now destruct s'.
    + apply IH; [exact Ha|].
      destruct a as [|d a']; [now left|]. right.
      destruct Hend as [H | H]; [discriminate|].
      destruct (isspace c) eqn:E.
      * now apply (ends_nonws_after_space [] c (d :: a')).
      * destruct H as (s' & x & H & Hx).
        destruct s' as [|y s']; [discriminate|]. injection H as _ H.
        now exists s', x.
Qed.

Lemma split_sentences_aux_single text : forall after_end in_sep cur,
  single_spaced (rev cur ++ text) ->
  (in_sep = true -> cur = []) ->
  Forall single_spaced (split_sentences_aux after_end in_sep cur text).
Proof.
  induction text as [|c rest IH]; intros after_end in_sep cur H Hin; simpl.
  - rewrite app_nil_r in H. now constructor.
  - destruct (isspace c).
    + destruct in_sep; [|destruct after_end].
      * rewrite (Hin eq_refl) in *. apply IH; [|reflexivity].
        simpl in *. now destruct H.
      * constructor.
        -- now apply single_spaced_app in H as [H _].
        -- apply IH; [|reflexivity]. simpl.
           apply single_spaced_app in H as [_ H]. now destruct H.
      * apply IH; [|discriminate]. simpl. now rewrite <- app_assoc.
    + apply IH; [|discriminate]. simpl. now rewrite <- app_assoc.
Qed.

Lemma strip_tight s : ends_nonws s -> tight (strip s).
Proof.
  intros H. destruct (strip_shape s) as [E | [(c & r & E & Hc) He]].
  - exfalso. eapply strip_nonblank; [|exact E].
    now apply ends_nonws_has_nonws.
  - split; [|exact He]. rewrite E. exact Hc.
Qed.

Lemma reseed_single_spaced ov s : single_spaced s -> single_spaced (reseed ov s).
Proof.
  intros H. unfold reseed, slice_from. destruct (ov =? 0); [exact I|].
  now apply single_spaced_suffix.
Qed.

Lemma reseed_ends ov s :
  ends_nonws s -> reseed ov s = [] \/ ends_nonws (reseed ov s).
Proof.
  intros (s' & c & -> & Hc). unfold reseed, slice_from.
  destruct (ov =? 0); [now left|].
  set (k := Z.to_nat _). clearbody k.
  destruct (Nat.le_gt_cases k (length s')) as [Hk | Hk].
  - right. rewrite skipn_app.
    replace (k - length s')%nat with 0%nat by lia. simpl.
    now exists (skipn k s'), c.
  - left. rewrite skipn_all2; [reflexivity|].
    rewrite length_app. simpl. lia.
Qed.

Lemma add_piece_invariant tc oc st p :
  loop_invariant st -> tight p -> single_spaced p ->
  loop_invariant (add_piece tc oc [SP] st p).
Proof.
  intros (Hchunks & Hss & Hend) [Hps Hpe] Hpss.
  assert (p <> []) as Hpne by now apply ends_nonws_nonempty.
  unfold add_piece, flush_if_full. destruct st as [chunks cur]. simpl in *.
  destruct (len cur + len p >? tc); [destruct cur as [|c0 cur0] eqn:Ecur|].
  - split; [|split]; simpl.
    + exact Hchunks.
    + now apply (single_spaced_sep []).
    + right. now apply (ends_nonws_app [SP]).
  - destruct Hend as [Hend | Hend]; [discriminate|].
    split; [|split]; simpl.
    + apply Forall_app. split; [exact Hchunks|]. constructor; [|constructor].
      split; [now apply strip_tight | now apply strip_single_spaced].
    + apply single_spaced_sep; auto.
      * now apply reseed_single_spaced.
      * now apply reseed_ends.
    + right. now apply ends_nonws_app, (ends_nonws_app [SP]).
  - split; [|split]; simpl.
    + exact Hchunks.
    + now apply single_spaced_sep.
    + right. now apply ends_nonws_app, (ends_nonws_app [SP]).
Qed.

Lemma fold_add_piece_invariant tc oc pieces : forall st,
  loop_invariant st -> Forall tight pieces -> Forall single_spaced pieces ->
  loop_invariant (fold_left (add_piece tc oc [SP]) pieces st).
Proof.
  induction pieces as [|p ps IH]; intros st Hst Ht Hs; simpl; [exact Hst|].
  inversion_clear Ht. inversion_clear Hs.
  apply IH; auto. now apply add_piece_invariant.
Qed.

Lemma finish_invariant st :
  loop_invariant st -> Forall well_formed_chunk (finish st).
Proof.
  intros (Hchunks & Hss & Hend). destruct st as [chunks cur]. simpl in *.
  unfold finish. destruct (strip cur) eqn:E; [exact Hchunks|].
  rewrite <- E. apply Forall_app. split; [exact Hchunks|].
  constructor; [|constructor].
  destruct Hend as [-> | Hend]; [discriminate|].
  split; [now apply strip_tight | now apply strip_single_spaced].
Qed.

(** The two shapes of a run on a text that is not blank. *)
Lemma chunk_text_cases settings text :
  clean text <> [] ->
  (len (clean text) <= chunk_size settings * 4 /\
   chunk_text settings text = [clean text]) \/
  (chunk_size settings * 4 < len (clean text) /\
   chunk_text settings text =
   finish (fold_left (add_piece (chunk_size settings * 4)
                                (chunk_overlap settings * 4) [SP])
                     (split_sentences (clean text)) ([], []))).
Proof.
  intros Hne. rewrite chunk_text_one_paragraph.
  destruct (clean text) as [|c t] eqn:E; [contradiction|]. rewrite <- E in *.
  rewrite add_paragraph_clean by exact Hne.
  destruct (len (clean text) >? chunk_size settings * 4) eqn:L.
  - right. split; [lia | reflexivity].
  - left. split; [lia|]. rewrite add_piece_empty_buffer.
    unfold finish. simpl app. rewrite strip_after_blank_line, strip_clean.
    rewrite E. reflexivity.
Qed.

(** X1.  [chunk_text] returns no chunk exactly when the text is empty or made
    of whitespace only. *)
Theorem chunk_text_empty_iff settings text :
  chunk_text settings text = [] <-> strip text = [].
Proof.
  split.
  - intros H. destruct (strip text) eqn:E; [reflexivity|]. exfalso.
    apply (chunk_text_nonempty settings text); [|exact H].
    rewrite E. discriminate.
  - intros H. unfold chunk_text. cbv zeta. now rewrite (clean_blank _ H).
Qed.

(** X2.  Every chunk is non-empty, starts and ends with a character that is
    not whitespace, and has no whitespace other than single spaces (so no
    newline or tab survives in a chunk). *)
Theorem chunks_are_tight settings text chunk :
  In chunk (chunk_text settings text) ->
  chunk <> [] /\ strip chunk = chunk /\ single_spaced chunk /\
  Forall (fun c => isspace c = true -> c = SP) chunk.
Proof.
  intros Hin.
  assert (well_formed_chunk chunk) as [Ht Hs].
  { destruct (clean text) as [|c0 t0] eqn:E.
    - unfold chunk_text in Hin. cbv zeta in Hin. rewrite E in Hin.
      contradiction.
    - assert (clean text <> []) as Hne by (rewrite E; discriminate).
      destruct (split_sentences_clean text Hne) as [Htight _].
      destruct (chunk_text_cases settings text Hne) as [[_ H] | [_ H]];
        rewrite H in Hin.
      + destruct Hin as [<- | []]. split.
        * split; [apply clean_starts | now apply clean_ends].
        * apply clean_single_spaced.
      + eapply Forall_forall; [|exact Hin]. apply finish_invariant.
        apply fold_add_piece_invariant; auto.
        * split; [constructor | split; [exact I | now left]].
        * apply split_sentences_aux_single; [|discriminate].
          apply clean_single_spaced. }
  split; [now apply ends_nonws_nonempty, Ht|].
  split; [now apply tight_strip|]. split; [exact Hs|].
  clear Ht Hin. induction chunk as [|c chunk IH]; constructor.
  - intros E. now apply Hs.
  - apply IH. now destruct Hs.
Qed.

Lemma chunks_are_tight_witness :
  lit "Aaaa. Bbbb." <> [] /\
  strip (lit "Aaaa. Bbbb.") = lit "Aaaa. Bbbb." /\
  single_spaced (lit "Aaaa. Bbbb.") /\
  Forall (fun c => isspace c = true -> c = SP) (lit "Aaaa. Bbbb.").
Proof.
  apply (chunks_are_tight
           {| chunk_size := 3; chunk_overlap := 1; retrieval_top_k := 5 |}
           (lit "Aaaa. Bbbb. Cccc.")).
  vm_compute. left. reflexivity.
Defined.

End ChunkTheorems.


Section ZeroOverlap.

Lemma join_cons_nonempty sep p l :
  l <> [] -> join sep (p :: l) = p ++ sep ++ join sep l.
Proof. destruct l; [contradiction | reflexivity]. Qed.

(** Joining is the same whether two neighbours are given apart or already
    joined. *)
Lemma join_merge sep l x y r :
  join sep (l ++ (x ++ sep ++ y) :: r) = join sep (l ++ x :: y :: r).
Proof.
  induction l as [|a l IH]; simpl app.
  - destruct r as [|q r]; simpl; [reflexivity|].
    now rewrite <- !app_assoc.
  - rewrite !join_cons_nonempty by (destruct l; discriminate).
    now rewrite IH.
Qed.

Lemma lstrip_app_ends a b : ends_nonws a -> lstrip (a ++ b) = lstrip a ++ b.
Proof.
  induction a as [|c a IH]; intros H; [now apply ends_nonws_nonempty in H|].
  simpl. destruct (isspace c) eqn:E; [|reflexivity].
  apply IH. now apply (ends_nonws_after_space [] c a).
Qed.

Lemma strip_app_sep cur p :
  ends_nonws cur -> ends_nonws p ->
  strip (cur ++ SP :: p) = strip cur ++ SP :: p.
Proof.
  intros Hc Hp.
  rewrite strip_of_ends by now apply ends_nonws_app, (ends_nonws_app [SP]).
  rewrite lstrip_app_ends by exact Hc. now rewrite strip_of_ends.
Qed.

Lemma finish_ends chunks cur :
  ends_nonws cur -> finish (chunks, cur) = chunks ++ [strip cur].
Proof.
  intros H. unfold finish.
  pose proof (strip_nonblank cur (ends_nonws_has_nonws cur H)) as Hne.
  destruct (strip cur); [contradiction | reflexivity].
Qed.

Lemma add_piece_cases tc oc sep chunks cur p :
  add_piece tc oc sep (chunks, cur) p =
  if len cur + len p >? tc then
    match cur with
    | [] => (chunks, sep ++ p)
    | _ :: _ => (chunks ++ [strip cur], reseed oc cur ++ sep ++ p)
    end
  else (chunks, cur ++ sep ++ p).
Proof.
  unfold add_piece, flush_if_full.
  destruct (len cur + len p >? tc); [destruct cur|]; reflexivity.
Qed.

(** With no overlap, taking one more piece into the state adds it to what
    the state stands for. *)
Lemma finish_add_piece tc st p rest :
  snd st = [] \/ ends_nonws (snd st) -> tight p ->
  join [SP] (finish (add_piece tc 0 [SP] st p) ++ rest)
  = join [SP] (finish st ++ p :: rest).
Proof.
  intros Hend [Hps Hpe]. destruct st as [chunks cur]. simpl in Hend.
  assert (strip (SP :: p) = p) as Hp.
  { change (strip (SP :: p)) with (strip p). now apply tight_strip. }
  assert (finish (chunks, [SP] ++ p) = chunks ++ [p]) as Hfresh.
  { rewrite finish_ends by now apply (ends_nonws_app [SP]).
    simpl app. now rewrite Hp. }
  rewrite add_piece_cases.
  destruct (len cur + len p >? tc); [destruct cur as [|c0 cur0] eqn:Ecur|].
  - rewrite Hfresh. unfold finish. simpl strip. cbv iota.
    now rewrite <- app_assoc.
  - destruct Hend as [Hend | Hend]; [discriminate|].
    rewrite reseed_zero. change ([] ++ [SP] ++ p) with ([SP] ++ p).
    rewrite (finish_ends _ ([SP] ++ p)) by now apply (ends_nonws_app [SP]).
    rewrite (finish_ends chunks) by exact Hend.
    change ([SP] ++ p) with (SP :: p). rewrite Hp.
    now rewrite <- !app_assoc.
  - destruct Hend as [-> | Hend].
    + change ([] ++ [SP] ++ p) with ([SP] ++ p). rewrite Hfresh.
      unfold finish. simpl strip. cbv iota. now rewrite <- app_assoc.
    + rewrite (finish_ends _ (cur ++ [SP] ++ p))
        by now apply ends_nonws_app, (ends_nonws_app [SP]).
      rewrite (finish_ends _ cur) by exact Hend.
      change (cur ++ [SP] ++ p) with (cur ++ SP :: p).
      rewrite strip_app_sep by assumption.
      rewrite <- !app_assoc.
      change ([strip cur ++ SP :: p] ++ rest)
        with ((strip cur ++ [SP] ++ p) :: rest).
      change ([strip cur] ++ p :: rest) with (strip cur :: p :: rest).
      apply (join_merge [SP] chunks (strip cur) p rest).
Qed.

Lemma fold_add_piece_join tc pieces : forall st,
  snd st = [] \/ ends_nonws (snd st) -> Forall tight pieces ->
  join [SP] (finish (fold_left (add_piece tc 0 [SP]) pieces st))
  = join [SP] (finish st ++ pieces).
Proof.
  induction pieces as [|p ps IH]; intros st Hst Ht; simpl.
  - now rewrite app_nil_r.
  - inversion_clear Ht as [|? ? Hp Hps].
    rewrite IH; [|right; apply add_piece_snd, Hp | exact Hps].
    + pose proof (finish_add_piece tc st p ps Hst Hp) as H.
      rewrite <- H. rewrite app_nil_r || idtac. reflexivity.
Qed.

(** X3.  With an overlap of 0, joining the chunks with single spaces gives
    back the cleaned text: nothing is lost and nothing is repeated. *)
Theorem zero_overlap_is_lossless settings text :
  chunk_overlap settings = 0 ->
  join [SP] (chunk_text settings text) = clean text.
Proof.
  intros Hov. destruct (clean text) as [|c0 t0] eqn:E.
  - unfold chunk_text. cbv zeta. now rewrite E.
  - rewrite <- E.
    assert (clean text <> []) as Hne by (rewrite E; discriminate).
    destruct (split_sentences_clean text Hne) as [Htight Hjoin].
    destruct (chunk_text_cases settings text Hne) as [[_ ->] | [_ ->]];
      [reflexivity|].
    rewrite Hov. change (0 * 4) with 0.
    rewrite fold_add_piece_join; [exact Hjoin | now left | exact Htight].
Qed.

Lemma zero_overlap_is_lossless_witness :
  join [SP]
    (chunk_text {| chunk_size := 3; chunk_overlap := 0; retrieval_top_k := 5 |}
       (lit "Aaaa.  Bbbb. Cccc.  Dddd."))
  = clean (lit "Aaaa.  Bbbb. Cccc.  Dddd.").
Proof.
  apply (zero_overlap_is_lossless
           {| chunk_size := 3; chunk_overlap := 0; retrieval_top_k := 5 |}).
  reflexivity.
Defined.

End ZeroOverlap.

Section SentencesAndSizes.

Lemma lstrip_keeps a p b :
  starts_nonws p -> p <> [] -> exists a', lstrip (a ++ p ++ b) = a' ++ p ++ b.
Proof.
  intros Hs Hne. induction a as [|c a IH].
  - exists []. destruct p as [|c p]; [contradiction|].
    simpl in *. now rewrite Hs.
  - simpl. destruct (isspace c); [exact IH|]. now exists (c :: a).
Qed.

Lemma rstrip_keeps a p b :
  ends_nonws p -> exists b', rstrip (a ++ p ++ b) = a ++ p ++ b'.
Proof.
  intros (s' & c & Hp & Hc). unfold rstrip.
  rewrite (rev_app_distr a), (rev_app_distr p), <- app_assoc.
  destruct (lstrip_keeps (rev b) (rev p) (rev a)) as [b' E].
  - rewrite Hp, rev_app_distr. exact Hc.
  - rewrite Hp, rev_app_distr. discriminate.
  - rewrite E. exists (rev b').
    now rewrite !rev_app_distr, !rev_involutive, <- app_assoc.
Qed.

Lemma strip_keeps p s : tight p -> occurs_in p s -> occurs_in p (strip s).
Proof.
  intros [Hs He] (a & b & ->). unfold strip.
  destruct (lstrip_keeps a p b Hs (ends_nonws_nonempty p He)) as [a' ->].
  destruct (rstrip_keeps a' p b He) as [b' ->]. now exists a', b'.
Qed.

Lemma occurs_in_nil p : p <> [] -> ~ occurs_in p [].
Proof.
  intros Hne (a & b & E). symmetry in E.
  apply app_eq_nil in E. destruct E as [_ E].
  apply app_eq_nil in E. destruct E as [E _]. contradiction.
Qed.

Lemma add_piece_covers tc oc st p seen :
  Forall tight seen -> covered seen st ->
  covered (p :: seen) (add_piece tc oc [SP] st p).
Proof.
  intros Ht Hc. destruct st as [chunks cur]. rewrite add_piece_cases.
  rewrite Forall_forall in Ht. unfold covered in *. cbn [fst snd] in *.
  destruct (len cur + len p >? tc); [destruct cur as [|c0 cur0]|];
    cbn [fst snd]; intros q [<- | Hq].
  - right. exists [SP], []. now rewrite app_nil_r.
  - destruct (Hc q Hq) as [H | H]; [now left|].
    exfalso. revert H. apply occurs_in_nil.
    apply ends_nonws_nonempty. now apply (Ht q Hq).
  - right. exists (reseed oc (c0 :: cur0) ++ [SP]), [].
    now rewrite app_nil_r, <- app_assoc.
  - left. destruct (Hc q Hq) as [(c & Hin & Ho) | H].
    + exists c. split; [apply in_or_app; now left | exact Ho].
    + exists (strip (c0 :: cur0)). split; [apply in_or_app; right; now left|].
      apply strip_keeps; [now apply Ht | exact H].
  - right. exists (cur ++ [SP]), []. now rewrite app_nil_r, <- app_assoc.
  - destruct (Hc q Hq) as [H | (a & b & ->)]; [now left|].
    right. exists a, (b ++ [SP] ++ p). now rewrite <- !app_assoc.
Qed.

Lemma fold_add_piece_covers tc oc pieces : forall st seen,
  Forall tight seen -> Forall tight pieces -> covered seen st ->
  covered (pieces ++ seen) (fold_left (add_piece tc oc [SP]) pieces st).
Proof.
  induction pieces as [|p ps IH]; intros st seen Hs Hp Hc; [exact Hc|].
  inversion_clear Hp as [|? ? Hp0 Hps]. simpl fold_left.
  pose proof (IH (add_piece tc oc [SP] st p) (p :: seen)
                (Forall_cons _ Hp0 Hs) Hps
                (add_piece_covers tc oc st p seen Hs Hc)) as H.
  intros q Hq. apply H. apply in_app_iff. simpl in Hq.
  destruct Hq as [<- | Hq]; [right; now left|].
  apply in_app_iff in Hq. destruct Hq as [Hq | Hq];
    [now left | right; now right].
Qed.

Lemma finish_covers seen st q :
  Forall tight seen -> covered seen st -> In q seen ->
  exists c, In c (finish st) /\ occurs_in q c.
Proof.
  intros Ht Hc Hq. destruct st as [chunks cur]. unfold finish.
  rewrite Forall_forall in Ht. specialize (Ht q Hq).
  destruct (Hc q Hq) as [(c & Hin & Ho) | H]; cbn [fst snd] in *.
  - exists c. split; [|exact Ho].
    destruct (strip cur); [exact Hin | apply in_or_app; now left].
  - pose proof (strip_keeps q cur Ht H) as Hs.
    destruct (strip cur) as [|c0 s0] eqn:E.
    + exfalso. revert Hs. apply occurs_in_nil.
      apply ends_nonws_nonempty, Ht.
    + exists (c0 :: s0). split; [apply in_or_app; right; now left | exact Hs].
Qed.

(** X4.  No sentence is lost or cut: the cleaned text is its sentences
    joined by single spaces, and every one of them occurs whole in some
    chunk, whatever the chunk size and the overlap. *)
Theorem every_sentence_in_a_chunk settings text sentence :
  strip text <> [] ->
  In sentence (split_sentences (clean text)) ->
  join [SP] (split_sentences (clean text)) = clean text /\
  exists chunk,
    In chunk (chunk_text settings text) /\ occurs_in sentence chunk.
Proof.
  intros Hne Hin. apply clean_nonblank in Hne.
  destruct (split_sentences_clean text Hne) as [Ht Hj].
  split; [exact Hj|].
  destruct (chunk_text_cases settings text Hne) as [[_ ->] | [_ ->]].
  - exists (clean text). split; [now left|].
    rewrite <- Hj. now apply join_In.
  - apply (finish_covers (split_sentences (clean text) ++ [])).
    + rewrite app_nil_r. exact Ht.
    + apply fold_add_piece_covers; [constructor | exact Ht|].
      intros q [].
    + rewrite app_nil_r. exact Hin.
Qed.

Lemma every_sentence_in_a_chunk_witness :
  join [SP] (split_sentences (clean (lit "Aaaa.  Bbbb. Cccc.")))
  = clean (lit "Aaaa.  Bbbb. Cccc.") /\
  exists chunk,
    In chunk (chunk_text {| chunk_size := 3; chunk_overlap := 1;
                            retrieval_top_k := 5 |}
                         (lit "Aaaa.  Bbbb. Cccc.")) /\
    occurs_in (lit "Cccc.") chunk.
Proof.
  apply (every_sentence_in_a_chunk
           {| chunk_size := 3; chunk_overlap := 1; retrieval_top_k := 5 |}
           (lit "Aaaa.  Bbbb. Cccc.") (lit "Cccc.")).
  - vm_compute. discriminate.
  - vm_compute. right. right. left. reflexivity.
Defined.

Lemma reseed_bound oc cur : 0 <= oc -> len (reseed oc cur) <= oc.
Proof.
  intros H. unfold reseed, slice_from, len.
  destruct (oc =? 0) eqn:E; [simpl; lia|].
  apply Z.eqb_neq in E. rewrite length_skipn.
  assert ((- oc <? 0) = true) as -> by (apply Z.ltb_lt; lia). lia.
Qed.








End SentencesAndSizes.

(* ================================================================== *)
(** * The claims about short texts and about flushes *)
(* ================================================================== *)

Section CleanAndTrim.

Lemma lstrip_app_space pre s : all_space pre -> lstrip (pre ++ s) = lstrip s.
Proof.
  induction 1 as [|c pre Hc Hpre IH]; [reflexivity|].
  simpl. now rewrite Hc.
Qed.

Lemma all_space_rev s : all_space s -> all_space (rev s).
Proof. apply Forall_rev. Qed.

Lemma rstrip_app_space s trail :
  all_space trail -> rstrip (s ++ trail) = rstrip s.
Proof.
  intros H. unfold rstrip. rewrite rev_app_distr.
  now rewrite lstrip_app_space by now apply all_space_rev.
Qed.

(** A text is its trimmed form between two runs of whitespace. *)
Lemma strip_decompose s :
  exists lead trail,
    s = lead ++ strip s ++ trail /\ all_space lead /\ all_space trail.
Proof.
  destruct (lstrip_split s) as (lead & Hs & Hlead).
  destruct (lstrip_split (rev (lstrip s))) as (tl & Ht & Htl).
  exists lead, (rev tl). split; [|split; [exact Hlead|]].
  - unfold strip, rstrip. rewrite <- rev_app_distr, <- Ht, rev_involutive.
    exact Hs.
  - now apply all_space_rev.
Qed.

Lemma re_sub_ws_all_space s : forall b,
  all_space s -> all_space (re_sub_ws b s).
Proof.
  induction s as [|c s IH]; intros b H; [constructor|].
  inversion_clear H as [|? ? Hc Hs]. simpl. rewrite Hc.
  destruct b; [now apply IH|]. constructor; [reflexivity | now apply IH].
Qed.

Lemma re_sub_ws_lead lead s : forall b,
  all_space lead ->
  exists pre b', all_space pre /\
                 re_sub_ws b (lead ++ s) = pre ++ re_sub_ws b' s.
Proof.
  induction lead as [|c lead IH]; intros b H.
  - exists [], b. split; [constructor | reflexivity].
  - inversion_clear H as [|? ? Hc Hl]. simpl. rewrite Hc.
    destruct (IH true Hl) as (pre & b' & Hpre & E). rewrite E.
    destruct b.
    + now exists pre, b'.
    + exists (SP :: pre), b'. split; [now constructor | reflexivity].
Qed.

Lemma ends_nonws_tail c r : ends_nonws (c :: r) -> r <> [] -> ends_nonws r.
Proof.
  intros (s' & x & E & Hx) Hr. destruct s' as [|y s'].
  - injection E as _ E. contradiction.
  - injection E as _ E. now exists s', x.
Qed.

(** A text with single spaces only goes through the substitution unchanged,
    and whitespace after it collapses into whitespace. *)
Lemma re_sub_ws_tidy trail m : forall b,
  all_space trail -> single_spaced m -> m = [] \/ ends_nonws m ->
  (b = true -> starts_nonws m) ->
  exists t, all_space t /\ re_sub_ws b (m ++ trail) = m ++ t.
Proof.
  intros b Ht. revert b. induction m as [|c r IH]; intros b Hs He Hb.
  - exists (re_sub_ws b trail). split; [now apply re_sub_ws_all_space|].
    reflexivity.
  - destruct Hs as [Hc Hr].
    assert (r = [] \/ ends_nonws r) as He'.
    { destruct r as [|d r']; [now left|]. right.
      destruct He as [He | He]; [discriminate|].
      apply (ends_nonws_tail c); [exact He | discriminate]. }
    simpl. destruct (isspace c) eqn:Ec.
    + destruct b; [specialize (Hb eq_refl); simpl in Hb; congruence|].
      destruct (Hc eq_refl) as [-> Hd].
      destruct (IH true Hr He') as (t & Hta & E).
      * intros _. destruct r; [exact I | exact Hd].
      * rewrite E. now exists t.
    + destruct (IH false Hr He') as (t & Hta & E); [discriminate|].
      rewrite E. now exists t.
Qed.

(** When the trimmed text has single spaces only, cleaning the text gives
    the trimmed text. *)
Lemma clean_of_single_spaced text :
  single_spaced (strip text) -> clean text = strip text.
Proof.
  intros Hs.
  destruct (strip text) as [|c0 m0] eqn:Em.
  { now apply clean_blank. }
  rewrite <- Em in *.
  assert (tight (strip text)) as [Hst Hen].
  { destruct (strip_shape text) as [E | [(c & r & E & Hc) He]].
    - rewrite E in Em. discriminate.
    - split; [rewrite E; exact Hc | exact He]. }
  destruct (strip_decompose text) as (lead & trail & Ht & Hl & Htr).
  unfold clean. rewrite Ht at 1.
  destruct (re_sub_ws_lead lead (strip text ++ trail) false Hl)
    as (pre & b' & Hpre & ->).
  destruct (re_sub_ws_tidy trail (strip text) b' Htr Hs (or_intror Hen)
              (fun _ => Hst)) as (t & Hta & ->).
  unfold strip at 1. rewrite lstrip_app_space by exact Hpre.
  rewrite lstrip_starts.
  - rewrite rstrip_app_space by exact Hta. now apply rstrip_fix.
  - rewrite Em in *. exact Hst.
Qed.

End CleanAndTrim.

(** C3, as stated, fails: a short text with a doubled space comes back with
    the run collapsed, which is not the trimmed input. *)
Lemma short_text_not_trimmed_input :
  strip (lit "a  b") <> [] /\
  len (lit "a  b") < chunk_size default_settings * 4 /\
  chunk_text default_settings (lit "a  b") = [lit "a b"] /\
  chunk_text default_settings (lit "a  b") <> [strip (lit "a  b")].
Proof.
  repeat split; try (vm_compute; reflexivity); vm_compute; discriminate.
Qed.

(** C3 (amended).  A text that is not blank and shorter than
    [chunk_size * 4] characters yields exactly one chunk.  When the text has
    no run of two or more newlines, the chunk is the text with every run of
    whitespace replaced by one space and the ends trimmed; it is the trimmed
    input itself exactly when the trimmed input has no whitespace other than
    single spaces. *)
Theorem short_text_single_chunk settings text :
  strip text <> [] ->
  len text < chunk_size settings * 4 ->
  exists chunk,
    chunk_text settings text = [chunk] /\
    (has_paragraph_break text = false ->
     chunk = clean text /\
     (chunk = strip text <-> single_spaced (strip text))).
Proof.
  intros Hne Hlen. exists (clean text).
  split; [now apply chunk_text_short_clean|].
  intros _. split; [reflexivity|]. split.
  - intros <-. apply clean_single_spaced.
  - apply clean_of_single_spaced.
Qed.

Lemma short_text_single_chunk_witness :
  let text := [9] ++ lit "a b" ++ [NL] in
  exists chunk,
    chunk_text default_settings text = [chunk] /\
    (has_paragraph_break text = false ->
     chunk = clean text /\
     (chunk = strip text <-> single_spaced (strip text))).
Proof.
  intros text. apply (short_text_single_chunk default_settings text).
  - vm_compute. discriminate.
  - vm_compute. reflexivity.
Defined.

Section Flushes.

Lemma last_chars_reseed oc buffer : 0 <= oc -> reseed oc buffer = last_chars oc buffer.
Proof.
  intros H. destruct (Z.eq_dec oc 0) as [-> | Hne].
  - unfold reseed, last_chars. simpl. rewrite Nat.sub_0_r.
    symmetry. apply skipn_all.
  - apply reseed_positive. lia.
Qed.

(** A buffer with single spaces that ends a word stands one space at most
    before its trimmed form. *)
Lemma single_spaced_lead s :
  single_spaced s -> ends_nonws s -> s = strip s \/ s = SP :: strip s.
Proof.
  intros Hs He. rewrite strip_of_ends by exact He.
  destruct s as [|c r]; [now left|].
  simpl. destruct (isspace c) eqn:Ec; [|now left].
  destruct Hs as [Hc _]. destruct (Hc Ec) as [-> Hd]. right.
  destruct r as [|d r']; [reflexivity|]. simpl. now rewrite Hd.
Qed.

Lemma flush_if_full_flushes tc oc chunks buffer piece :
  buffer <> [] -> tc < len buffer + len piece ->
  flush_if_full tc oc (chunks, buffer) piece
  = (chunks ++ [strip buffer], reseed oc buffer).
Proof.
  intros Hne Hlt. unfold flush_if_full.
  assert ((len buffer + len piece >? tc) = true) as ->
    by (rewrite Z.gtb_ltb; now apply Z.ltb_lt).
  destruct buffer; [contradiction | reflexivity].
Qed.

Lemma flush_if_full_keeps tc oc chunks buffer piece :
  buffer = [] \/ len buffer + len piece <= tc ->
  flush_if_full tc oc (chunks, buffer) piece = (chunks, buffer).
Proof.
  intros H. unfold flush_if_full.
  destruct (len buffer + len piece >? tc) eqn:E; [|reflexivity].
  destruct H as [-> | H]; [reflexivity|].
  rewrite Z.gtb_ltb in E. apply Z.ltb_lt in E. lia.
Qed.

(** The buffers of a run over the sentences of a cleaned text. *)
Lemma run_buffers tc oc text before piece after :
  clean text <> [] ->
  split_sentences (clean text) = before ++ piece :: after ->
  loop_invariant (fold_left (add_piece tc oc [SP]) before ([], [])).
Proof.
  intros Hne Hsplit.
  destruct (split_sentences_clean text Hne) as [Ht _].
  assert (Forall single_spaced (split_sentences (clean text))) as Hs.
  { apply split_sentences_aux_single; [|discriminate].
    apply clean_single_spaced. }
  rewrite Hsplit in Ht, Hs.
  apply Forall_app in Ht as [Ht _]. apply Forall_app in Hs as [Hs _].
  apply fold_add_piece_invariant; [|exact Ht | exact Hs].
  split; [constructor | split; [exact I | now left]].
Qed.

End Flushes.

(** C4, as stated, fails.  The text kept is taken from the buffer before
    it is trimmed, so it can be longer than the chunk that was emitted: with
    the default settings (budget 2000, overlap 200), on "Hi. " followed by
    2000 letters the buffer at the flush is " Hi.", the chunk emitted is
    "Hi.", and the buffer is reseeded with " Hi.", which is neither the tail
    of the chunk nor within its size.  And with a negative overlap the text
    kept is the buffer without its first characters. *)
Lemma reseed_longer_than_chunk :
  let target_chars := chunk_size default_settings * 4 in
  let overlap_chars := chunk_overlap default_settings * 4 in
  let text := lit "Hi. " ++ repeat 120 2000 in
  split_sentences (clean text) = [lit "Hi."; repeat 120 2000] /\
  fold_left (add_piece target_chars overlap_chars [SP]) [lit "Hi."] ([], [])
    = ([], lit " Hi.") /\
  flush_if_full target_chars overlap_chars ([], lit " Hi.") (repeat 120 2000)
    = ([lit "Hi."], lit " Hi.") /\
  lit " Hi." <> last_chars overlap_chars (lit "Hi.") /\
  (length (lit "Hi.") < length (lit " Hi."))%nat /\
  chunk_text default_settings text = [lit "Hi."; text] /\
  flush_if_full 12 (-4) ([], lit " Aaaa. Bbbb.") (lit "Cccc.")
    = ([lit "Aaaa. Bbbb."], lit "a. Bbbb.") /\
  lit "a. Bbbb." <> last_chars (-4) (lit "Aaaa. Bbbb.").
Proof.
  cbv zeta. repeat split; try (vm_compute; reflexivity);
    try (vm_compute; discriminate); vm_compute; lia.
Qed.

(** C4 (amended).  With an overlap that is not negative, every flush takes a
    buffer that is not empty, emits it trimmed, and reseeds the buffer with
    exactly the trailing [overlap_chars] characters of the buffer as it
    stood before it was trimmed (all of it when it is shorter; the empty
    string when [overlap_chars] is 0): the text kept is never longer than
    that buffer or than [overlap_chars].  It is the tail of the emitted chunk
    whenever that chunk has [overlap_chars] characters, and in the runs of
    [chunk_text], where a buffer ends a word and has single spaces only, it
    is at most one character longer than the emitted chunk.  Nothing else
    flushes, and a text that is not blank, such as a single paragraph larger
    than the overlap window, yields at least one chunk. *)
Theorem flush_reseeds_buffer_tail settings text :
  0 <= chunk_overlap settings ->
  let target_chars := chunk_size settings * 4 in
  let overlap_chars := chunk_overlap settings * 4 in
  (forall chunks buffer piece,
     buffer <> [] -> target_chars < len buffer + len piece ->
     let st := flush_if_full target_chars overlap_chars (chunks, buffer) piece
     in
     fst st = chunks ++ [strip buffer] /\
     snd st = last_chars overlap_chars buffer /\
     (overlap_chars = 0 -> snd st = []) /\
     (length (snd st) <= length buffer)%nat /\
     len (snd st) <= overlap_chars /\
     (ends_nonws buffer -> overlap_chars <= len (strip buffer) ->
      snd st = last_chars overlap_chars (strip buffer)) /\
     (ends_nonws buffer -> single_spaced buffer ->
      (length (snd st) <= S (length (strip buffer)))%nat)) /\
  (forall chunks buffer piece,
     buffer = [] \/ len buffer + len piece <= target_chars ->
     flush_if_full target_chars overlap_chars (chunks, buffer) piece
     = (chunks, buffer)) /\
  (clean text <> [] ->
   (len (clean text) <= target_chars /\
    chunk_text settings text = [clean text]) \/
   (target_chars < len (clean text) /\
    chunk_text settings text =
    finish (fold_left (add_piece target_chars overlap_chars [SP])
                      (split_sentences (clean text)) ([], [])) /\
    forall before piece after,
      split_sentences (clean text) = before ++ piece :: after ->
      let st := fold_left (add_piece target_chars overlap_chars [SP])
                          before ([], []) in
      (snd st = [] \/ ends_nonws (snd st)) /\ single_spaced (snd st) /\
      fold_left (add_piece target_chars overlap_chars [SP])
                (before ++ [piece]) ([], [])
      = (fst (flush_if_full target_chars overlap_chars st piece),
         snd (flush_if_full target_chars overlap_chars st piece)
         ++ [SP] ++ piece))) /\
  (strip text <> [] -> chunk_text settings text <> []).
Proof.
  intros Hov target_chars overlap_chars.
  assert (0 <= overlap_chars) as Hoc by (unfold overlap_chars; lia).
  split; [|split; [|split]].
  - intros chunks buffer piece Hne Hlt. cbv zeta.
    rewrite flush_if_full_flushes by assumption. cbn [fst snd].
    rewrite last_chars_reseed by exact Hoc.
    split; [reflexivity|]. split; [reflexivity|]. split; [|split; [|split]].
    + intros ->. unfold last_chars. simpl. rewrite Nat.sub_0_r.
      apply skipn_all.
    + unfold last_chars. rewrite length_skipn. lia.
    + rewrite <- last_chars_reseed by exact Hoc. now apply reseed_bound.
    + split.
      * intros He Hle. destruct (strip_split _ He) as (lead & Hb & _).
        rewrite Hb at 1. now apply last_chars_app.
      * intros He Hs. unfold last_chars. rewrite length_skipn.
        destruct (single_spaced_lead buffer Hs He) as [E | E];
          apply (f_equal (@length _)) in E; simpl in E; lia.
  - intros chunks buffer piece. apply flush_if_full_keeps.
  - intros Hne.
    destruct (chunk_text_cases settings text Hne) as [H | [Hlt Hrun]];
      [now left|].
    right. split; [exact Hlt|]. split; [exact Hrun|].
    intros before piece after Hsplit. cbv zeta.
    destruct (run_buffers target_chars overlap_chars text before piece after
                Hne Hsplit) as (_ & Hs & He).
    split; [exact He|]. split; [exact Hs|].
    rewrite fold_left_app. simpl. unfold add_piece.
    now destruct (flush_if_full _ _ _ _).
  - apply chunk_text_nonempty.
Qed.

Lemma flush_reseeds_buffer_tail_witness :
  let st := flush_if_full 12 4 ([], lit " Aaaa. Bbbb.") (lit "Cccc.") in
  fst st = [] ++ [strip (lit " Aaaa. Bbbb.")] /\
  snd st = last_chars 4 (lit " Aaaa. Bbbb.") /\
  snd st = lit "bbb." /\
  snd st = last_chars 4 (strip (lit " Aaaa. Bbbb.")).
Proof.
  intros st.
  assert (0 <= chunk_overlap {| chunk_size := 3; chunk_overlap := 1;
                                retrieval_top_k := 5 |}) as Hov
    by (simpl; lia).
  pose proof (flush_reseeds_buffer_tail
                {| chunk_size := 3; chunk_overlap := 1;
                   retrieval_top_k := 5 |}
                (lit "Aaaa. Bbbb. Cccc.") Hov) as [H _].
  cbv zeta in H.
  destruct (H [] (lit " Aaaa. Bbbb.") (lit "Cccc."))
    as (H1 & H2 & _ & _ & _ & H6 & _).
  - discriminate.
  - vm_compute. reflexivity.
  - split; [exact H1|]. split; [exact H2|]. split.
    + unfold st. vm_compute. reflexivity.
    + apply H6.
      * exists (lit " Aaaa. Bbbb"), 46. split; reflexivity.
      * vm_compute. discriminate.
Defined.

(* ================================================================== *)
(** * More about ingestion *)
(* ================================================================== *)

Import Store.

Section DeadGuard.

Lemma encode_from_raises s : forall pos e,
  Utf8.encode_from pos s = Raise e -> exists p, e = UnicodeEncodeError p.
Proof.
  induction s as [|c s IH]; intros pos e; simpl; [discriminate|].
  destruct (Utf8.encode_char c).
  - destruct (Utf8.encode_from (S pos) s) eqn:E; simpl; [discriminate|].
    intros H. apply (IH (S pos)). congruence.
  - intros H. eexists. symmetry. injection H as H. exact H.
Qed.

Lemma generate_document_id_raises filename content e :
  generate_document_id filename content = Raise e ->
  exists p, e = UnicodeEncodeError p.
Proof.
  unfold generate_document_id, content_hash, Utf8.encode.
  destruct (Utf8.encode_from 0 content) eqn:E; simpl; [discriminate|].
  intros H. apply (encode_from_raises content 0). congruence.
Qed.

Lemma add_raises ids embeddings documents metadatas c e :
  Chroma.add ids embeddings documents metadatas c = Raise e ->
  e = ValueError (lit "Unequal lengths") \/
  e = ProviderError (lit "Expected IDs to be unique").
Proof.
  unfold Chroma.add.
  destruct (_ || _); [intros [= <-]; now left|].
  destruct (negb _); [intros [= <-]; now right | discriminate].
Qed.

Lemma write_raises nm data d e :
  Dir.write nm data d = Raise e -> e = OSError nm.
Proof.
  unfold Dir.write. destruct (existsb (Z.eqb Path.SLASH) nm); [congruence | discriminate].
Qed.

Lemma existsb_no_slash s :
  existsb (Z.eqb Path.SLASH) s = false -> no_slash s.
Proof.
  induction s as [|c s IH]; cbn [existsb]; [constructor|].
  rewrite orb_false_iff, Z.eqb_neq. intros [Hc Hs].
  constructor; [congruence | now apply IH].
Qed.

Lemma no_slash_app a b : no_slash (a ++ b) <-> no_slash a /\ no_slash b.
Proof. apply Forall_app. Qed.

Lemma write_raises_slash nm data d e :
  Dir.write nm data d = Raise e -> e = OSError nm /\ ~ no_slash nm.
Proof.
  unfold Dir.write.
  destruct (existsb (Z.eqb Path.SLASH) nm) eqn:E; [|discriminate].
  intros [= <-]. split; [reflexivity|]. intros H.
  apply no_slash_existsb in H. congruence.
Qed.

Lemma write_total nm data d :
  no_slash nm -> Dir.write nm data d = Ok (Dir.unlink nm d ++ [(nm, data)]).
Proof.
  intros H. unfold Dir.write. now rewrite (no_slash_existsb nm H).
Qed.

Lemma no_slash_lit_underscore : no_slash (lit "_").
Proof. repeat constructor; discriminate. Qed.

Lemma no_slash_lit_json : no_slash (lit ".json").
Proof. repeat constructor; discriminate. Qed.

Lemma add_raises_lengths ids embeddings documents metadatas c e :
  Chroma.add ids embeddings documents metadatas c = Raise e ->
  ids <> [] -> length documents = length ids ->
  length metadatas = length ids -> Chroma.distinct ids = true ->
  e = ValueError (lit "Unequal lengths") /\
  length embeddings <> length ids.
Proof.
  unfold Chroma.add. intros H Hne Hd Hm Hdist.
  rewrite Hd, Hm, Hdist, !Nat.eqb_refl, !andb_true_r in H.
  destruct (length ids =? 0)%nat eqn:E0.
  { apply Nat.eqb_eq in E0. destruct ids; [contradiction | discriminate]. }
  simpl in H.
  destruct (length embeddings =? length ids)%nat eqn:E; simpl in H;
    [discriminate|].
  apply Nat.eqb_neq in E. split; [|exact E].
  injection H as H. symmetry. exact H.
Qed.

(** Where an error of [ingest_document] can come from. *)
Lemma ingest_document_raises env w file filename file_size now w' e :
  ingest_document env w file filename file_size now = (w', Raise e) ->
  (exists data, pdf_page_texts env data = Raise e) \/
  (exists texts, embeddings_create env texts = Raise e) \/
  (exists p, e = UnicodeDecodeError p) \/
  (exists p, e = UnicodeEncodeError p) \/
  (exists ext, e = unsupported_file_type ext) \/
  e = empty_content \/
  (e = ValueError (lit "Unequal lengths") /\
   exists texts vectors, embeddings_create env texts = Ok vectors /\
                         length vectors <> length texts) \/
  (exists nm, e = OSError nm /\ ~ no_slash filename).
Proof.
  unfold ingest_document.
  destruct (extract_text env file filename) as [text|e0] eqn:Ex.
  2:{ intros [= _ <-]. unfold extract_text in Ex.
      destruct (str_eqb _ (lit ".pdf")).
      - unfold _extract_pdf in Ex.
        destruct (pdf_page_texts env file) eqn:Ep; simpl in Ex;
          [discriminate|].
        left. exists file. injection Ex as Ex. now rewrite <- Ex.
      - destruct (str_eqb _ (lit ".txt")).
        + right. right. left. now apply (decode_raises file).
        + do 4 right. left. eexists. injection Ex as Ex. symmetry. exact Ex. }
  destruct (strip text) as [|c0 t0] eqn:Es.
  { intros [= _ <-]. tauto. }
  destruct (generate_document_id filename text) as [doc_id|e0] eqn:Eid.
  2:{ intros [= _ <-]. do 3 right. left.
      now apply (generate_document_id_raises filename text). }
  cbv zeta.
  destruct (chunk_text (settings env) text) as [|ch chs] eqn:Ec.
  { exfalso. apply (chunk_text_nonempty (settings env) text); [|exact Ec].
    rewrite Es. discriminate. }
  destruct (generate_embeddings env (ch :: chs)) as [embs|e0] eqn:Ee.
  2:{ intros [= _ <-]. right. left. exists (ch :: chs). exact Ee. }
  destruct (Chroma.add _ _ _ _ _) as [stored|e0] eqn:Ea.
  2:{ intros [= _ <-]. apply add_raises_lengths in Ea.
      - destruct Ea as [-> Hlen]. do 6 right. left.
        split; [reflexivity|]. exists (ch :: chs), embs.
        split; [exact Ee|]. now rewrite length_map, length_seq in Hlen.
      - discriminate.
      - now rewrite length_map, length_seq.
      - now rewrite !length_map.
      - apply chunk_ids_distinct. }
  pose proof (document_id_no_slash _ _ _ Eid) as Hid.
  destruct (Dir.write _ (RawFile file) _) as [saved|e0] eqn:Ew.
  2:{ intros [= _ <-]. apply write_raises_slash in Ew.
      destruct Ew as [-> Hs]. do 7 right. eexists. split; [reflexivity|].
      intros Hf. apply Hs. apply no_slash_app. split; [exact Hid|].
      apply no_slash_app. split; [apply no_slash_lit_underscore | exact Hf]. }
  rewrite write_total; [discriminate|].
  apply no_slash_app. split; [exact Hid | apply no_slash_lit_json].
Qed.

(** X6.  The guard after chunking is dead: [ingest_document] never raises
    "Document could not be chunked" of its own; the error can only be one
    that the embedding endpoint or the PDF reader raised. *)
Theorem chunking_guard_is_dead env w file filename file_size now :
  (forall texts, embeddings_create env texts <> Raise chunking_failed) ->
  (forall data, pdf_page_texts env data <> Raise chunking_failed) ->
  snd (ingest_document env w file filename file_size now)
  <> Raise chunking_failed.
Proof.
  intros Hemb Hpdf H.
  destruct (ingest_document env w file filename file_size now) as [w' r] eqn:E.
  simpl in H. subst r. apply ingest_document_raises in E.
  destruct E as [[d E] | [[t E] | [[p E] | [[p E] | [[x E] | [E | [[E _] | [n [E _]]]]]]]]];
    try discriminate E.
  - now apply (Hpdf d).
  - now apply (Hemb t).
Qed.

Lemma chunking_guard_is_dead_witness :
  snd (ingest_document (sample_env default_settings) empty_world
         (lit "Hello there.") (lit "a.txt") 12 0)
  <> Raise chunking_failed.
Proof.
  apply (chunking_guard_is_dead (sample_env default_settings)).
  - intros texts. discriminate.
  - intros data. discriminate.
Defined.

End DeadGuard.

Section Isolation.

Lemma filter_filter_absorb {A} (p q : A -> bool) l :
  (forall x, In x l -> q x = true -> p x = true) ->
  filter q (filter p l) = filter q l.
Proof.
  induction l as [|a l IH]; intros H; [reflexivity|]. simpl.
  destruct (q a) eqn:Eq.
  - rewrite (H a (or_introl eq_refl) Eq). simpl. rewrite Eq. f_equal.
    apply IH. intros x Hx. apply H. now right.
  - destruct (p a); simpl; rewrite ?Eq; apply IH;
      intros x Hx; apply H; now right.
Qed.

Lemma entries_of_app d c1 c2 :
  entries_of d (c1 ++ c2) = entries_of d c1 ++ entries_of d c2.
Proof. apply filter_app. Qed.

Lemma entries_of_In d c e :
  In e (entries_of d c) <-> In e c /\ document_id (entry_metadata e) = d.
Proof.
  unfold entries_of. rewrite filter_In, str_eqb_eq. reflexivity.
Qed.

Lemma entries_of_delete_existing d d' c :
  disciplined c -> d <> d' ->
  entries_of d (delete_existing d' c) = entries_of d c.
Proof.
  intros Hc Hd. unfold delete_existing.
  destruct (Chroma.get_where d' c) as [|i ids] eqn:E; [reflexivity|].
  rewrite <- E. clear E. unfold entries_of, Chroma.delete.
  apply filter_filter_absorb. intros e He Hq.
  apply str_eqb_eq in Hq. apply negb_true_iff.
  destruct (existsb _ _) eqn:Ex; [|reflexivity]. exfalso.
  apply existsb_str_eqb, get_where_In in Ex.
  destruct Ex as (e' & He' & Hd' & Hid).
  unfold disciplined in Hc. rewrite Forall_forall in Hc.
  rewrite (Hc e He), (Hc e' He'), Hq, Hd' in Hid.
  apply chunk_id_inj in Hid. destruct Hid as [Hid _]. congruence.
Qed.

Lemma entries_of_add d d' filename n l embeddings documents c c' :
  Chroma.add (map (chunk_id d') l) embeddings documents
             (map (chunk_metadata d' filename n) l) c = Ok c' ->
  d <> d' -> entries_of d c' = entries_of d c.
Proof.
  intros Ha Hd. apply add_inv in Ha. destruct Ha as (_ & _ & _ & ->).
  rewrite entries_of_app. rewrite <- (app_nil_r (entries_of d c)) at 2.
  f_equal. apply filter_none. intros e He. apply filter_In in He.
  destruct He as [He _].
  pose proof (zip_entries_indexed (chunk_id d') (chunk_metadata d' filename n)
                l embeddings documents) as Hz.
  rewrite Forall_forall in Hz. destruct (Hz e He) as (k & _ & _ & Hm).
  rewrite Hm. simpl. apply str_eqb_neq. congruence.
Qed.

(** X8.  Ingesting a document leaves the records of every other document
    as they are, whether the run completes or fails. *)
Theorem ingest_leaves_other_documents env w file filename file_size now d :
  reachable w ->
  (forall text, extract_text env file filename = Ok text ->
                generate_document_id filename text <> Ok d) ->
  entries_of d
    (collection (fst (ingest_document env w file filename file_size now)))
  = entries_of d (collection w).
Proof.
  intros Hw Hd. apply reachable_disciplined in Hw.
  unfold ingest_document.
  destruct (extract_text env file filename) as [text|e0] eqn:Ex;
    [|reflexivity].
  destruct (strip text) as [|c0 t0]; [reflexivity|].
  destruct (generate_document_id filename text) as [doc_id|e0] eqn:Eid;
    [|reflexivity].
  assert (d <> doc_id) as Hne.
  { intros ->. now apply (Hd text). }
  cbv zeta.
  pose proof (entries_of_delete_existing d doc_id (collection w) Hw Hne) as H1.
  destruct (chunk_text (settings env) text) as [|ch chs]; [exact H1|].
  destruct (generate_embeddings env (ch :: chs)) as [embs|e0]; [|exact H1].
  destruct (Chroma.add _ _ _ _ _) as [stored|e0] eqn:Ea; [|exact H1].
  cbn [collection] in Ea.
  pose proof (entries_of_add d doc_id _ _ _ _ _ _ _ Ea Hne) as H2.
  assert (entries_of d stored = entries_of d (collection w)) as H3
    by (now rewrite H2).
  destruct (Dir.write _ (RawFile file) _) as [saved|e1]; [|exact H3].
  destruct (Dir.write _ (MetadataFile _) _) as [listed|e1]; exact H3.
Qed.

(** X9.  Deleting a document leaves the records of every other document as
    they are. *)
Theorem delete_leaves_other_documents env w doc_id d :
  reachable w -> d <> doc_id ->
  entries_of d (collection (fst (delete_document env w doc_id)))
  = entries_of d (collection w).
Proof.
  intros Hw Hd. apply reachable_disciplined in Hw.
  unfold delete_document. cbn [fst collection].
  now apply entries_of_delete_existing.
Qed.

Lemma ingest_leaves_other_documents_witness :
  let env := sample_env default_settings in
  let w := fst (ingest_document env empty_world (lit "Hello there.")
                                (lit "a.txt") 12 0) in
  entries_of (lit "a_9d6a2963")
    (collection (fst (ingest_document env w (lit "Other text.")
                                      (lit "b.txt") 11 1)))
  = entries_of (lit "a_9d6a2963") (collection w).
Proof.
  intros env w.
  apply (ingest_leaves_other_documents env w (lit "Other text.")
           (lit "b.txt") 11 1 (lit "a_9d6a2963")).
  - apply reach_ingest, reach_empty.
  - intros text H. vm_compute in H. injection H as H. subst text.
    vm_compute. intros E. discriminate E.
Defined.

Lemma delete_leaves_other_documents_witness :
  let env := sample_env default_settings in
  let w := fst (ingest_document env empty_world (lit "Hello there.")
                                (lit "a.txt") 12 0) in
  entries_of (lit "a_9d6a2963")
    (collection (fst (delete_document env w (lit "b_00000000"))))
  = entries_of (lit "a_9d6a2963") (collection w).
Proof.
  intros env w.
  apply (delete_leaves_other_documents env w (lit "b_00000000")
           (lit "a_9d6a2963")).
  - apply reach_ingest, reach_empty.
  - intros E. discriminate E.
Defined.

End Isolation.

Section StoredChunks.

Lemma entries_of_none d c :
  count_chunks d c = 0%nat -> entries_of d c = [].
Proof.
  unfold count_chunks, Chroma.get_where. rewrite length_map.
  intros H. now apply length_zero_iff_nil.
Qed.

Lemma zip_entries_documents ids : forall embeddings documents metadatas,
  length embeddings = length ids -> length documents = length ids ->
  length metadatas = length ids ->
  map entry_id (Chroma.zip_entries ids embeddings documents metadatas) = ids /\
  map entry_embedding (Chroma.zip_entries ids embeddings documents metadatas)
    = embeddings /\
  map entry_document (Chroma.zip_entries ids embeddings documents metadatas)
    = documents /\
  map entry_metadata (Chroma.zip_entries ids embeddings documents metadatas)
    = metadatas.
Proof.
  induction ids as [|i ids IH]; intros [|v vs] [|x xs] [|m ms];
    simpl; try discriminate; intros H1 H2 H3.
  - repeat split.
  - injection H1 as H1. injection H2 as H2. injection H3 as H3.
    destruct (IH vs xs ms H1 H2 H3) as (-> & -> & -> & ->).
    repeat split.
Qed.

(** What a completed run stores for the document. *)
Lemma ingest_document_stored env w file filename file_size now w' doc_info :
  disciplined (collection w) ->
  ingest_document env w file filename file_size now = (w', Ok doc_info) ->
  exists text embeddings,
    extract_text env file filename = Ok text /\
    generate_embeddings env (chunk_text (settings env) text) = Ok embeddings /\
    length embeddings = length (chunk_text (settings env) text) /\
    entries_of (id doc_info) (collection w') =
    Chroma.zip_entries
      (map (chunk_id (id doc_info))
           (seq 0 (length (chunk_text (settings env) text))))
      embeddings (chunk_text (settings env) text)
      (map (chunk_metadata (id doc_info) filename
                           (length (chunk_text (settings env) text)))
           (seq 0 (length (chunk_text (settings env) text)))).
Proof.
  intros Hw H. apply ingest_document_ok in H.
  destruct H as (text & chunks & embs & Hx & _ & _ & -> & _ & He & Ha & _).
  exists text, embs. split; [exact Hx|]. split; [exact He|].
  pose proof (disciplined_delete_existing (id doc_info) _ Hw) as Hd.
  pose proof (count_after_delete_existing (id doc_info) (collection w)) as H0.
  pose proof (add_inv _ _ _ _ _ _ Ha) as (Hl & _ & _ & ->).
  rewrite length_map, length_seq in Hl. split; [exact Hl|].
  rewrite entries_of_app, (entries_of_none _ _ H0). simpl.
  rewrite filter_all.
  - apply filter_all. intros e He'.
    pose proof (zip_entries_indexed (chunk_id (id doc_info))
                  (chunk_metadata (id doc_info) filename
                     (length (chunk_text (settings env) text)))
                  (seq 0 (length (chunk_text (settings env) text)))
                  embs (chunk_text (settings env) text)) as Hz.
    rewrite Forall_forall in Hz. destruct (Hz e He') as (k & _ & _ & Hm).
    rewrite Hm. apply str_eqb_refl.
  - intros e He'. apply negb_true_iff.
    pose proof (zip_entries_indexed (chunk_id (id doc_info))
                  (chunk_metadata (id doc_info) filename
                     (length (chunk_text (settings env) text)))
                  (seq 0 (length (chunk_text (settings env) text)))
                  embs (chunk_text (settings env) text)) as Hz.
    rewrite Forall_forall in Hz. destruct (Hz e He') as (k & _ & Hi & _).
    rewrite Hi. now apply chunk_id_free.
Qed.

(** X10.  After a completed run the store holds, for the document, exactly
    one record per chunk, in the order of the chunks: the texts are the
    chunks, the indices count from 0, every record carries the file name and
    the number of chunks, and the ids are the document id followed by
    [_chunk_] and the index. *)
Theorem ingest_stores_chunks_in_order
  env w file filename file_size now w' doc_info :
  reachable w ->
  ingest_document env w file filename file_size now = (w', Ok doc_info) ->
  exists text,
    extract_text env file filename = Ok text /\
    let chunks := chunk_text (settings env) text in
    let stored := entries_of (id doc_info) (collection w') in
    map entry_document stored = chunks /\
    map (fun e => chunk_index (entry_metadata e)) stored
      = seq 0 (length chunks) /\
    map entry_id stored = map (chunk_id (id doc_info)) (seq 0 (length chunks)) /\
    Forall (fun e => document_name (entry_metadata e) = filename /\
                     total_chunks (entry_metadata e) = length chunks) stored /\
    generate_embeddings env chunks = Ok (map entry_embedding stored).
Proof.
  intros Hw H. apply reachable_disciplined in Hw.
  destruct (ingest_document_stored _ _ _ _ _ _ _ _ Hw H)
    as (text & embs & Hx & He & Hl & Hs).
  exists text. split; [exact Hx|]. cbv zeta. rewrite Hs.
  set (chunks := chunk_text (settings env) text) in *.
  destruct (zip_entries_documents
              (map (chunk_id (id doc_info)) (seq 0 (length chunks)))
              embs chunks
              (map (chunk_metadata (id doc_info) filename (length chunks))
                   (seq 0 (length chunks))))
    as (Hi & Hv & Hd & Hm).
  - now rewrite length_map, length_seq.
  - now rewrite length_map, length_seq.
  - now rewrite !length_map.
  - split; [exact Hd|]. split; [|split; [exact Hi|split]].
    + rewrite <- (map_map entry_metadata chunk_index), Hm, map_map.
      simpl. apply map_id.
    + apply Forall_forall. intros e Hin.
      apply (in_map entry_metadata) in Hin. rewrite Hm in Hin.
      apply in_map_iff in Hin. destruct Hin as (k & <- & _). now split.
    + now rewrite Hv.
Qed.

Lemma ingest_stores_chunks_in_order_witness :
  let env := sample_env {| chunk_size := 3; chunk_overlap := 1;
                           retrieval_top_k := 5 |} in
  let w' := fst (ingest_document env empty_world (lit "Aaaa. Bbbb. Cccc.")
                                 (lit "a.txt") 17 0) in
  exists text,
    extract_text env (lit "Aaaa. Bbbb. Cccc.") (lit "a.txt") = Ok text /\
    let chunks := chunk_text (settings env) text in
    let stored := entries_of (lit "a_b60b883d") (collection w') in
    map entry_document stored = chunks /\
    map (fun e => chunk_index (entry_metadata e)) stored
      = seq 0 (length chunks) /\
    map entry_id stored
      = map (chunk_id (lit "a_b60b883d")) (seq 0 (length chunks)) /\
    Forall (fun e => document_name (entry_metadata e) = lit "a.txt" /\
                     total_chunks (entry_metadata e) = length chunks)
           stored /\
    generate_embeddings env chunks = Ok (map entry_embedding stored).
Proof.
  intros env w'.
  apply (ingest_stores_chunks_in_order env empty_world
           (lit "Aaaa. Bbbb. Cccc.") (lit "a.txt") 17 0 w'
           {| id := lit "a_b60b883d"; filename := lit "a.txt";
              file_type := lit "txt"; chunk_count := 2; uploaded_at := 0;
              file_size := 17 |}).
  - apply reach_empty.
  - vm_compute. reflexivity.
Defined.

End StoredChunks.

Section WholeDocuments.

Lemma NoDup_map_filter {A B} (f : A -> B) (p : A -> bool) l :
  NoDup (map f l) -> NoDup (map f (filter p l)).
Proof.
  induction l as [|a l IH]; simpl; [constructor|].
  intros H. inversion_clear H as [|? ? Hn Hd].
  destruct (p a); simpl; [|now apply IH].
  constructor; [|now apply IH].
  intros Hin. apply Hn. apply in_map_iff in Hin.
  destruct Hin as (x & Hx & Hin). apply filter_In in Hin.
  apply in_map_iff. exists x. tauto.
Qed.

Lemma stored_whole_nil d c : entries_of d c = [] -> stored_whole d c.
Proof.
  unfold stored_whole. intros ->. cbv zeta. simpl.
  repeat split; try constructor. exists []. constructor.
Qed.

Lemma stored_whole_same d c c' :
  entries_of d c' = entries_of d c -> stored_whole d c -> stored_whole d c'.
Proof. unfold stored_whole. now intros ->. Qed.

(** The records of [d] after its chunks were added to a collection that
    held none of them: the records [add] was given, none skipped. *)
Lemma entries_of_added d filename n l embeddings documents c c' :
  disciplined c -> count_chunks d c = 0%nat ->
  Chroma.add (map (chunk_id d) l) embeddings documents
             (map (chunk_metadata d filename n) l) c = Ok c' ->
  entries_of d c'
  = Chroma.zip_entries (map (chunk_id d) l) embeddings documents
                       (map (chunk_metadata d filename n) l).
Proof.
  intros Hc H0 Ha. apply add_inv in Ha. destruct Ha as (_ & _ & _ & ->).
  pose proof (zip_entries_indexed (chunk_id d) (chunk_metadata d filename n)
                l embeddings documents) as Hz.
  rewrite Forall_forall in Hz.
  rewrite entries_of_app, (entries_of_none _ _ H0). simpl.
  rewrite filter_all.
  - apply filter_all. intros e He. destruct (Hz e He) as (k & _ & _ & Hm).
    rewrite Hm. apply str_eqb_refl.
  - intros e He. apply negb_true_iff. destruct (Hz e He) as (k & _ & Hi & _).
    rewrite Hi. now apply chunk_id_free.
Qed.

Lemma stored_whole_added d filename embeddings documents c c' :
  disciplined c -> count_chunks d c = 0%nat ->
  Chroma.add (map (chunk_id d) (seq 0 (length documents))) embeddings
             documents
             (map (chunk_metadata d filename (length documents))
                  (seq 0 (length documents))) c = Ok c' ->
  stored_whole d c'.
Proof.
  intros Hc H0 Ha.
  pose proof (add_inv _ _ _ _ _ _ Ha) as (Hl1 & Hl2 & Hl3 & _).
  pose proof (entries_of_added _ _ _ _ _ _ _ _ Hc H0 Ha) as Hs.
  destruct (zip_entries_documents _ _ _ _ Hl1 Hl2 Hl3) as (Hi & _ & _ & Hm).
  unfold stored_whole. cbv zeta. rewrite Hs.
  set (stored := Chroma.zip_entries _ _ _ _) in *.
  assert (length stored = length documents) as Hn.
  { rewrite <- (length_map entry_id stored), Hi, length_map, length_seq.
    reflexivity. }
  rewrite Hn. split; [|split; [exact Hi|split]].
  - rewrite <- (map_map entry_metadata chunk_index), Hm, map_map.
    simpl. apply map_id.
  - apply Forall_forall. intros e Hin.
    apply (in_map entry_metadata) in Hin. rewrite Hm in Hin.
    apply in_map_iff in Hin. destruct Hin as (k & <- & _). reflexivity.
  - exists filename. apply Forall_forall. intros e Hin.
    apply (in_map entry_metadata) in Hin. rewrite Hm in Hin.
    apply in_map_iff in Hin. destruct Hin as (k & <- & _). reflexivity.
Qed.

Lemma delete_existing_stored_whole d doc_id c :
  disciplined c -> stored_whole d c ->
  stored_whole d (delete_existing doc_id c).
Proof.
  intros Hc Hd. destruct (str_eqb d doc_id) eqn:E.
  - apply str_eqb_eq in E. subst doc_id.
    apply stored_whole_nil, entries_of_none, count_after_delete_existing.
  - apply str_eqb_neq in E. eapply stored_whole_same; [|exact Hd].
    now apply entries_of_delete_existing.
Qed.

Lemma ingest_document_stored_whole env w file filename file_size now d :
  disciplined (collection w) -> stored_whole d (collection w) ->
  stored_whole d
    (collection (fst (ingest_document env w file filename file_size now))).
Proof.
  intros Hw Hd. unfold ingest_document.
  destruct (extract_text env file filename) as [text|e0]; [|exact Hd].
  destruct (strip text) as [|c0 t0]; [exact Hd|].
  destruct (generate_document_id filename text) as [doc_id|e0]; [|exact Hd].
  cbv zeta.
  pose proof (delete_existing_stored_whole d doc_id _ Hw Hd) as H1.
  pose proof (disciplined_delete_existing doc_id _ Hw) as Hw1.
  destruct (chunk_text (settings env) text) as [|ch chs]; [exact H1|].
  destruct (generate_embeddings env (ch :: chs)) as [embs|e0]; [|exact H1].
  destruct (Chroma.add _ _ _ _ _) as [stored|e0] eqn:Ea; [|exact H1].
  cbn [collection] in Ea.
  assert (stored_whole d stored) as H2.
  { destruct (str_eqb d doc_id) eqn:E.
    - apply str_eqb_eq in E. subst doc_id.
      apply (stored_whole_added d filename embs (ch :: chs) _ _ Hw1);
        [apply count_after_delete_existing | exact Ea].
    - apply str_eqb_neq in E. eapply stored_whole_same; [|exact H1].
      eapply entries_of_add; [exact Ea | exact E]. }
  destruct (Dir.write _ (RawFile file) _) as [saved|e1]; [|exact H2].
  destruct (Dir.write _ (MetadataFile _) _) as [listed|e1]; exact H2.
Qed.

(** X11.  In every world the pipeline can produce, the records of each
    document are those of one ingestion, all of them: their indices count
    from 0 without a gap, in the order of the store; their ids are the
    document id followed by [_chunk_] and the index, so that no two records
    of the document share an id; each of them gives the number of the
    document's records as its number of chunks; and all carry one file
    name.  The runs that fail are among the steps, so no failure leaves a
    document with a part of its records. *)
Theorem documents_are_stored_whole w d :
  reachable w ->
  stored_whole d (collection w) /\
  NoDup (map entry_id (entries_of d (collection w))).
Proof.
  intros Hw.
  assert (stored_whole d (collection w)) as H.
  { induction Hw as [|env w file filename file_size now Hw IH
                     |env w doc_id Hw IH].
    - now apply stored_whole_nil.
    - apply ingest_document_stored_whole; [|exact IH].
      now apply reachable_disciplined.
    - unfold delete_document. cbn [fst collection].
      apply delete_existing_stored_whole; [|exact IH].
      now apply reachable_disciplined. }
  split; [exact H|].
  destruct H as (_ & -> & _).
  apply Finite.Injective_map_NoDup; [|apply seq_NoDup].
  intros i j Hij. now apply chunk_id_inj in Hij.
Qed.

Lemma documents_are_stored_whole_witness :
  let w := fst (ingest_document
                  (sample_env {| chunk_size := 3; chunk_overlap := 1;
                                 retrieval_top_k := 5 |})
                  empty_world (lit "Aaaa. Bbbb. Cccc.") (lit "a.txt")
                  17 0) in
  length (entries_of (lit "a_b60b883d") (collection w)) = 2%nat /\
  stored_whole (lit "a_b60b883d") (collection w) /\
  NoDup (map entry_id (entries_of (lit "a_b60b883d") (collection w))).
Proof.
  intros w. split; [vm_compute; reflexivity|].
  apply documents_are_stored_whole. apply reach_ingest, reach_empty.
Defined.

End WholeDocuments.

Section TextFiles.

(** X12.  For a [.txt] file the text is the file's bytes decoded, so the
    document id is the sanitised stem of the file name followed by the first
    eight hex digits of the MD5 of the file as uploaded; the id is always
    produced. *)
Theorem txt_id_hashes_file_bytes env file filename text :
  lower (Path.suffix filename) = lit ".txt" ->
  extract_text env file filename = Ok text ->
  generate_document_id filename text
  = Ok (safe_filename filename ++ lit "_" ++ slice_to 8 (MD5.hexdigest file)).
Proof.
  intros Hs Hx. unfold extract_text in Hx. rewrite Hs in Hx.
  change (str_eqb (lit ".txt") (lit ".pdf")) with false in Hx.
  change (str_eqb (lit ".txt") (lit ".txt")) with true in Hx.
  cbv iota in Hx. unfold _extract_txt in Hx.
  apply decode_iff_encode in Hx.
  unfold generate_document_id, content_hash. now rewrite Hx.
Qed.

Lemma txt_id_hashes_file_bytes_witness :
  generate_document_id (lit "a.txt") (lit "Hello there.")
  = Ok (safe_filename (lit "a.txt") ++ lit "_"
        ++ slice_to 8 (MD5.hexdigest (lit "Hello there."))).
Proof.
  apply (txt_id_hashes_file_bytes (sample_env default_settings)
           (lit "Hello there.") (lit "a.txt") (lit "Hello there."));
    reflexivity.
Defined.

Lemma all_space_strip s : all_space s -> strip s = [].
Proof.
  intros H. destruct (strip s) eqn:E; [reflexivity|]. exfalso.
  assert (strip s <> []) as Hne by (rewrite E; discriminate).
  apply strip_nonblank_iff in Hne.
  clear E. induction H as [|x xs Hx Hxs IH]; simpl in Hne; [discriminate|].
  rewrite Hx in Hne. simpl in Hne. auto.
Qed.

Lemma all_space_join sep parts :
  all_space sep -> Forall all_space parts -> all_space (join sep parts).
Proof.
  intros Hsep H. induction H as [|p ps Hp Hps IH]; [constructor|].
  destruct ps as [|q ps].
  - simpl. exact Hp.
  - change (join sep (p :: q :: ps)) with (p ++ sep ++ join sep (q :: ps)).
    apply Forall_app. split; [exact Hp|]. apply Forall_app. now split.
Qed.

(** X13.  A PDF whose pages carry no text other than whitespace is refused
    with "Document contains no extractable text", and nothing is stored or
    written. *)
Theorem blank_pdf_is_refused env w file filename file_size now pages :
  lower (Path.suffix filename) = lit ".pdf" ->
  pdf_page_texts env file = Ok pages ->
  Forall all_space pages ->
  ingest_document env w file filename file_size now = (w, Raise empty_content).
Proof.
  intros Hs Hp Hb.
  assert (extract_text env file filename
          = Ok (join [NL; NL]
                     (filter (fun text => negb (str_eqb text [])) pages)))
    as Hx.
  { unfold extract_text. rewrite Hs.
    change (str_eqb (lit ".pdf") (lit ".pdf")) with true. cbv iota.
    unfold _extract_pdf. now rewrite Hp. }
  unfold ingest_document. rewrite Hx.
  rewrite all_space_strip; [reflexivity|].
  apply all_space_join.
  - repeat constructor.
  - clear Hp Hx. induction Hb as [|p ps Hp' Hps IH]; simpl; [constructor|].
    destruct (negb _); [constructor|]; assumption.
Qed.

Lemma blank_pdf_is_refused_witness :
  let env := {| settings := default_settings;
                embeddings_create :=
                  fun texts => Ok (map (fun _ => [1 # 2]%Q) texts);
                pdf_page_texts := fun _ => Ok [lit " "; []; [NL; SP]];
                fnmatch := fnmatch_simple |} in
  ingest_document env empty_world (lit "%PDF") (lit "scan.PDF") 4 0
  = (empty_world, Raise empty_content).
Proof.
  intros env.
  apply (blank_pdf_is_refused env empty_world (lit "%PDF") (lit "scan.PDF")
           4 0 [lit " "; []; [NL; SP]]).
  - reflexivity.
  - reflexivity.
  - repeat constructor.
Defined.

End TextFiles.

(* ================================================================== *)
(** * The document registry *)
(* ================================================================== *)

Section FileNames.

Lemma split_on_aux_no_sep sep s : forall cur,
  ~ In sep s -> Path.split_on_aux sep cur s = [rev cur ++ s].
Proof.
  induction s as [|c s IH]; intros cur H; simpl.
  - now rewrite app_nil_r.
  - destruct (c =? sep) eqn:E.
    + apply Z.eqb_eq in E. exfalso. apply H. now left.
    + rewrite IH by (intros Hin; apply H; now right).
      simpl. now rewrite <- app_assoc.
Qed.

Lemma no_slash_not_In s : no_slash s -> ~ In Path.SLASH s.
Proof.
  unfold no_slash. rewrite Forall_forall. intros H Hin.
  now apply (H _ Hin).
Qed.

Lemma name_no_slash p :
  no_slash p ->
  Path.name p = if str_eqb p [] || str_eqb p [Path.DOT] then [] else p.
Proof.
  intros H. unfold Path.name, Path.split_on.
  rewrite split_on_aux_no_sep by now apply no_slash_not_In.
  cbn [rev app filter]. now destruct (_ || _).
Qed.

(** A name of one component ends with its suffix. *)
Lemma suffix_app p :
  no_slash p -> Path.suffix p <> [] -> exists x, p = x ++ Path.suffix p.
Proof.
  intros H Hs. unfold Path.suffix in *. cbv zeta in *.
  rewrite name_no_slash in * by exact H.
  destruct (_ || _).
  - exfalso. apply Hs. reflexivity.
  - destruct (Path.suffix_index p) as [i|]; [|contradiction].
    exists (firstn i p). symmetry. apply firstn_skipn.
Qed.

Lemma rfind_dot_aux_app a : forall i found b,
  Path.rfind_dot_aux i found (a ++ b)
  = Path.rfind_dot_aux (i + length a) (Path.rfind_dot_aux i found a) b.
Proof.
  induction a as [|c a IH]; intros i found b; simpl.
  - now rewrite Nat.add_0_r.
  - rewrite IH. f_equal. lia.
Qed.

Lemma suffix_json x :
  no_slash x -> x <> [] -> Path.suffix (x ++ lit ".json") = lit ".json".
Proof.
  intros H Hx. unfold Path.suffix. cbv zeta.
  rewrite name_no_slash.
  2:{ apply Forall_app. split; [exact H|]. repeat constructor; discriminate. }
  assert (str_eqb (x ++ lit ".json") [] || str_eqb (x ++ lit ".json") [Path.DOT]
          = false) as ->.
  { apply orb_false_iff. split; apply str_eqb_neq; intros E.
    - apply app_eq_nil in E. destruct E as [_ E]. discriminate E.
    - apply (f_equal (@length _)) in E. rewrite length_app in E.
      simpl in E. lia. }
  unfold Path.suffix_index, Path.rfind_dot.
  rewrite rfind_dot_aux_app.
  change (Path.rfind_dot_aux (0 + length x) (Path.rfind_dot_aux 0 None x)
            (lit ".json")) with (Some (0 + length x)%nat).
  rewrite length_app. simpl length.
  assert (length x <> 0%nat) as Hl
    by (intros E; apply length_zero_iff_nil in E; contradiction).
  assert ((0 <? 0 + length x)%nat && (0 + length x <? length x + 5 - 1)%nat
          = true) as ->.
  { apply andb_true_iff. split; apply Nat.ltb_lt; lia. }
  simpl Nat.add. now rewrite skipn_app, skipn_all, Nat.sub_diag.
Qed.

Lemma ends_with_json x : Registry.ends_with (lit ".json") (x ++ lit ".json") = true.
Proof.
  unfold Registry.ends_with. rewrite rev_app_distr. apply prefixb_app.
Qed.

Lemma lower_length s : length (lower s) = length s.
Proof. apply length_map. Qed.

(** A name that ends with a suffix which lower-cases to [.pdf] or [.txt]
    does not end in [.json]. *)
Lemma ends_with_json_other x suf :
  lower suf = lit ".pdf" \/ lower suf = lit ".txt" ->
  Registry.ends_with (lit ".json") (x ++ suf) = false.
Proof.
  intros H.
  assert (exists a c, suf = a ++ [c] /\ c <> 110) as (a & c & -> & Hc).
  { destruct suf as [|c1 [|c2 [|c3 [|c4 [|c5 r]]]]];
      try (destruct H as [H | H]; discriminate H).
    exists [c1; c2; c3], c4. split; [reflexivity|]. intros ->.
    destruct H as [H | H]; discriminate H. }
  unfold Registry.ends_with. rewrite !rev_app_distr, <- app_assoc.
  change (rev [c] ++ rev a ++ rev x) with (c :: rev a ++ rev x).
  change (rev (lit ".json")) with (110 :: rev (lit ".jso")).
  cbn [prefixb].
  destruct (110 =? c) eqn:E; [|reflexivity].
  apply Z.eqb_eq in E. congruence.
Qed.

End FileNames.

Section DirectoryInvariant.

Import Registry.

Lemma unlink_In nm d f :
  In f (Dir.unlink nm d) <-> In f d /\ fst f <> nm.
Proof.
  unfold Dir.unlink. rewrite filter_In, negb_true_iff, str_eqb_neq.
  reflexivity.
Qed.

Lemma unlink_all_In names : forall d f,
  In f (fold_left (fun d nm => Dir.unlink nm d) names d)
  <-> In f d /\ ~ In (fst f) names.
Proof.
  induction names as [|nm names IH]; intros d f; simpl.
  - tauto.
  - rewrite IH, unlink_In. split.
    + intros [[H1 H2] H3]. split; [exact H1|]. intros [E | E]; auto.
    + intros [H1 H2]. repeat split; auto.
Qed.

Lemma unlink_kept nm d : kept_in_order d -> kept_in_order (Dir.unlink nm d).
Proof.
  intros [Hn Hf]. split.
  - now apply NoDup_map_filter.
  - apply Forall_forall. intros f Hin. apply unlink_In in Hin.
    rewrite Forall_forall in Hf. now apply Hf.
Qed.

Lemma unlink_all_kept names : forall d,
  kept_in_order d ->
  kept_in_order (fold_left (fun d nm => Dir.unlink nm d) names d).
Proof.
  induction names as [|nm names IH]; intros d H; simpl; [exact H|].
  now apply IH, unlink_kept.
Qed.

Lemma write_inv nm data d d' :
  Dir.write nm data d = Ok d' ->
  no_slash nm /\ d' = Dir.unlink nm d ++ [(nm, data)].
Proof.
  unfold Dir.write.
  destruct (existsb (Z.eqb Path.SLASH) nm) eqn:E; [discriminate|].
  intros [= <-]. split; [now apply existsb_no_slash | reflexivity].
Qed.

Lemma write_kept nm data d d' :
  kept_in_order d -> well_named (nm, data) ->
  Dir.write nm data d = Ok d' -> kept_in_order d'.
Proof.
  intros Hd Hf Hw. apply write_inv in Hw. destruct Hw as [_ ->].
  destruct (unlink_kept nm d Hd) as [Hn Ha]. split.
  - rewrite map_app. apply NoDup_app; [exact Hn | repeat constructor; auto |].
    intros x Hx [<- | []]. apply in_map_iff in Hx.
    destruct Hx as (f & Hf1 & Hf2). apply unlink_In in Hf2. tauto.
  - apply Forall_app. split; [exact Ha | now repeat constructor].
Qed.

Lemma extract_text_suffix env file filename text :
  extract_text env file filename = Ok text ->
  lower (Path.suffix filename) = lit ".pdf" \/
  lower (Path.suffix filename) = lit ".txt".
Proof.
  unfold extract_text.
  destruct (str_eqb _ (lit ".pdf")) eqn:E1.
  - apply str_eqb_eq in E1. now left.
  - destruct (str_eqb _ (lit ".txt")) eqn:E2; [|discriminate].
    apply str_eqb_eq in E2. now right.
Qed.

Lemma document_id_nonempty filename content doc_id :
  generate_document_id filename content = Ok doc_id -> doc_id <> [].
Proof.
  intros H. apply generate_document_id_inv in H.
  destruct H as (h & _ & ->). intros E. apply app_eq_nil in E.
  destruct E as [_ E]. discriminate E.
Qed.

Lemma raw_file_well_named env file filename text doc_id :
  extract_text env file filename = Ok text ->
  no_slash (doc_id ++ lit "_" ++ filename) ->
  well_named (doc_id ++ lit "_" ++ filename, RawFile file).
Proof.
  intros Hx Hs. apply extract_text_suffix in Hx.
  apply no_slash_app in Hs. destruct Hs as [_ Hs].
  apply no_slash_app in Hs. destruct Hs as [_ Hs].
  destruct (suffix_app filename Hs) as [x Hf].
  - intros E. rewrite E in Hx. destruct Hx as [Hx | Hx]; discriminate Hx.
  - unfold well_named. cbn [fst snd]. rewrite Hf, !app_assoc.
    now apply ends_with_json_other.
Qed.

Lemma record_well_named filename content info :
  generate_document_id filename content = Ok (id info) ->
  well_named (id info ++ lit ".json", MetadataFile info).
Proof.
  intros H. split; [reflexivity|]. cbn [fst]. apply suffix_json.
  - now apply (document_id_no_slash filename content).
  - now apply (document_id_nonempty filename content).
Qed.

Lemma ingest_document_kept env w file filename file_size now :
  kept_in_order (uploads w) ->
  kept_in_order
    (uploads (fst (ingest_document env w file filename file_size now))).
Proof.
  intros Hw. unfold ingest_document.
  destruct (extract_text env file filename) as [text|e0] eqn:Ex; [|exact Hw].
  destruct (strip text) as [|c0 t0]; [exact Hw|].
  destruct (generate_document_id filename text) as [doc_id|e0] eqn:Eid;
    [|exact Hw].
  cbv zeta.
  destruct (chunk_text (settings env) text) as [|ch chs]; [exact Hw|].
  destruct (generate_embeddings env (ch :: chs)) as [embs|e0]; [|exact Hw].
  destruct (Chroma.add _ _ _ _ _) as [stored|e0]; [|exact Hw].
  destruct (Dir.write _ (RawFile file) _) as [saved|e1] eqn:E1; [|exact Hw].
  assert (kept_in_order saved) as Hs.
  { apply (write_kept _ _ _ _ Hw) in E1; [exact E1|].
    apply write_inv in E1. destruct E1 as [E1 _].
    now apply (raw_file_well_named env file filename text). }
  destruct (Dir.write _ (MetadataFile _) _) as [listed|e1] eqn:E2;
    [|exact Hs].
  cbn [fst uploads].
  apply (write_kept _ _ _ _ Hs) in E2; [exact E2|].
  now apply (record_well_named filename text
               {| id := doc_id; filename := filename;
                  file_type := lstrip_dots (lower (Path.suffix filename));
                  chunk_count := len (ch :: chs); uploaded_at := now;
                  file_size := file_size |}).
Qed.

Lemma delete_document_kept env w doc_id :
  kept_in_order (uploads w) ->
  kept_in_order (uploads (fst (delete_document env w doc_id))).
Proof.
  intros Hw. unfold delete_document. cbn [fst uploads].
  apply unlink_all_kept.
  destruct (Dir.exists_ _ _); [now apply unlink_kept | exact Hw].
Qed.

Lemma reachable_kept w : reachable w -> kept_in_order (uploads w).
Proof.
  induction 1 as [|env w file filename file_size now Hw IH
                  |env w doc_id Hw IH].
  - split; constructor.
  - now apply ingest_document_kept.
  - now apply delete_document_kept.
Qed.

End DirectoryInvariant.

Section Listing.

Import Registry.

Lemma read_all_records parse d :
  Forall well_named d -> read_all parse d = records d.
Proof.
  induction 1 as [|[nm data] d Hf Hd IH]; [reflexivity|].
  unfold well_named in Hf. cbn [fst snd] in Hf. cbn [read_all].
  destruct data as [content|info].
  - rewrite Hf. exact IH.
  - destruct Hf as [-> _]. rewrite ends_with_json.
    cbn [read_document_info]. rewrite IH. reflexivity.
Qed.

Lemma records_In d info :
  Forall well_named d ->
  In info (records d) <-> In (id info ++ lit ".json", MetadataFile info) d.
Proof.
  intros Hd. unfold records. rewrite in_flat_map. split.
  - intros ([nm data] & Hin & H). cbn [snd] in H.
    destruct data as [content|info']; [contradiction|].
    destruct H as [-> | []].
    rewrite Forall_forall in Hd. destruct (Hd _ Hin) as [E _].
    cbn [fst snd] in E. now rewrite <- E.
  - intros H. eexists. split; [exact H|]. now left.
Qed.

Lemma records_ids d :
  kept_in_order d -> NoDup (map id (records d)).
Proof.
  intros [Hn Hf]. induction d as [|[nm data] d IH]; [constructor|].
  inversion_clear Hn as [|? ? Hnm Hn']. inversion_clear Hf as [|? ? Hf0 Hf'].
  specialize (IH Hn' Hf'). destruct data as [content|info]; [exact IH|].
  change (records ((nm, MetadataFile info) :: d)) with (info :: records d).
  simpl. constructor; [|exact IH].
  intros Hin. apply in_map_iff in Hin. destruct Hin as (info' & Hid & Hin).
  apply (records_In d info' Hf') in Hin.
  destruct Hf0 as [E _]. cbn [fst snd] in E.
  apply Hnm. apply in_map_iff. eexists. split; [|exact Hin].
  cbn [fst]. now rewrite Hid, E.
Qed.

Lemma insert_newest_perm x l : Permutation (insert_newest x l) (x :: l).
Proof.
  induction l as [|y l IH]; simpl; [reflexivity|].
  destruct (uploaded_at y <=? uploaded_at x); [reflexivity|].
  rewrite IH. apply perm_swap.
Qed.

Lemma sort_newest_perm l : Permutation (sort_newest l) l.
Proof.
  induction l as [|x l IH]; simpl; [reflexivity|].
  rewrite insert_newest_perm. now constructor.
Qed.

Lemma insert_newest_sorted x l :
  newest_first l -> newest_first (insert_newest x l).
Proof.
  unfold newest_first. induction 1 as [|y l Hl IH Hy]; simpl.
  - repeat constructor.
  - destruct (uploaded_at y <=? uploaded_at x) eqn:E.
    + apply Z.leb_le in E. constructor; [now constructor|].
      constructor; [exact E|]. rewrite Forall_forall in *.
      intros z Hz. specialize (Hy z Hz). lia.
    + apply Z.leb_gt in E. constructor; [exact IH|].
      rewrite Forall_forall in *. intros z Hz.
      apply (Permutation_in _ (insert_newest_perm x l)) in Hz.
      destruct Hz as [<- | Hz]; [lia | now apply Hy].
Qed.

Lemma sort_newest_sorted l : newest_first (sort_newest l).
Proof.
  induction l as [|x l IH]; simpl; [constructor|].
  now apply insert_newest_sorted.
Qed.

Lemma find_by_id l x :
  NoDup (map id l) -> In x l ->
  find (fun doc => str_eqb (id doc) (id x)) l = Some x.
Proof.
  induction l as [|y l IH]; intros Hn Hin; [contradiction|].
  inversion_clear Hn as [|? ? Hy Hn']. simpl.
  destruct Hin as [-> | Hin]; [now rewrite str_eqb_refl|].
  destruct (str_eqb (id y) (id x)) eqn:E; [|now apply IH].
  apply str_eqb_eq in E. exfalso. apply Hy. rewrite E. now apply in_map.
Qed.

Lemma find_some_id l d x :
  find (fun doc => str_eqb (id doc) d) l = Some x -> In x l /\ id x = d.
Proof.
  intros H. apply find_some in H. now rewrite str_eqb_eq in H.
Qed.

(** What the listing holds when the directory is in order. *)
Lemma list_documents_spec parse w :
  kept_in_order (uploads w) ->
  newest_first (Registry.list_documents parse w) /\
  NoDup (map id (Registry.list_documents parse w)) /\
  forall info,
    In info (Registry.list_documents parse w) <->
    In (id info ++ lit ".json", MetadataFile info) (uploads w).
Proof.
  intros Hw. unfold Registry.list_documents.
  rewrite (read_all_records parse _ (proj2 Hw)).
  split; [apply sort_newest_sorted|]. split.
  - eapply Permutation_NoDup; [|apply (records_ids _ Hw)].
    apply Permutation_map. symmetry. apply sort_newest_perm.
  - intros info. rewrite <- (records_In _ info (proj2 Hw)). split.
    + apply Permutation_in, sort_newest_perm.
    + apply Permutation_in. symmetry. apply sort_newest_perm.
Qed.

(** The route of one document answers with the record stored under the id. *)
Lemma get_document_spec parse w d info :
  kept_in_order (uploads w) ->
  DocumentsHandlers.get_document parse w d = DocumentsHandlers.Found info
  <-> In (d ++ lit ".json", MetadataFile info) (uploads w).
Proof.
  intros Hw. destruct (list_documents_spec parse w Hw) as (_ & Hn & Hin).
  unfold DocumentsHandlers.get_document. split.
  - destruct (find _ _) as [doc|] eqn:E; [|discriminate].
    intros [= ->]. apply find_some_id in E. destruct E as [E <-].
    now apply Hin.
  - intros H. destruct Hw as [_ Hf]. rewrite Forall_forall in Hf.
    destruct (Hf _ H) as [E _]. cbn [fst snd] in E.
    apply app_inv_tail in E. subst d. apply Hin in H.
    now rewrite (find_by_id _ info Hn H).
Qed.

Lemma get_document_cases parse w d :
  (exists info, DocumentsHandlers.get_document parse w d
                = DocumentsHandlers.Found info) \/
  DocumentsHandlers.get_document parse w d
  = DocumentsHandlers.NotFound (lit "Document '" ++ d ++ lit "' not found").
Proof.
  unfold DocumentsHandlers.get_document.
  destruct (find _ _) as [doc|]; [left; now exists doc | now right].
Qed.

(** Two directories that hold the same record under [d] answer alike. *)
Lemma get_document_same parse w w' d :
  kept_in_order (uploads w) -> kept_in_order (uploads w') ->
  (forall info, In (d ++ lit ".json", MetadataFile info) (uploads w') <->
                In (d ++ lit ".json", MetadataFile info) (uploads w)) ->
  DocumentsHandlers.get_document parse w' d
  = DocumentsHandlers.get_document parse w d.
Proof.
  intros Hw Hw' H.
  destruct (get_document_cases parse w d) as [[info E] | E].
  - rewrite E. apply (get_document_spec parse w' d info Hw'), H.
    now apply (get_document_spec parse w d info Hw).
  - destruct (get_document_cases parse w' d) as [[info E'] | E'].
    + apply (get_document_spec parse w' d info Hw'), H in E'.
      apply (get_document_spec parse w d info Hw) in E'. congruence.
    + congruence.
Qed.

(** X14.  In every world the pipeline can produce, the listing holds one
    entry for each record stored in the upload directory and nothing else,
    no id twice, newest first; the uploaded files themselves are never read
    as records, whatever they contain. *)
Theorem list_documents_lists_records parse w :
  reachable w ->
  let documents := Registry.list_documents parse w in
  newest_first documents /\
  NoDup (map id documents) /\
  (forall info,
     In info documents <->
     In (id info ++ lit ".json", MetadataFile info) (uploads w)) /\
  (forall parse', Registry.list_documents parse' w = documents).
Proof.
  intros Hw. apply reachable_kept in Hw. cbv zeta.
  destruct (list_documents_spec parse w Hw) as (Hs & Hn & Hin).
  repeat split; try assumption; try apply Hin.
  intros parse'. unfold Registry.list_documents.
  now rewrite !(read_all_records _ _ (proj2 Hw)).
Qed.

Lemma list_documents_lists_records_witness :
  let parse := fun _ : bytes => @None DocumentInfo in
  let w := fst (ingest_document (sample_env default_settings) empty_world
                                (lit "Hello there.") (lit "a.txt") 12 0) in
  let documents := Registry.list_documents parse w in
  newest_first documents /\
  NoDup (map id documents) /\
  (forall info,
     In info documents <->
     In (id info ++ lit ".json", MetadataFile info) (uploads w)) /\
  (forall parse', Registry.list_documents parse' w = documents).
Proof.
  intros parse w.
  apply (list_documents_lists_records parse w).
  apply reach_ingest, reach_empty.
Defined.

End Listing.

Section RegistryRoundTrips.

Import Registry.

Lemma write_In nm data d d' f :
  Dir.write nm data d = Ok d' ->
  In f d' <-> (In f d /\ fst f <> nm) \/ f = (nm, data).
Proof.
  intros H. apply write_inv in H. destruct H as [_ ->].
  rewrite in_app_iff, unlink_In. simpl. intuition congruence.
Qed.

Lemma exists_In nm d : Dir.exists_ nm d = true <-> In nm (map fst d).
Proof.
  unfold Dir.exists_. rewrite existsb_exists, in_map_iff.
  split; intros (f & H1 & H2); exists f.
  - apply str_eqb_eq in H2. tauto.
  - split; [tauto|]. apply str_eqb_eq. tauto.
Qed.

(** What a completed run leaves in the upload directory. *)
Lemma ingest_document_uploads env w file filename file_size now w' doc_info :
  ingest_document env w file filename file_size now = (w', Ok doc_info) ->
  exists saved,
    Dir.write (id doc_info ++ lit "_" ++ filename) (RawFile file) (uploads w)
      = Ok saved /\
    Dir.write (id doc_info ++ lit ".json") (MetadataFile doc_info) saved
      = Ok (uploads w').
Proof.
  unfold ingest_document.
  destruct (extract_text env file filename) as [text|e0]; [|discriminate].
  destruct (strip text) as [|c0 t0]; [discriminate|].
  destruct (generate_document_id filename text) as [doc_id|e0];
    [|discriminate].
  cbv zeta.
  destruct (chunk_text (settings env) text) as [|ch chs]; [discriminate|].
  destruct (generate_embeddings env (ch :: chs)) as [embs|e0];
    [|discriminate].
  destruct (Chroma.add _ _ _ _ _) as [stored|e0]; [|discriminate].
  destruct (Dir.write _ (RawFile file) _) as [saved|e1] eqn:E1;
    [|discriminate].
  destruct (Dir.write _ (MetadataFile _) _) as [listed|e1] eqn:E2;
    [|discriminate].
  intros [= <- <-]. exists saved. split; [exact E1 | exact E2].
Qed.

(** X15.  A document whose ingestion completed is found under its id, is
    listed, and its file is in the upload directory under the id, an
    underscore and the file name. *)
Theorem ingested_document_is_found
  parse env w file filename file_size now w' doc_info :
  reachable w ->
  ingest_document env w file filename file_size now = (w', Ok doc_info) ->
  DocumentsHandlers.get_document parse w' (id doc_info)
    = DocumentsHandlers.Found doc_info /\
  In doc_info (fst (DocumentsHandlers.list_documents parse w')) /\
  In (id doc_info ++ lit "_" ++ filename, RawFile file) (uploads w').
Proof.
  intros Hw H.
  assert (reachable w') as Hw'.
  { replace w' with (fst (ingest_document env w file filename file_size now))
      by now rewrite H.
    now constructor. }
  apply reachable_kept in Hw'.
  destruct (ingest_document_uploads _ _ _ _ _ _ _ _ H) as (saved & E1 & E2).
  assert (In (id doc_info ++ lit ".json", MetadataFile doc_info) (uploads w'))
    as Hin by (apply (write_In _ _ _ _ _ E2); now right).
  split; [now apply get_document_spec|]. split.
  - unfold DocumentsHandlers.list_documents. cbn [fst].
    now apply (list_documents_spec parse w' Hw').
  - apply (write_In _ _ _ _ _ E2). left. split.
    + apply (write_In _ _ _ _ _ E1). now right.
    + cbn [fst]. intros E.
      pose proof (ends_with_json (id doc_info)) as Hj. rewrite <- E in Hj.
      assert (kept_in_order saved) as [_ Hs].
      { apply reachable_kept in Hw.
        apply (write_kept _ _ _ _ Hw) in E1; [exact E1|].
        destruct Hw' as [_ Hf]. rewrite Forall_forall in Hf.
        pose proof (ingest_document_ok _ _ _ _ _ _ _ _ H)
          as (text & _ & _ & Hx & _).
        apply write_inv in E1. destruct E1 as [E1 _].
        now apply (raw_file_well_named env file filename text). }
      rewrite Forall_forall in Hs.
      assert (In (id doc_info ++ lit "_" ++ filename, RawFile file) saved)
        as Hr by (apply (write_In _ _ _ _ _ E1); now right).
      specialize (Hs _ Hr). unfold well_named in Hs. cbn [fst snd] in Hs.
      congruence.
Qed.

Lemma ingested_document_is_found_witness :
  let parse := fun _ : bytes => @None DocumentInfo in
  let doc_info := {| id := lit "a_9d6a2963"; filename := lit "a.txt";
                     file_type := lit "txt"; chunk_count := 1;
                     uploaded_at := 0; file_size := 12 |} in
  let w' := fst (ingest_document (sample_env default_settings) empty_world
                                 (lit "Hello there.") (lit "a.txt") 12 0) in
  DocumentsHandlers.get_document parse w' (id doc_info)
    = DocumentsHandlers.Found doc_info /\
  In doc_info (fst (DocumentsHandlers.list_documents parse w')) /\
  In (id doc_info ++ lit "_" ++ lit "a.txt", RawFile (lit "Hello there."))
     (uploads w').
Proof.
  intros parse doc_info w'.
  apply (ingested_document_is_found parse (sample_env default_settings)
           empty_world (lit "Hello there.") (lit "a.txt") 12 0 w' doc_info).
  - apply reach_empty.
  - vm_compute. reflexivity.
Defined.

Lemma delete_document_uploads_In env w doc_id f :
  In f (uploads (fst (delete_document env w doc_id))) <->
  In f (uploads w) /\ fst f <> doc_id ++ lit ".json" /\
  ~ (fnmatch env (doc_id ++ lit "_*") (fst f) = true /\
     Path.suffix (fst f) <> lit ".json").
Proof.
  unfold delete_document. cbn [fst uploads].
  rewrite unlink_all_In.
  set (d1 := if Dir.exists_ _ _ then _ else _).
  assert (In f d1 <-> In f (uploads w) /\ fst f <> doc_id ++ lit ".json")
    as Hd1.
  { subst d1. destruct (Dir.exists_ _ _) eqn:E; [apply unlink_In|].
    split; [|tauto]. intros H. split; [exact H|]. intros E'.
    assert (Dir.exists_ (doc_id ++ lit ".json") (uploads w) = true);
      [|congruence].
    apply exists_In. rewrite <- E'. now apply in_map. }
  rewrite filter_In, glob_In, negb_true_iff, str_eqb_neq, Hd1.
  split.
  - intros [[H1 H2] H3]. repeat split; try assumption.
    intros [H4 H5]. apply H3. repeat split; try assumption.
    apply exists_In. apply in_map. now apply Hd1.
  - intros (H1 & H2 & H3). repeat split; try assumption.
    intros [[H4 _] H5]. apply H3. now split.
Qed.

(** X16.  After [delete_document] the document is not found any more, in
    whatever state the directory was. *)
Theorem deleted_document_not_found parse env w doc_id :
  reachable w ->
  DocumentsHandlers.get_document parse
    (fst (delete_document env w doc_id)) doc_id
  = DocumentsHandlers.NotFound
      (lit "Document '" ++ doc_id ++ lit "' not found").
Proof.
  intros Hw.
  assert (reachable (fst (delete_document env w doc_id))) as Hw'
    by now constructor.
  apply reachable_kept in Hw'.
  destruct (get_document_cases parse (fst (delete_document env w doc_id))
              doc_id) as [[info E] | E]; [|exact E].
  exfalso. apply (get_document_spec _ _ _ _ Hw') in E.
  apply delete_document_uploads_In in E. cbn [fst] in E.
  destruct E as (_ & E & _). now apply E.
Qed.

Lemma deleted_document_not_found_witness :
  let env := sample_env default_settings in
  let w := fst (ingest_document env empty_world (lit "Hello there.")
                                (lit "a.txt") 12 0) in
  DocumentsHandlers.get_document (fun _ => None)
    (fst (delete_document env w (lit "a_9d6a2963"))) (lit "a_9d6a2963")
  = DocumentsHandlers.NotFound
      (lit "Document '" ++ lit "a_9d6a2963" ++ lit "' not found").
Proof.
  intros env w.
  apply (deleted_document_not_found (fun _ => None) env w (lit "a_9d6a2963")).
  apply reach_ingest, reach_empty.
Defined.

Lemma record_survives_delete env w doc_id d info :
  kept_in_order (uploads w) -> d <> doc_id ->
  In (d ++ lit ".json", MetadataFile info)
     (uploads (fst (delete_document env w doc_id)))
  <-> In (d ++ lit ".json", MetadataFile info) (uploads w).
Proof.
  intros [_ Hw] Hd. rewrite delete_document_uploads_In. cbn [fst].
  split; [tauto|]. intros H. split; [exact H|]. split.
  - intros E. apply app_inv_tail in E. contradiction.
  - intros [_ Hs]. rewrite Forall_forall in Hw.
    destruct (Hw _ H) as [_ E]. cbn [fst] in E. contradiction.
Qed.

(** X17.  Deleting a document never removes the record of another one:
    every other id is answered as before. *)
Theorem delete_keeps_other_records parse env w doc_id d :
  reachable w -> d <> doc_id ->
  DocumentsHandlers.get_document parse (fst (delete_document env w doc_id)) d
  = DocumentsHandlers.get_document parse w d.
Proof.
  intros Hw Hd.
  assert (reachable (fst (delete_document env w doc_id))) as Hw'
    by now constructor.
  apply reachable_kept in Hw, Hw'.
  apply get_document_same; try assumption.
  intros info. now apply record_survives_delete.
Qed.

Lemma delete_keeps_other_records_witness :
  let env := sample_env default_settings in
  let w := fst (ingest_document env empty_world (lit "Hello there.")
                                (lit "a.txt") 12 0) in
  DocumentsHandlers.get_document (fun _ => None)
    (fst (delete_document env w (lit "a"))) (lit "a_9d6a2963")
  = DocumentsHandlers.get_document (fun _ => None) w (lit "a_9d6a2963").
Proof.
  intros env w.
  apply (delete_keeps_other_records (fun _ => None) env w (lit "a")
           (lit "a_9d6a2963")).
  - apply reach_ingest, reach_empty.
  - intros E. discriminate E.
Defined.

Lemma record_survives_write nm data d d' x info :
  Dir.write nm data d = Ok d' -> nm <> x ++ lit ".json" ->
  In (x ++ lit ".json", MetadataFile info) d'
  <-> In (x ++ lit ".json", MetadataFile info) d.
Proof.
  intros H Hn. rewrite (write_In _ _ _ _ _ H). cbn [fst]. split.
  - intros [[H1 _] | E]; [exact H1|]. congruence.
  - intros H1. left. split; [exact H1 | congruence].
Qed.

(** X18.  Ingesting a document leaves the record of every other document as
    it is, whether the run completes or fails. *)
Theorem ingest_keeps_other_records
  parse env w file filename file_size now d :
  reachable w ->
  (forall text, extract_text env file filename = Ok text ->
                generate_document_id filename text <> Ok d) ->
  DocumentsHandlers.get_document parse
    (fst (ingest_document env w file filename file_size now)) d
  = DocumentsHandlers.get_document parse w d.
Proof.
  intros Hw Hd.
  assert (reachable (fst (ingest_document env w file filename file_size now)))
    as Hw' by now constructor.
  apply reachable_kept in Hw, Hw'.
  apply get_document_same; try assumption. clear Hw'.
  intros info. unfold ingest_document.
  destruct (extract_text env file filename) as [text|e0] eqn:Ex;
    [|reflexivity].
  destruct (strip text) as [|c0 t0]; [reflexivity|].
  destruct (generate_document_id filename text) as [doc_id|e0] eqn:Eid;
    [|reflexivity].
  assert (d <> doc_id) as Hne.
  { intros ->. now apply (Hd text). }
  cbv zeta.
  destruct (chunk_text (settings env) text) as [|ch chs]; [reflexivity|].
  destruct (generate_embeddings env (ch :: chs)) as [embs|e0]; [|reflexivity].
  destruct (Chroma.add _ _ _ _ _) as [stored|e0]; [|reflexivity].
  destruct (Dir.write _ (RawFile file) _) as [saved|e1] eqn:E1;
    [|reflexivity].
  assert (In (d ++ lit ".json", MetadataFile info) saved
          <-> In (d ++ lit ".json", MetadataFile info) (uploads w)) as Hs.
  { apply (record_survives_write _ _ _ _ _ _ E1). intros E.
    pose proof (ends_with_json d) as Hj. rewrite <- E in Hj.
    pose proof E1 as E1'. apply write_inv in E1'. destruct E1' as [E1' _].
    pose proof (raw_file_well_named env file filename text doc_id Ex E1')
      as Hr.
    unfold well_named in Hr. cbn [fst snd] in Hr. congruence. }
  destruct (Dir.write _ (MetadataFile _) _) as [listed|e1] eqn:E2;
    cbn [fst uploads]; [|exact Hs].
  rewrite (record_survives_write _ _ _ _ _ _ E2); [exact Hs|].
  intros E. apply app_inv_tail in E. congruence.
Qed.

Lemma ingest_keeps_other_records_witness :
  let env := sample_env default_settings in
  let w := fst (ingest_document env empty_world (lit "Hello there.")
                                (lit "a.txt") 12 0) in
  DocumentsHandlers.get_document (fun _ => None)
    (fst (ingest_document env w (lit "Other text.") (lit "b.txt") 11 1))
    (lit "a_9d6a2963")
  = DocumentsHandlers.get_document (fun _ => None) w (lit "a_9d6a2963").
Proof.
  intros env w.
  apply (ingest_keeps_other_records (fun _ => None) env w
           (lit "Other text.") (lit "b.txt") 11 1 (lit "a_9d6a2963")).
  - apply reach_ingest, reach_empty.
  - intros text H. vm_compute in H. injection H as H. subst text.
    vm_compute. intros E. discriminate E.
Defined.

End RegistryRoundTrips.

Section CleanUp.

Import Registry.

Lemma fnmatch_simple_star rest : fnmatch_simple [42] rest = true.
Proof.
  induction rest as [|c rest IH]; [reflexivity|].
  simpl in *. destruct rest; [reflexivity|]. simpl. exact IH.
Qed.

Lemma fnmatch_simple_cons c p nm :
  fnmatch_simple (c :: p) nm =
  if c =? 42 then
    fnmatch_simple p nm ||
    match nm with
    | [] => false
    | _ :: nm' => fnmatch_simple (c :: p) nm'
    end
  else
    match nm with
    | [] => false
    | c' :: nm' => ((c =? 63) || (c =? c')) && fnmatch_simple p nm'
    end.
Proof.
  destruct nm as [|c' nm']; cbn [fnmatch_simple];
    destruct (c =? 42); reflexivity.
Qed.

(** A pattern made of a text and a star matches every name that starts
    with the text. *)
Lemma fnmatch_simple_prefix p : forall rest,
  fnmatch_simple (p ++ [42]) (p ++ rest) = true.
Proof.
  induction p as [|c p IH]; intros rest.
  - apply fnmatch_simple_star.
  - cbn [app]. rewrite fnmatch_simple_cons.
    destruct (c =? 42) eqn:E.
    + apply orb_true_iff. right. rewrite fnmatch_simple_cons, E.
      apply orb_true_iff. left. apply IH.
    + rewrite Z.eqb_refl, orb_true_r. apply IH.
Qed.




End CleanUp.

(* ================================================================== *)
(** * More about retrieval *)
(* ================================================================== *)

Section SearchOrder.

Import FilteredRetrieval.
Local Open Scope Q_scope.

Variable fl : rounding.

Lemma insert_desc_sorted x l :
  by_score_desc l -> by_score_desc (insert_desc x l).
Proof.
  unfold by_score_desc. induction 1 as [|y l Hl IH Hy]; simpl.
  - repeat constructor.
  - destruct (Qle_bool (score y) (score x)) eqn:E.
    + apply Qle_bool_iff in E. constructor; [now constructor|].
      constructor; [exact E|]. rewrite Forall_forall in *.
      intros z Hz. eapply Qle_trans; [apply (Hy z Hz) | exact E].
    + assert (score x <= score y) as Hxy.
      { destruct (Qlt_le_dec (score x) (score y)) as [H | H].
        - now apply Qlt_le_weak.
        - apply Qle_bool_iff in H. congruence. }
      constructor; [exact IH|]. rewrite Forall_forall in *.
      intros z Hz.
      apply (Permutation_in _ (Permutation_sym (insert_desc_perm x l))) in Hz.
      destruct Hz as [<- | Hz]; [exact Hxy | now apply Hy].
Qed.

Lemma sort_desc_sorted l : by_score_desc (sort_desc l).
Proof.
  induction l as [|x l IH]; simpl; [constructor|].
  now apply insert_desc_sorted.
Qed.

(** A list already in order is left as it is: the sort is stable. *)
Lemma sort_desc_fixed l : by_score_desc l -> sort_desc l = l.
Proof.
  unfold by_score_desc. induction 1 as [|y l Hl IH Hy]; [reflexivity|].
  simpl. rewrite IH. destruct l as [|z l]; [reflexivity|].
  simpl. inversion_clear Hy as [|? ? Hz _].
  apply Qle_bool_iff in Hz. now rewrite Hz.
Qed.

Lemma convert_from_fields results chunk_ids : forall i chunks,
  convert_from fl results i chunk_ids = Ok chunks ->
  length chunks = length chunk_ids /\
  forall k ch, nth_error chunks k = Some ch ->
               built_from fl results (i + k) ch.
Proof.
  induction chunk_ids as [|cid rest IH]; intros i chunks; simpl.
  - intros [= <-]. split; [reflexivity|]. intros [|k] ch; discriminate.
  - destruct (getitem (metadatas results) 0) as [ms|] eqn:E1;
      [|discriminate]. simpl.
    destruct (getitem ms i) as [md|] eqn:E2; [|discriminate]. simpl.
    destruct (getitem (documents results) 0) as [docs|] eqn:E3;
      [|discriminate]. simpl.
    destruct (getitem docs i) as [doc|] eqn:E4; [|discriminate]. simpl.
    destruct (getitem (distances results) 0) as [ds|] eqn:E5;
      [|discriminate]. simpl.
    destruct (getitem ds i) as [dist|] eqn:E6; [|discriminate]. simpl.
    destruct (new_SourceChunk _ _ _ _ _) as [chunk|] eqn:E7;
      [|discriminate]. simpl.
    destruct (convert_from fl results (S i) rest) as [chunks'|] eqn:E8;
      [|discriminate]. simpl.
    intros [= <-]. destruct (IH _ _ E8) as [Hl Hk].
    split; [now rewrite <- Hl|].
    intros [|k] ch Hn; simpl in Hn.
    + injection Hn as <-. rewrite Nat.add_0_r.
      apply getitem_ok in E1, E2, E3, E4, E5, E6.
      apply new_SourceChunk_ok in E7.
      destruct E7 as (Hs & _ & Hc & Hd & Hnm & Hi).
      exists ms, md, docs, doc, ds, dist. now repeat split.
    + rewrite Nat.add_succ_r. now apply (Hk k).
Qed.

Lemma convert_fields results chunks :
  convert fl results = Ok chunks ->
  length chunks = length (hd [] (ids results)) /\
  forall k ch, nth_error chunks k = Some ch -> built_from fl results k ch.
Proof.
  unfold convert. destruct (ids results) as [|chunk_ids rest].
  - intros [= <-]. split; [reflexivity|]. intros [|k] ch; discriminate.
  - intros H. apply convert_from_fields in H. exact H.
Qed.

(** X21.  What [search] returns is what the store returned, put in order of
    score.  There is one converted chunk for each id the store gave; the
    chunk at position [k] carries the document id, name, index and text the
    store gave at position [k], with the score computed from the distance at
    that position.  The result holds these chunks, each as often as it was
    converted, with scores that do not increase along the list; and when the
    store's order already has this property, the result is in the store's
    order. *)
Theorem search_results_from_store
  env collection_query c query top_k chunks :
  search fl env collection_query c query top_k = Ok chunks ->
  by_score_desc chunks /\
  ((c = [] /\ chunks = []) \/
   exists query_embedding converted,
     embed_query env query = Ok query_embedding /\
     let results :=
       collection_query c query_embedding
         match top_k with
         | None => retrieval_top_k (settings env)
         | Some k => k
         end in
     length converted = length (hd [] (ids results)) /\
     (forall k ch, nth_error converted k = Some ch ->
                   built_from fl results k ch) /\
     Permutation converted chunks /\
     length chunks = length (hd [] (ids results)) /\
     (by_score_desc converted -> chunks = converted)).
Proof.
  intros H. apply search_ok in H.
  destruct H as [[-> ->] | (v & converted & Hv & Hc & ->)].
  - split; [constructor | now left].
  - split; [apply sort_desc_sorted|]. right. exists v, converted.
    split; [exact Hv|]. cbv zeta. apply convert_fields in Hc.
    destruct Hc as [Hl Hk]. split; [exact Hl|]. split; [exact Hk|].
    split; [apply sort_desc_perm|]. split.
    + rewrite <- Hl. apply Permutation_length. symmetry.
      apply sort_desc_perm.
    + apply sort_desc_fixed.
Qed.

(** X22.  [search_with_filter] with no document id is [search]; with some,
    and a store that answers a filtered query with records of the documents
    asked for only, every chunk it returns belongs to one of them, and the
    chunks come in order of score. *)
Theorem filtered_search_stays_in_documents
  env collection_query collection_query_where c query document_ids top_k :
  search_with_filter fl env collection_query collection_query_where
                     c query [] top_k
  = search fl env collection_query c query top_k /\
  (respects_filter collection_query_where ->
   forall chunks,
     document_ids <> [] ->
     search_with_filter fl env collection_query collection_query_where
                        c query document_ids top_k = Ok chunks ->
     by_score_desc chunks /\
     Forall (fun ch => In (sc_document_id ch) document_ids) chunks).
Proof.
  split.
  - unfold search_with_filter, search. now destruct top_k.
  - intros Hf chunks Hne. unfold search_with_filter.
    destruct document_ids as [|d0 ds]; [contradiction|].
    destruct (Chroma.count c =? 0)%Z.
    + intros [= <-]. split; constructor.
    + destruct (embed_query env query) as [v|]; [|discriminate]. simpl.
      destruct (convert fl _) as [converted|] eqn:Hc; [|discriminate].
      simpl. intros [= <-]. split; [apply sort_desc_sorted|].
      apply convert_fields in Hc. destruct Hc as [_ Hk].
      apply Forall_forall. intros ch Hin.
      apply (Permutation_in _ (Permutation_sym (sort_desc_perm converted)))
        in Hin.
      apply In_nth_error in Hin. destruct Hin as [k Hn].
      destruct (Hk k ch Hn)
        as (ms & md & _ & _ & _ & _ & Hms & Hmd & _ & _ & _ & _ & Hid & _).
      rewrite Hid. specialize (Hf _ _ _ _ _ Hms).
      rewrite Forall_forall in Hf. apply Hf.
      now apply nth_error_In in Hmd.
Qed.

End SearchOrder.

Lemma search_results_from_store_witness :
  let fl := fun q : Q => q in
  let env := sample_env default_settings in
  let c := collection
             (fst (ingest_document env empty_world (lit "Hello there.")
                                   (lit "a.txt") 12 0)) in
  let collection_query := fun (c : Collection) (_ : vector) (_ : Z) =>
    {| ids := [map entry_id c];
       metadatas := [map entry_metadata c];
       documents := [map entry_document c];
       distances := [map (fun _ => (1 # 4)%Q) c] |} in
  let chunks := match search fl env collection_query c (lit "hello") None with
                | Ok l => l
                | Raise _ => []
                end in
  FilteredRetrieval.by_score_desc chunks /\
  ((c = [] /\ chunks = []) \/
   exists query_embedding converted,
     embed_query env (lit "hello") = Ok query_embedding /\
     let results :=
       collection_query c query_embedding (retrieval_top_k (settings env)) in
     length converted = length (hd [] (ids results)) /\
     (forall k ch, nth_error converted k = Some ch ->
                   FilteredRetrieval.built_from fl results k ch) /\
     Permutation converted chunks /\
     length chunks = length (hd [] (ids results)) /\
     (FilteredRetrieval.by_score_desc converted -> chunks = converted)).
Proof.
  intros fl0 env c collection_query chunks.
  apply (search_results_from_store fl0 env collection_query c (lit "hello")
           None chunks).
  vm_compute. reflexivity.
Defined.

(* ================================================================== *)
(** * The chat routes *)
(* ================================================================== *)

Section ChatRoutes.

Import ChatApi.

Variable fl : rounding.


(** X23.  The answers of the chat route.  A message that is empty or longer
    than 10000 characters is answered with 422.  For a message within these
    bounds the answer is decided by [search] and the model: when [search]
    raises, or the model raises, gives no choice or gives a first choice
    without text, the answer is the framework's 500; otherwise it is a 200
    that carries the text of the model's first choice and the sources
    [search] returned, and the model was asked with the prompt built from
    the message, these sources and the history. *)
Theorem chat_replies env collection_query chat_complete c message history :
  (~ (1 <= len message <= 10000)%Z ->
   chat fl env collection_query chat_complete c message history = Http422) /\
  ((1 <= len message <= 10000)%Z ->
   match search fl env collection_query c message None with
   | Raise _ =>
       chat fl env collection_query chat_complete c message history
       = Http500 internal_server_error
   | Ok found =>
       match chat_complete (build_rag_prompt message found (Some history)) with
       | Ok (Some text :: _) =>
           chat fl env collection_query chat_complete c message history
           = Http200 {| answer := text; sources := found |}
       | Ok (None :: _) | Ok [] | Raise _ =>
           chat fl env collection_query chat_complete c message history
           = Http500 internal_server_error
       end
   end).
Proof.
  unfold chat, valid_message. split.
  - intros Hv.
    destruct ((1 <=? len message)%Z && (len message <=? 10000)%Z) eqn:Ev;
      [|reflexivity].
    apply andb_true_iff in Ev. rewrite !Z.leb_le in Ev. tauto.
  - intros Hv.
    assert ((1 <=? len message)%Z && (len message <=? 10000)%Z = true) as ->.
    { apply andb_true_iff. rewrite !Z.leb_le. exact Hv. }
    cbn [negb].
    destruct (search fl env collection_query c message None) as [found|e];
      [|reflexivity].
    unfold generate. cbv zeta.
    destruct (chat_complete _) as [[|[text|] rest]|e]; reflexivity.
Qed.


(** X25.  The answers of the streaming route: a failure of retrieval is a
    500 that names it; otherwise the answer is a 200 whose events open with
    the sources [search] returned, go on with non-empty pieces of text and
    close with exactly one [done] or [error], so a failure of the model is
    told inside the stream. *)
Theorem chat_stream_replies
  env collection_query model_stream c message history :
  (1 <= len message <= 10000)%Z ->
  match search fl env collection_query c message None with
  | Raise e =>
      chat_stream fl env collection_query model_stream c message history
      = Http500 (lit "Failed to retrieve context: " ++ exn_str e)
  | Ok found =>
      exists contents terminal,
        chat_stream fl env collection_query model_stream c message history
        = Http200 (sources_event found :: contents ++ [terminal]) /\
        Forall (fun e => exists text, e = content_event text /\ text <> [])
               contents /\
        is_terminal terminal = true /\
        (terminal = done_event <->
         stream_failure
           (model_stream (build_rag_prompt message found (Some history)))
         = None) /\
        protocol_run (sources_event found :: contents ++ [terminal]) = Closed
  end.
Proof.
  intros Hv. unfold chat_stream, valid_message.
  assert ((1 <=? len message)%Z && (len message <=? 10000)%Z = true) as ->.
  { apply andb_true_iff. rewrite !Z.leb_le. exact Hv. }
  cbn [negb].
  destruct (search fl env collection_query c message None) as [found|e];
    [|reflexivity].
  set (stream := model_stream (build_rag_prompt message found (Some history))).
  pose proof (content_events_spec (stream_chunks stream)) as Hc.
  exists (content_events (stream_chunks stream)),
         (match stream_failure stream with
          | None => done_event
          | Some e => error_event (exn_str e)
          end).
  split; [|split; [exact Hc|split; [|split]]].
  - unfold event_generator, generate_stream. cbv zeta. fold stream.
    destruct (stream_failure stream); simpl; reflexivity.
  - now destruct (stream_failure stream).
  - destruct (stream_failure stream); split; congruence.
  - unfold protocol_run. simpl. rewrite fold_left_app.
    rewrite protocol_streaming by exact Hc.
    now destruct (stream_failure stream).
Qed.

End ChatRoutes.

Lemma chat_stream_replies_witness :
  let fl := fun q : Q => q in
  let env := sample_env default_settings in
  let collection_query := fun (_ : Collection) (_ : vector) (_ : Z) =>
    {| ids := []; metadatas := []; documents := []; distances := [] |} in
  let model_stream := fun _ : list Message =>
    {| stream_chunks := [{| choices := [Some (lit "Hi")] |}];
       stream_failure := None |} in
  match search fl env collection_query [] (lit "hello") None with
  | Raise e =>
      ChatApi.chat_stream fl env collection_query model_stream []
                          (lit "hello") []
      = ChatApi.Http500 (lit "Failed to retrieve context: " ++ exn_str e)
  | Ok found =>
      exists contents terminal,
        ChatApi.chat_stream fl env collection_query model_stream []
                            (lit "hello") []
        = ChatApi.Http200 (sources_event found :: contents ++ [terminal]) /\
        Forall (fun e => exists text, e = content_event text /\ text <> [])
               contents /\
        is_terminal terminal = true /\
        (terminal = done_event <->
         stream_failure
           (model_stream (build_rag_prompt (lit "hello") found (Some [])))
         = None) /\
        protocol_run (sources_event found :: contents ++ [terminal]) = Closed
  end.
Proof.
  intros fl0 env collection_query model_stream.
  apply (chat_stream_replies fl0 env collection_query model_stream []
           (lit "hello") []).
  vm_compute. split; discriminate.
Defined.

Lemma chat_replies_witness :
  let fl := fun q : Q => q in
  let env := sample_env default_settings in
  let collection_query := fun (_ : Collection) (_ : vector) (_ : Z) =>
    {| ids := []; metadatas := []; documents := []; distances := [] |} in
  let chat_complete := fun _ : list Message =>
    @Ok (list (option str)) [Some (lit "Hi")] in
  ChatApi.chat fl env collection_query chat_complete [] (lit "hello")
               [{| role := USER; content := lit "hey" |}]
  = ChatApi.Http200 {| ChatApi.answer := lit "Hi"; ChatApi.sources := [] |} /\
  ChatApi.chat fl env collection_query chat_complete [] [] []
  = ChatApi.Http422.
Proof.
  intros fl0 env collection_query chat_complete. split.
  - apply (proj2 (chat_replies fl0 env collection_query chat_complete []
                    (lit "hello") [{| role := USER; content := lit "hey" |}])).
    vm_compute. split; discriminate.
  - apply (proj1 (chat_replies fl0 env collection_query chat_complete []
                    [] [])).
    vm_compute. intros [H _]. apply H. reflexivity.
Defined.

(* ================================================================== *)
(** * The file type, as the handler and as the service read it *)
(* ================================================================== *)

Section FileTypes.

Lemma split_last_occurrence (x : char) s :
  In x s -> exists pre seg, s = pre ++ x :: seg /\ ~ In x seg.
Proof.
  induction s as [|c s IH]; intros H; [contradiction|].
  destruct (in_dec Z.eq_dec x s) as [Hin | Hn].
  - destruct (IH Hin) as (pre & seg & -> & Hs).
    now exists (c :: pre), seg.
  - destruct H as [-> | H]; [|contradiction].
    now exists [], s.
Qed.

Lemma split_on_aux_nonempty sep s : forall cur,
  Path.split_on_aux sep cur s <> [].
Proof.
  induction s as [|c s IH]; intros cur; simpl; [discriminate|].
  destruct (c =? sep); [discriminate | apply IH].
Qed.

Lemma last_cons_nonempty {A} (x : A) l d : l <> [] -> last (x :: l) d = last l d.
Proof. destruct l; [contradiction | reflexivity]. Qed.

Lemma split_on_aux_last sep seg pre : forall cur,
  ~ In sep seg ->
  last (Path.split_on_aux sep cur (pre ++ sep :: seg)) [] = seg.
Proof.
  induction pre as [|c pre IH]; intros cur Hs; simpl.
  - rewrite Z.eqb_refl, last_cons_nonempty by apply split_on_aux_nonempty.
    now rewrite split_on_aux_no_sep.
  - destruct (c =? sep).
    + rewrite last_cons_nonempty by apply split_on_aux_nonempty.
      now apply IH.
    + now apply IH.
Qed.

Lemma last_filter {A} (p : A -> bool) l d :
  l <> [] -> p (last l d) = true -> last (filter p l) d = last l d.
Proof.
  induction l as [|x l IH]; intros Hne Hp; [contradiction|].
  destruct l as [|y l].
  - simpl in *. now rewrite Hp.
  - change (last (x :: y :: l) d) with (last (y :: l) d) in *.
    specialize (IH ltac:(discriminate) Hp).
    change (filter p (x :: y :: l))
      with (if p x then x :: filter p (y :: l) else filter p (y :: l)).
    destruct (p x); [|exact IH].
    rewrite last_cons_nonempty; [exact IH|].
    intros E. rewrite E in IH. simpl in IH.
    clear - IH Hp E. 
    assert (In (last (y :: l) d) (filter p (y :: l))) as Hin.
    { apply filter_In. split; [|exact Hp].
      clear. revert y. induction l as [|z l IH]; intros y;
        [now left|]. right. apply IH. }
    now rewrite E in Hin.
Qed.

Lemma existsb_In (x : char) s : existsb (Z.eqb x) s = true <-> In x s.
Proof.
  rewrite existsb_exists. split.
  - intros (y & Hy & E). apply Z.eqb_eq in E. now subst.
  - intros H. exists x. split; [exact H | apply Z.eqb_refl].
Qed.

Lemma rfind_dot_aux_none s : forall i found,
  ~ In Path.DOT s -> Path.rfind_dot_aux i found s = found.
Proof.
  induction s as [|c s IH]; intros i found H; simpl; [reflexivity|].
  destruct (c =? Path.DOT) eqn:E.
  - apply Z.eqb_eq in E. exfalso. apply H. now left.
  - apply IH. intros Hin. apply H. now right.
Qed.

(** The name of a path whose last dot comes after its last slash. *)
Lemma name_of_dotted dir stem seg :
  dir = [] \/ (exists d, dir = d ++ [Path.SLASH]) ->
  no_slash stem -> no_slash seg -> seg <> [] ->
  Path.name (dir ++ stem ++ Path.DOT :: seg) = stem ++ Path.DOT :: seg.
Proof.
  intros Hdir Hstem Hseg Hne.
  assert (no_slash (stem ++ Path.DOT :: seg)) as Hnm.
  { apply Forall_app. split; [exact Hstem|].
    constructor; [discriminate | exact Hseg]. }
  assert (last (Path.split_on Path.SLASH (dir ++ stem ++ Path.DOT :: seg)) []
          = stem ++ Path.DOT :: seg) as Hl.
  { unfold Path.split_on. destruct Hdir as [-> | [d ->]].
    - simpl app. rewrite split_on_aux_no_sep by now apply no_slash_not_In.
      reflexivity.
    - rewrite <- app_assoc. simpl app. apply split_on_aux_last.
      now apply no_slash_not_In. }
  unfold Path.name. rewrite last_filter.
  - exact Hl.
  - apply split_on_aux_nonempty.
  - rewrite Hl. apply negb_true_iff, orb_false_iff.
    split; apply str_eqb_neq; intros E.
    + apply app_eq_nil in E. destruct E as [_ E]. discriminate E.
    + apply (f_equal (@length _)) in E. rewrite length_app in E.
      simpl in E. destruct seg; [contradiction | simpl in E; lia].
Qed.

Lemma suffix_of_dotted dir stem seg :
  dir = [] \/ (exists d, dir = d ++ [Path.SLASH]) ->
  no_slash stem -> no_slash seg -> seg <> [] -> ~ In Path.DOT seg ->
  Path.suffix (dir ++ stem ++ Path.DOT :: seg)
  = match stem with
    | [] => []
    | _ :: _ => Path.DOT :: seg
    end.
Proof.
  intros Hdir Hstem Hseg Hne Hdot. unfold Path.suffix. cbv zeta.
  rewrite name_of_dotted by assumption.
  unfold Path.suffix_index, Path.rfind_dot.
  rewrite rfind_dot_aux_app. cbn [Path.rfind_dot_aux].
  change (Path.DOT =? Path.DOT) with true. cbv iota.
  rewrite rfind_dot_aux_none by exact Hdot.
  rewrite length_app. cbn [length Nat.add].
  destruct stem as [|c stem].
  - reflexivity.
  - assert ((0 <? length (c :: stem))%nat
            && (length (c :: stem)
                <? length (c :: stem) + S (length seg) - 1)%nat = true) as ->.
    { apply andb_true_iff. split; apply Nat.ltb_lt; simpl; [lia|].
      destruct seg; [contradiction | simpl; lia]. }
    now rewrite skipn_app, skipn_all, Nat.sub_diag.
Qed.

Lemma lower_no_char (x : char) s t :
  lower s = t -> lower_char x = x -> ~ In x t -> ~ In x s.
Proof.
  intros <- Hx Hn Hin. apply Hn. unfold lower. rewrite <- Hx.
  now apply in_map.
Qed.

(** X26.  A file name that passes [validate_file] splits into a directory
    part, a stem and the extension after its last dot.  The service reads
    the same extension from it, unless the stem is empty: a name such as
    [.pdf] passes the validation of the handler and is then refused by the
    service as a file of unsupported type, with an empty type in the
    message. *)
Theorem validated_name_suffix filename :
  DocumentsApi.allowed (DocumentsApi.upload_ext filename) = true ->
  exists dir stem seg,
    filename = dir ++ stem ++ Path.DOT :: seg /\
    (dir = [] \/ exists d, dir = d ++ [Path.SLASH]) /\
    no_slash stem /\
    DocumentsApi.upload_ext filename = Path.DOT :: lower seg /\
    (stem <> [] ->
     lower (Path.suffix filename) = DocumentsApi.upload_ext filename) /\
    (stem = [] ->
     forall env file,
       extract_text env file filename = Raise (unsupported_file_type [])).
Proof.
  intros Ha. unfold DocumentsApi.upload_ext in *.
  destruct (existsb (Z.eqb Path.DOT) filename) eqn:Ed;
    [|discriminate Ha].
  apply existsb_In in Ed.
  destruct (split_last_occurrence _ _ Ed) as (pre & seg & -> & Hdot).
  unfold Path.split_on in *. rewrite split_on_aux_last in * by exact Hdot.
  assert (lower seg = lit "pdf" \/ lower seg = lit "txt") as Hseg.
  { unfold DocumentsApi.allowed in Ha. apply orb_true_iff in Ha.
    destruct Ha as [Ha | Ha]; apply str_eqb_eq in Ha; injection Ha; auto. }
  assert (seg <> []) as Hne.
  { intros ->. destruct Hseg as [H | H]; discriminate H. }
  assert (no_slash seg) as Hslash.
  { apply Forall_forall. intros c Hc ->. revert Hc.
    destruct Hseg as [H | H];
      apply (lower_no_char Path.SLASH seg _ H eq_refl);
      simpl; intros Hin; repeat destruct Hin as [Hin | Hin];
      try discriminate Hin; exact Hin. }
  assert (exists dir stem,
            pre = dir ++ stem /\
            (dir = [] \/ exists d, dir = d ++ [Path.SLASH]) /\
            no_slash stem) as (dir & stem & -> & Hdir & Hstem).
  { destruct (in_dec Z.eq_dec Path.SLASH pre) as [Hin | Hn].
    - destruct (split_last_occurrence _ _ Hin) as (d & stem & -> & Hs).
      exists (d ++ [Path.SLASH]), stem. rewrite <- app_assoc.
      split; [reflexivity|]. split; [right; now exists d|].
      apply Forall_forall. intros c Hc ->. contradiction.
    - exists [], pre. split; [reflexivity|]. split; [now left|].
      apply Forall_forall. intros c Hc ->. contradiction. }
  exists dir, stem, seg. rewrite <- app_assoc.
  split; [reflexivity|]. split; [exact Hdir|]. split; [exact Hstem|].
  split; [reflexivity|].
  pose proof (suffix_of_dotted dir stem seg Hdir Hstem Hslash Hne Hdot) as Hs.
  split.
  - intros Hst. rewrite Hs. destruct stem; [contradiction|]. reflexivity.
  - intros -> env file. unfold extract_text. simpl app in *. rewrite Hs.
    reflexivity.
Qed.

Lemma validated_name_suffix_witness :
  exists dir stem seg,
    lit "dir/.PDF" = dir ++ stem ++ Path.DOT :: seg /\
    (dir = [] \/ exists d, dir = d ++ [Path.SLASH]) /\
    no_slash stem /\
    DocumentsApi.upload_ext (lit "dir/.PDF") = Path.DOT :: lower seg /\
    (stem <> [] ->
     lower (Path.suffix (lit "dir/.PDF"))
     = DocumentsApi.upload_ext (lit "dir/.PDF")) /\
    (stem = [] ->
     forall env file,
       extract_text env file (lit "dir/.PDF")
       = Raise (unsupported_file_type [])).
Proof.
  apply (validated_name_suffix (lit "dir/.PDF")). reflexivity.
Defined.

End FileTypes.
